(** * Utilities: combinatorics and lazy iterator adaptors

    A shallow embedding of the combinatorial core of the Utilities library
    (binomial and multinomial coefficients, the factorial number system,
    [PermutationItr], [CombinationItr], [RangeImpl], [CartesianProduct]),
    of [UnsignedSubtract], the tuple algorithms and the functors of [Zip],
    and of [StaticString], [SmartEnum], the case-insensitive comparison
    and [MathSet], and the properties established about them.

    Conventions.
    - [std::size_t] is a 64-bit unsigned integer: a [Z] kept in
      [[0, 2^64)] by [to_size_t]; [int] is 32-bit signed ([to_int]),
      [long] 64-bit signed ([to_long]), [unsigned] 32-bit ([to_unsigned]).
    - A sequence ([std::vector], [std::deque]) is a [list].
    - The element type of a sequence is any type with the [==] and [<]
      the templates use: the class [Elem], instantiated at [Z] (for
      [int] / [size_t] elements) and [bool] (for [std::vector<bool>]).
    - A loop that may fail to finish is given fuel; [None] means that the
      fuel ran out. *)

From Stdlib Require Import ZArith List Bool Lia Arith Permutation Sorted.
Import ListNotations.
Open Scope Z_scope.

(* ------------------------------------------------------------------ *)
(** ** Machine integers *)

Module Machine.

Definition size_max : Z := 2 ^ 64.

(** Conversion to [std::size_t]: reduction modulo 2^64. *)
Definition to_size_t (z : Z) : Z := z mod size_max.

(** Conversion to [int]: two's complement reduction to 32 bits. *)
Definition to_int (z : Z) : Z := (z + 2 ^ 31) mod 2 ^ 32 - 2 ^ 31.

(** [sizeof(std::size_t) * 8]. *)
Definition size_bits : Z := 64.

(** Conversion to [long]: two's complement reduction to 64 bits. *)
Definition to_long (z : Z) : Z := (z + 2 ^ 63) mod 2 ^ 64 - 2 ^ 63.

(** Whether a mathematical result is a value of [long]; a signed
    operation whose result is not has no defined behaviour. *)
Definition fits_long (z : Z) : bool := (- 2 ^ 63 <=? z) && (z <? 2 ^ 63).

(** An [unsigned] holds 32 bits. *)
Definition to_unsigned (z : Z) : Z := z mod 2 ^ 32.

End Machine.
Import Machine.

(* ------------------------------------------------------------------ *)
(** ** Element types and the STL algorithms the library calls *)

Class Elem (A : Type) := {
  eqb : A -> A -> bool;   (* operator== *)
  ltb : A -> A -> bool;   (* operator<  *)
  value_init : A          (* the value-initialised element, T() *)
}.

#[global] Instance Elem_Z : Elem Z :=
  {| eqb := Z.eqb; ltb := Z.ltb; value_init := 0 |}.

(** [false < true], as for C++ [bool]. *)
#[global] Instance Elem_bool : Elem bool :=
  {| eqb := Bool.eqb; ltb := fun a b => negb a && b; value_init := false |}.

Module Stl.
Section Algorithms.
Context {A : Type} `{Elem A}.

(** [operator==] of two sequences. *)
Fixpoint seq_eqb (l1 l2 : list A) : bool :=
  match l1, l2 with
  | [], [] => true
  | x :: t1, y :: t2 => eqb x y && seq_eqb t1 t2
  | _, _ => false
  end.

(** [std::count(first, last, v)]. *)
Fixpoint count (v : A) (l : list A) : nat :=
  match l with
  | [] => O
  | x :: t => if eqb x v then S (count v t) else count v t
  end.

(** [std::sort]: on the element types used here equal elements are
    indistinguishable, so any sorting algorithm yields the same sequence;
    insertion sort is used. *)
Fixpoint insert (x : A) (l : list A) : list A :=
  match l with
  | [] => [x]
  | y :: t => if ltb y x then y :: insert x t else x :: l
  end.

Fixpoint sort (l : list A) : list A :=
  match l with
  | [] => []
  | x :: t => insert x (sort t)
  end.

(** The swap step shared by [std::next_permutation] and
    [std::prev_permutation].  [r] is the tail [[ii, last)] read from the
    back; the first element [x] of [r] with [before i x] is the one [--j]
    stops at.  It is exchanged with the pivot [i]; as [r] is the tail
    reversed, the result is also the tail after [std::reverse(ii, last)]. *)
Fixpoint swap_pivot (before : A -> A -> bool) (i : A) (r : list A)
  : A * list A :=
  match r with
  | [] => (i, [])
  | x :: t =>
      if before i x then (x, i :: t)
      else let '(j, t') := swap_pivot before i t in (j, x :: t')
  end.

(** The backwards scan of [std::next_permutation]: [rpre] holds the
    elements before [ii], nearest first, and [suf] the elements from [ii]
    to [last]. *)
Fixpoint permutation_scan (before : A -> A -> bool)
    (rpre suf : list A) : list A * bool :=
  match rpre with
  | [] => (rev suf, false)                 (* i == first: reverse all *)
  | i :: rpre' =>
      match suf with
      | [] => (rpre, false)                (* not reached: [ii] is in [suf] *)
      | ii :: _ =>
          if before i ii
          then let '(j, tl) := swap_pivot before i (rev suf) in
               (rev rpre' ++ j :: tl, true)
          else permutation_scan before rpre' (i :: suf)
      end
  end.

Definition permutation_step (before : A -> A -> bool) (l : list A)
  : list A * bool :=
  match rev l with
  | [] => (l, false)                       (* first == last *)
  | [_] => (l, false)                      (* one element *)
  | x :: rpre => permutation_scan before rpre [x]
  end.

(** [std::next_permutation]: the sequence it leaves and the flag it
    returns. *)
Definition next_permutation (l : list A) : list A * bool :=
  permutation_step ltb l.

(** [std::prev_permutation]: the same algorithm with the comparison
    reversed. *)
Definition prev_permutation (l : list A) : list A * bool :=
  permutation_step (fun a b => ltb b a) l.

End Algorithms.
End Stl.
Import Stl.

(* ------------------------------------------------------------------ *)
(** ** combinatorics.hpp / combinatorics.cpp *)

Module Combinatorics.

(** What a call of [binomial_coefficient] does: return a value or throw
    [std::overflow_error]. *)
Inductive result : Type :=
| Value (v : Z)
| Overflow.

Definition add_size (a b : result) : result :=
  match a, b with
  | Value x, Value y => Value (to_size_t (x + y))
  | _, _ => Overflow
  end.

(** [BCImpl<std::size_t>::eval].  The arguments are [std::size_t]; the
    recursion is on [n]. *)
Fixpoint eval (n k : nat) : result :=
  match k with
  | O => Value 1
  | S k' =>
      if (n <? k)%nat then Value 0
      else if (Z.of_nat n <? size_bits)
      then match n with
           | O => Value 0
           | S n' => add_size (eval n' k') (eval n' k)
           end
      else Overflow
  end.

Definition binomial_coefficient (n k : nat) : result := eval n k.

(** [std::accumulate(ks.begin(), ks.end(), 0)]: the accumulator has the
    type of the initial value, [int]. *)
Definition accumulate_int (ks : list Z) : Z :=
  fold_left (fun acc k => to_int (to_size_t (to_size_t acc + k))) ks 0.

(** The body of [for(size_t i = 1; i <= k; ++i)], run [cnt] more times
    from [i]. *)
Fixpoint mc_inner (cnt : nat) (i : Z) (st : Z * Z) : Z * Z :=
  match cnt with
  | O => st
  | S cnt' =>
      let '(result, numerator) := st in
      let result := to_size_t (result * numerator) in
      let result := (result - result mod i) / i in
      mc_inner cnt' (i + 1) (result, to_size_t (numerator - 1))
  end.

(** [MCImpl<std::size_t>::eval]. *)
Definition mc_eval (ks : list Z) : Z :=
  let numerator := to_size_t (accumulate_int ks) in
  fst (fold_left (fun st k => mc_inner (Z.to_nat k) 1 st) ks (1, numerator)).

Definition multinomial_coefficient (ks : list Z) : Z := mc_eval ks.

Section Sequences.
Context {A : Type} `{Elem A}.

(** The [while(ei != temp.end())] loop of [n_permutations]; every turn
    moves [ei] forward by at least one element, so [length temp] turns
    are enough. *)
Fixpoint count_runs (turns : nat) (rest : list A) : list Z :=
  match turns, rest with
  | S turns', ei :: _ =>
      let n_ei := count ei rest in
      Z.of_nat n_ei :: count_runs turns' (skipn n_ei rest)
  | _, _ => []
  end.

Definition n_permutations (seq : list A) : Z :=
  let temp := sort seq in
  multinomial_coefficient (count_runs (length temp) temp).

(** The [for] loop of [permutation_to_fns] over [original]: the digit and
    [new_orig]. *)
Fixpoint find_digit (ei : A) (i : Z) (original : list A) : Z * list A :=
  match original with
  | [] => (0, [])
  | ej :: rest =>
      if eqb ej ei then (i, rest)
      else let '(d, new_orig) := find_digit ei (i + 1) rest in
           (d, ej :: new_orig)
  end.

Fixpoint permutation_to_fns (perm original : list A) : list Z :=
  match perm with
  | [] => []
  | [_] => [0]
  | ei :: sub_perm =>
      let '(digit, new_orig) := find_digit ei 0 original in
      digit :: permutation_to_fns sub_perm new_orig
  end.

(** The inner [for] loop of [fns_to_permutation]: what is appended to
    [rv] and what [temp2] becomes. *)
Fixpoint pick (x i : Z) (temp : list A) : list A * list A :=
  match temp with
  | [] => ([], [])
  | e :: rest =>
      let '(taken, temp2) := pick x (i + 1) rest in
      if i =? x then (e :: taken, temp2) else (taken, e :: temp2)
  end.

Fixpoint fns_to_permutation (fns : list Z) (original : list A) : list A :=
  match fns with
  | [] => []
  | x :: fns' =>
      let '(taken, temp2) := pick x 0 original in
      taken ++ fns_to_permutation fns' temp2
  end.

Fixpoint fns_place_values (perm : list A) : list Z :=
  match perm with
  | [] => []
  | [_] => [1]
  | [_; _] => [1; 1]
  | _ :: sub_perm =>
      n_permutations perm / Z.of_nat (length perm)
        :: fns_place_values sub_perm
  end.

(** The container [temp] of [decimal_to_fns]: [new_orig] without the
    element at position [g]. *)
Definition without (g : nat) (l : list A) : list A :=
  firstn g l ++ skipn (S g) l.

(** The inner [while(curr_guess != new_orig.end())] loop of
    [decimal_to_fns], with [curr_guess] at position [g].  [Some] is the
    [break]: the digit pushed, the new [new_orig] and the new [D].
    [None] is the loop running to its end without a [break]. *)
Fixpoint guess_loop (turns : nat) (D : Z) (new_orig : list A)
    (g : nat) (total_perms digit_i : Z) : option (Z * list A * Z) :=
  match turns with
  | O => None
  | S turns' =>
      match nth_error new_orig g with
      | None => None
      | Some ei =>
          let temp := without g new_orig in
          let P_ei := n_permutations temp in
          let total_perms := to_size_t (total_perms + P_ei) in
          if D <? total_perms
          then Some (digit_i, temp, to_size_t (D - to_size_t (total_perms - P_ei)))
          else
            let n_ei := count ei temp in
            guess_loop turns' D new_orig (S g + n_ei)
              total_perms (to_size_t (digit_i + 1 + Z.of_nat n_ei))
      end
  end.

(** The outer [while(new_orig.begin() != new_orig.end())] loop of
    [decimal_to_fns].  When the inner loop ends without a [break] nothing
    has changed and the outer loop goes round again. *)
Fixpoint digits_loop (fuel : nat) (D : Z) (new_orig : list A)
    (rv : list Z) : option (list Z) :=
  match fuel with
  | O => None
  | S fuel' =>
      match new_orig with
      | [] => Some rv
      | _ :: _ =>
          match guess_loop (length new_orig) D new_orig 0 0 0 with
          | Some (digit_i, temp, D') =>
              digits_loop fuel' D' temp (rv ++ [digit_i])
          | None => digits_loop fuel' D new_orig rv
          end
      end
  end.

Definition decimal_to_fns (fuel : nat) (D : Z) (orig : list A)
  : option (list Z) :=
  digits_loop fuel D (sort orig) [].

(** [std::inner_product(first1, last1, first2, 0)]: an [int]
    accumulator. *)
Fixpoint inner_product_int (xs ys : list Z) (acc : Z) : Z :=
  match xs, ys with
  | x :: xs', y :: ys' =>
      inner_product_int xs' ys'
        (to_int (to_size_t (to_size_t acc + to_size_t (x * y))))
  | _, _ => acc
  end.

Definition permutation_to_decimal (perm original : list A) : Z :=
  let fns := permutation_to_fns perm original in
  let values := fns_place_values perm in
  to_size_t (inner_product_int fns values 0).

Definition decimal_to_permutation (fuel : nat) (n : Z) (original : list A)
  : option (list A) :=
  option_map (fun fns => fns_to_permutation fns original)
             (decimal_to_fns fuel n original).

End Sequences.
End Combinatorics.
Import Combinatorics.

(* ------------------------------------------------------------------ *)
(** ** range_container.hpp and the iterator interface *)

(** The operations every iterator class supplies to the CRTP base
    classes of iterator_types.hpp.  [increment] is partial because an
    iterator may index a sequence out of range (undefined behaviour). *)
Class Iterator (I V : Type) := {
  increment : I -> option I;
  dereference : I -> V;
  are_equal : I -> I -> bool
}.

Module RangeContainer.

Record t (I : Type) := Build { start_ : I; end_ : I; size_ : Z }.
Arguments Build {I}.
Arguments start_ {I}.
Arguments end_ {I}.
Arguments size_ {I}.

Definition size {I} (c : t I) : Z := size_ c.

Section Traversal.
Context {I V : Type} `{Iterator I V}.

Definition empty (c : t I) : bool := are_equal (start_ c) (end_ c).

(** The loop [for(auto it = first; it != last; ++it)] that dereferences
    [it] in its body: the values visited, in order. *)
Fixpoint visit (fuel : nat) (it last : I) : option (list V) :=
  match fuel with
  | O => None
  | S fuel' =>
      if are_equal it last then Some []
      else match increment it with
           | None => None
           | Some it' => option_map (cons (dereference it)) (visit fuel' it' last)
           end
  end.

(** A range-based [for] over the container. *)
Definition elements (fuel : nat) (c : t I) : option (list V) :=
  visit fuel (start_ c) (end_ c).

End Traversal.
End RangeContainer.

(* ------------------------------------------------------------------ *)
(** ** integer_utils.hpp *)
Module IntegerUtils.

(** [UnsignedSubtract<long, std::size_t>(lhs, rhs)].  The differences are
    taken in [std::size_t] and converted to [long]; [None] is the signed
    overflow of [negative1 * LONG_MIN]. *)
Definition UnsignedSubtract (lhs rhs : Z) : option Z :=
  if lhs >? rhs then Some (to_long (to_size_t (lhs - rhs)))
  else
    let d := to_long (to_size_t (rhs - lhs)) in
    if fits_long (-1 * d) then Some (-1 * d) else None.

End IntegerUtils.
Import IntegerUtils.

(* ------------------------------------------------------------------ *)
(** ** permutations.hpp *)

Module PermutationItr.
Section Itr.
Context {A : Type} `{Elem A}.

Record t := Build {
  orig_set_ : list A;
  sorted_orig_ : list A;
  set_ : list A;
  offset_ : Z;
  dx_ : Z
}.

(** [PermutationItr() = default]. *)
Definition default : t := Build [] [] [] 0 0.

(** [PermutationItr(input_set, offset)]. *)
Definition make (input_set : list A) (offset : Z) : t :=
  let sorted := sort input_set in
  Build input_set sorted input_set offset
        (permutation_to_decimal input_set sorted).

Definition deref (p : t) : list A := set_ p.

Definition incr (p : t) : t :=
  Build (orig_set_ p) (sorted_orig_ p)
        (fst (next_permutation (set_ p)))
        (to_size_t (offset_ p + 1)) (dx_ p).

Definition decr (p : t) : t :=
  Build (orig_set_ p) (sorted_orig_ p)
        (fst (prev_permutation (set_ p)))
        (to_size_t (offset_ p - 1)) (dx_ p).

Definition equal (p q : t) : bool :=
  seq_eqb (orig_set_ p) (orig_set_ q)
  && seq_eqb (set_ p) (set_ q)
  && (offset_ p =? offset_ q).

(** [advance(n)], [n] a [long]: the sum [offset_ + dx_ + n] is formed in
    [std::size_t]. *)
Definition advance (fuel : nat) (p : t) (n : Z) : option t :=
  match decimal_to_permutation fuel (to_size_t (offset_ p + dx_ p + n))
                               (sorted_orig_ p) with
  | None => None
  | Some s =>
      Some (Build (orig_set_ p) (sorted_orig_ p) s
                  (to_size_t (offset_ p + n)) (dx_ p))
  end.

(** [n] single steps: [++] for positive [n], [--] for negative [n]. *)
Definition step_by (p : t) (n : Z) : t :=
  if 0 <=? n then Nat.iter (Z.to_nat n) incr p
  else Nat.iter (Z.to_nat (- n)) decr p.

#[global] Instance iterator : Iterator t (list A) :=
  {| increment := fun p => Some (incr p);
     dereference := deref;
     are_equal := equal |}.

(** [Permutations(container)]. *)
Definition Permutations (container : list A) : RangeContainer.t t :=
  let nperms := n_permutations container in
  RangeContainer.Build (make container 0) (make container nperms) nperms.

(** [distance_to(rhs)]; [None] when one of the signed operations
    overflows. *)
Definition distance_to (p rhs : t) : option Z :=
  match UnsignedSubtract (dx_ rhs) (dx_ p),
        UnsignedSubtract (offset_ rhs) (offset_ p) with
  | Some ddx, Some doff =>
      if fits_long (ddx + doff) then Some (ddx + doff) else None
  | _, _ => None
  end.

End Itr.
Arguments t A : clear implicits.
End PermutationItr.

(* ------------------------------------------------------------------ *)
(** ** range.hpp, at [element_type = int] *)

Module Range.

(** [RangeItr<int>]; [increment_] is a [long].  Signed arithmetic is
    exact: an overflowing signed operation has no defined behaviour. *)
Record RangeItr := Build {
  start_ : Z;
  stop_ : Z;
  increment_ : Z;
  value_ : Z
}.

Definition make (start stop increment : Z) : RangeItr :=
  Build start stop increment start.

Definition advance (it : RangeItr) (adv : Z) : RangeItr :=
  Build (start_ it) (stop_ it) (increment_ it)
        (if adv >? 0 then value_ it + adv else value_ it - (-1 * adv)).

#[global] Instance iterator : Iterator RangeItr Z :=
  {| increment := fun it => Some (advance it (increment_ it));
     dereference := value_;
     are_equal := fun a b => value_ a =? value_ b |}.

(** [RangeImpl(start, stop, increment)]; C++ [/] truncates ([Z.quot]).
    The differences [stop - start] and [start - stop] are taken in [int]
    and the product [-1 * increment] in [long]; where one of them
    overflows, the model takes the two's complement result. *)
Definition RangeImpl (start stop increment : Z) : RangeContainer.t RangeItr :=
  RangeContainer.Build
    (make start stop increment)
    (make stop stop increment)
    (to_size_t (if stop >? start
                then Z.quot (to_int (stop - start)) increment
                else Z.quot (to_int (start - stop))
                            (to_long (-1 * increment)))).

(** [Range(stop)] and [Range(start, stop, increment)]. *)
Definition Range1 (stop : Z) := RangeImpl 0 stop 1.
Definition Range (start stop increment : Z) := RangeImpl start stop increment.

(** The mathematical ceiling of [a / b]. *)
Definition ceil_div (a b : Z) : Z := - ((- a) / b).

(** [decrement()]. *)
Definition decrement (it : RangeItr) : RangeItr :=
  advance it (-1 * increment_ it).

(** [distance_to(rhs)]. *)
Definition distance_to (it rhs : RangeItr) : Z :=
  let is_positive := value_ rhs >? value_ it in
  let abs_diff :=
    if is_positive then value_ rhs - value_ it else value_ it - value_ rhs in
  if is_positive then abs_diff else -1 * abs_diff.

(** The comparisons [RandomAccessIteratorBase] builds on [distance_to]
    and [are_equal]: [operator<], [operator<=], [operator>],
    [operator>=]. *)
Definition lt (it rhs : RangeItr) : bool := distance_to it rhs >? 0.
Definition le (it rhs : RangeItr) : bool := lt it rhs || are_equal it rhs.
Definition gt (it rhs : RangeItr) : bool := lt rhs it.
Definition ge (it rhs : RangeItr) : bool := le rhs it.

(** [operator-] of [RandomAccessIteratorBase]: [it - rhs] is
    [it.distance_to(rhs)]. *)
Definition minus (it rhs : RangeItr) : Z := distance_to it rhs.

(** [std::advance(it, n)] on a random access iterator, as libstdc++
    has it: [++it] when the compiler knows [n] to be the constant 1,
    [--it] when it knows [n] to be -1, and [it += n] otherwise.  Whether
    the value of [n] is known where the call is compiled depends on the
    build (inlining, optimisation level); [known] says so. *)
Definition std_advance (known : bool) (it : RangeItr) (n : Z) : RangeItr :=
  if known && (n =? 1) then advance it (increment_ it)
  else if known && (n =? -1) then decrement it
  else advance it n.

(** [RangeContainer::operator[](i)] at [IteratorType = RangeItr<int>]:
    [std::advance(copy_of_start, i)], the index converted to the
    [difference_type]. *)
Definition subscript (known : bool) (c : RangeContainer.t RangeItr) (i : Z)
  : Z :=
  dereference (std_advance known (RangeContainer.start_ c) (to_long i)).

End Range.

(* ------------------------------------------------------------------ *)
(** ** combinations.hpp *)

Module CombinationItr.

(** [CombinationItr<SequenceType, repeat>]. *)
Record t (A : Type) (repeat : bool) := Build {
  set_ : list A;
  comb_ : list A;
  current_perm_ : PermutationItr.t bool
}.
Arguments Build {A repeat}.
Arguments set_ {A repeat}.
Arguments comb_ {A repeat}.
Arguments current_perm_ {A repeat}.

Section Itr.
Context {A : Type} `{Elem A} {repeat : bool}.

(** [comb_[counter] = v]; [None] when [counter] is out of range. *)
Fixpoint store (counter : nat) (v : A) (comb : list A) : option (list A) :=
  match comb, counter with
  | [], _ => None
  | _ :: t, O => Some (v :: t)
  | x :: t, S c => option_map (cons x) (store c v t)
  end.

(** The loop of [update_comb] over the rest [p] of the mask, from
    position [i]. *)
Fixpoint update_loop (set : list A) (p : list bool)
    (i counter bar_count : nat) (comb : list A) : option (list A) :=
  match p with
  | [] => Some comb
  | b :: p' =>
      if negb b then
        match nth_error set (if repeat then bar_count else i) with
        | None => None
        | Some v =>
            match store counter v comb with
            | None => None
            | Some comb' =>
                if (S counter =? length comb)%nat then Some comb'
                else update_loop set p' (S i) (S counter) bar_count comb'
            end
        end
      else
        if (counter =? length comb)%nat then Some comb
        else update_loop set p' (S i) counter (S bar_count) comb
  end.

Definition update_comb (c : t A repeat) : option (t A repeat) :=
  option_map (fun comb => Build (set_ c) comb (current_perm_ c))
    (update_loop (set_ c) (PermutationItr.deref (current_perm_ c)) 0 0 0
                 (comb_ c)).

(** The mask [temp] of the constructor: [size] times [true], then the
    first [k] entries set to [false]; [None] when [k] exceeds [size]. *)
Definition mask (size k : nat) : option (list bool) :=
  if (k <=? size)%nat
  then Some (List.repeat false k ++ List.repeat true (size - k))
  else None.

(** [CombinationItr(input_set, k, at_end)]. *)
Definition make (input_set : list A) (k : nat) (at_end : bool)
  : option (t A repeat) :=
  let n := length input_set in
  let eff_size :=
    if (negb (n =? 0)%nat || negb (k =? 0)%nat)
    then Z.to_nat (to_size_t (Z.of_nat n + Z.of_nat k - 1)) else O in
  match mask (if negb repeat then n else eff_size) k with
  | None => None
  | Some temp =>
      let perms := PermutationItr.Permutations temp in
      update_comb
        (Build input_set (List.repeat value_init k)
               (if at_end then RangeContainer.end_ perms
                else RangeContainer.start_ perms))
  end.

Definition incr (c : t A repeat) : option (t A repeat) :=
  update_comb (Build (set_ c) (comb_ c) (PermutationItr.incr (current_perm_ c))).

Definition decr (c : t A repeat) : option (t A repeat) :=
  update_comb (Build (set_ c) (comb_ c) (PermutationItr.decr (current_perm_ c))).

Definition equal (c d : t A repeat) : bool :=
  seq_eqb (set_ c) (set_ d)
  && PermutationItr.equal (current_perm_ c) (current_perm_ d).

#[global] Instance iterator : Iterator (t A repeat) (list A) :=
  {| increment := incr; dereference := comb_; are_equal := equal |}.

End Itr.
End CombinationItr.

(** What building a combination container does: the container, a thrown
    [std::overflow_error], or undefined behaviour in a constructor. *)
Inductive built (C : Type) : Type :=
| Built (c : C)
| Thrown
| Undefined.
Arguments Built {C}.
Arguments Thrown {C}.
Arguments Undefined {C}.

Section Combinations.
Context {A : Type} `{Elem A}.

Definition container (repeat : bool) (input : list A) (k n : nat)
  : built (RangeContainer.t (CombinationItr.t A repeat)) :=
  match CombinationItr.make input k false,
        CombinationItr.make input k true with
  | Some b, Some e =>
      match binomial_coefficient n k with
      | Value sz => Built (RangeContainer.Build b e sz)
      | Overflow => Thrown
      end
  | _, _ => Undefined
  end.

(** [Combinations(container, k)]. *)
Definition Combinations (input : list A) (k : nat) :=
  container false input k (length input).

(** [CombinationsWithRepeat(container, k)]. *)
Definition CombinationsWithRepeat (input : list A) (k : nat) :=
  container true input k
    (Z.to_nat (to_size_t (Z.of_nat (length input) + Z.of_nat k - 1))).

End Combinations.

(** A range-based [for] over a container that was built. *)
Definition all_elements {I V} `{Iterator I V} (fuel : nat)
    (b : built (RangeContainer.t I)) : option (list V) :=
  match b with
  | Built c => RangeContainer.elements fuel c
  | _ => None
  end.

(* ------------------------------------------------------------------ *)
(** ** tuple_utilities.hpp

    A [std::tuple] of [N] iterators (or containers) of one element type is
    a list of length [N]; the functors' template parameter [I] becomes an
    argument. *)

Module TupleUtilities.
Section Tuples.
Context {X Y R : Type}.

Fixpoint tuple_transform_impl (run : nat -> X -> Y) (I : nat) (t : list X)
  : list Y :=
  match t with
  | [] => []
  | x :: rest => run I x :: tuple_transform_impl run (S I) rest
  end.

Definition tuple_transform (t : list X) (run : nat -> X -> Y) : list Y :=
  tuple_transform_impl run 0 t.

Fixpoint tuple_accumulate_impl (run : nat -> R -> X -> R) (I : nat)
    (t : list X) (val : R) : R :=
  match t with
  | [] => val
  | x :: rest => tuple_accumulate_impl run (S I) rest (run I val x)
  end.

Definition tuple_accumulate (t : list X) (run : nat -> R -> X -> R)
    (val : R) : R :=
  tuple_accumulate_impl run 0 t val.

Fixpoint tuple_find_if_impl (run : nat -> X -> bool) (I : nat) (t : list X)
  : nat :=
  match t with
  | [] => I
  | x :: rest => if run I x then I else tuple_find_if_impl run (S I) rest
  end.

Definition tuple_find_if (t : list X) (run : nat -> X -> bool) : nat :=
  tuple_find_if_impl run 0 t.

(** The binary [tuple_transform_impl]; a [static_assert] makes the two
    tuples equally long. *)
Fixpoint tuple_transform2_impl (run : nat -> X -> Y -> R) (I : nat)
    (lhs : list X) (rhs : list Y) : list R :=
  match lhs, rhs with
  | x :: lhs', y :: rhs' =>
      run I x y :: tuple_transform2_impl run (S I) lhs' rhs'
  | _, _ => []
  end.

Definition tuple_transform2 (lhs : list X) (rhs : list Y)
    (run : nat -> X -> Y -> R) : list R :=
  tuple_transform2_impl run 0 lhs rhs.

End Tuples.
End TupleUtilities.
Import TupleUtilities.

(* ------------------------------------------------------------------ *)
(** ** cartesian_product.hpp

    A component container is a [list Z]; an iterator into it is a
    position, [begin()] being [0] and [end()] its length. *)

Module CartesianProduct.

(** [CartSizeFunctor]. *)
Definition initial_value : Z := 1.

Definition size_run (_ : nat) (curr_min : Z) (container : list Z) : Z :=
  to_size_t (curr_min * Z.of_nat (length container)).

(** [CartIncrementFunctor::AtEnd]. *)
Definition AtEnd (last : list nat) (I : nat) (elem : nat) : bool :=
  (elem =? nth I last O)%nat.

(** [CartIncrementFunctor::Reseter]. *)
Definition Reseter (start : list nat) (turn_on : nat) (I : nat) (itr : nat)
  : nat :=
  if (turn_on <=? I)%nat then nth I start O else itr.

(** [CartIncrementFunctor::Incrementer]: [++itr] acts on the element of
    the tuple handed to [tuple_transform], so the tuple returned is also
    the new content of that tuple. *)
Definition Incrementer (turn_on : nat) (I : nat) (itr : nat) : nat :=
  if (I =? turn_on)%nat then S itr else itr.

(** The [while(true)] loop of [CartIncrementFunctor::run] from a given
    [idx]; the result is the final [value]. *)
Fixpoint run_loop (fuel : nat) (start last value : list nat) (idx : nat)
  : option (list nat) :=
  match fuel with
  | O => None
  | S fuel' =>
      if (idx =? 0)%nat then Some value
      else
        let temp_value := tuple_transform value (Incrementer (idx - 1)) in
        let new_idx := tuple_find_if temp_value (AtEnd last) in
        if (new_idx =? idx)%nat
        then Some (tuple_transform temp_value (Reseter start idx))
        else run_loop fuel' start last temp_value new_idx
  end.

(** [CartIncrementFunctor::run]; [idx] starts at [nelems], and each turn
    of the loop that does not leave it lowers [idx]. *)
Definition run (start last value : list nat) : option (list nat) :=
  run_loop (S (length value)) start last value (length value).

(** Modelled from the spec: [TupleContainerImpl] of tuple_container.hpp,
    which is not among the sources.  Its [size()] is the reduction of the
    component containers by the size functor from the functor's
    [initial_value], except that a product of no containers is empty (the
    case the comment in [CartSizeFunctor] says the base class catches);
    [begin()] and [end()] hold the tuples of the components' [begin()]s
    and [end()]s; incrementing calls the increment functor; dereferencing
    yields the tuple of the components' current elements; two iterators
    are equal when their tuples of component iterators are. *)
Record TupleItr := Build {
  containers_ : list (list Z);
  start_ : list nat;
  end_ : list nat;
  value_ : list nat
}.

(** Modelled from the spec: [TupleContainerImpl::size()], the reduction
    of the component sizes by the size functor. *)
Definition size (containers : list (list Z)) : Z :=
  match containers with
  | [] => 0
  | _ :: _ => tuple_accumulate containers size_run initial_value
  end.

(** Modelled from the spec: the components' [begin()]s. *)
Definition begins (containers : list (list Z)) : list nat :=
  map (fun _ => O) containers.

(** Modelled from the spec: the components' [end()]s. *)
Definition ends (containers : list (list Z)) : list nat :=
  map (@length Z) containers.

(** Modelled from the spec: the increment and dereference of the
    iterator of [TupleContainerImpl]. *)
Definition incr (it : TupleItr) : option TupleItr :=
  option_map (Build (containers_ it) (start_ it) (end_ it))
             (run (start_ it) (end_ it) (value_ it)).

(** Modelled from the spec: the tuple of the components' current
    elements. *)
Definition deref (it : TupleItr) : list Z :=
  map (fun '(c, pos) => nth pos c 0) (combine (containers_ it) (value_ it)).

(** Modelled from the spec: the iterator of [TupleContainerImpl]; equal
    iterators hold equal tuples of component iterators. *)
#[global] Instance iterator : Iterator TupleItr (list Z) :=
  {| increment := incr;
     dereference := deref;
     are_equal := fun a b =>
       if list_eq_dec Nat.eq_dec (value_ a) (value_ b) then true else false |}.

(** [CartesianProduct(containers...)]: the [TupleContainerImpl] over the
    containers with the size and increment functors above. *)
Definition CartesianProduct (containers : list (list Z))
  : RangeContainer.t TupleItr :=
  let b := begins containers in
  let e := ends containers in
  RangeContainer.Build (Build containers b e b) (Build containers b e e)
                       (size containers).

End CartesianProduct.

(* ------------------------------------------------------------------ *)
(** ** zip.hpp

    As for the Cartesian product, a component container is a [list Z]
    and an iterator into it a position. *)
Module Zip.

(** [ZipSizeFunctor]. *)
Definition initial_value : Z := size_max - 1.

Definition size_run (_ : nat) (curr_min : Z) (container : list Z) : Z :=
  Z.min curr_min (Z.of_nat (length container)).

(** [ZipIncrementFunctor::AnyTrue] and [ZipIncrementFunctor::Comparer]. *)
Definition AnyTrue (_ : nat) (val element : bool) : bool := val || element.

Definition Comparer (_ : nat) (lhs rhs : nat) : bool := (lhs =? rhs)%nat.

(** [ZipIncrementFunctor::run]: the new [value]. *)
Definition run (start last value : list nat) : list nat :=
  let value := map S value in
  let at_end := tuple_transform2 value last Comparer in
  let done := tuple_accumulate at_end AnyTrue false in
  if done then last else value.

End Zip.

(* ------------------------------------------------------------------ *)
(** ** static_string.hpp

    A [char] is its value, a [Z]; a string literal is the list of its
    characters before the terminating NUL. *)
Module StaticString.

Record t := Build { begin_ : list Z; size_ : nat }.

(** [StaticString(const char (&str)[Length])]: [size_] is [Length - 1],
    the number of characters before the NUL. *)
Definition make (str : list Z) : t := Build str (length str).

(** [operator[](unsigned i)]: the comparison loops pass their
    [std::size_t] index, which the parameter keeps modulo [2^32]; the
    character after the last is the NUL. *)
Definition at_ (s : t) (i : nat) : Z :=
  nth (Z.to_nat (to_unsigned (Z.of_nat i))) (begin_ s) 0.

Definition size (s : t) : nat := size_ s.

(** The [for] loop of [operator==], [turns] turns from index [i]. *)
Fixpoint eq_loop (turns i : nat) (s rhs : t) : bool :=
  match turns with
  | O => true
  | S turns' =>
      if negb (at_ s i =? at_ rhs i) then false
      else eq_loop turns' (S i) s rhs
  end.

Definition eq (s rhs : t) : bool :=
  if negb (size_ s =? size rhs)%nat then false
  else eq_loop (size_ s) 0 s rhs.

Definition ne (s rhs : t) : bool := negb (eq s rhs).

(** The [for] loop of [operator<]. *)
Fixpoint lt_loop (turns i : nat) (s rhs : t) (am_smaller : bool) : bool :=
  match turns with
  | O => am_smaller
  | S turns' =>
      let li := at_ s i in
      let ri := at_ rhs i in
      if li <? ri then true
      else if li >? ri then false
      else lt_loop turns' (S i) s rhs am_smaller
  end.

Definition lt (s rhs : t) : bool :=
  let am_smaller := (size s <? size rhs)%nat in
  let min_size := if am_smaller then size_ s else size rhs in
  lt_loop min_size 0 s rhs am_smaller.

Definition gt (s rhs : t) : bool := lt rhs s.
Definition le (s rhs : t) : bool := lt s rhs || eq s rhs.
Definition ge (s rhs : t) : bool := le rhs s.

End StaticString.

(* ------------------------------------------------------------------ *)
(** ** smart_enum.hpp *)
Module SmartEnum.

(** [SmartEnum<T>]: the enumerator declared with name [str] holds the
    [StaticString] of that name. *)
Record t := Build { value_ : StaticString.t }.

Definition make (str : list Z) : t := Build (StaticString.make str).

Definition eq (e rhs : t) : bool := StaticString.eq (value_ e) (value_ rhs).
Definition ne (e rhs : t) : bool := StaticString.ne (value_ e) (value_ rhs).
Definition lt (e rhs : t) : bool := StaticString.lt (value_ e) (value_ rhs).
Definition le (e rhs : t) : bool := StaticString.le (value_ e) (value_ rhs).
Definition gt (e rhs : t) : bool := StaticString.gt (value_ e) (value_ rhs).
Definition ge (e rhs : t) : bool := StaticString.ge (value_ e) (value_ rhs).

End SmartEnum.

(* ------------------------------------------------------------------ *)
(** ** case_insensitive_map.hpp

    A [std::string] is the list of its characters, each an
    [unsigned char] value. *)
Module CaseInsensitive.

(** [std::tolower] in the default "C" locale: the upper case letters
    [A]..[Z] (65..90) go to [a]..[z], every other character stays. *)
Definition tolower (c : Z) : Z :=
  if (65 <=? c) && (c <=? 90) then c + 32 else c.

(** [CaseInsensitiveLess_::LetterComparer_::operator()]. *)
Definition LetterComparer (c1 c2 : Z) : bool := tolower c1 <? tolower c2.

(** [std::lexicographical_compare(first1, last1, first2, last2, comp)]. *)
Fixpoint lexicographical_compare (comp : Z -> Z -> bool)
    (s1 s2 : list Z) : bool :=
  match s1, s2 with
  | x :: t1, y :: t2 =>
      if comp x y then true
      else if comp y x then false
      else lexicographical_compare comp t1 t2
  | [], _ :: _ => true
  | _, [] => false
  end.

(** [CaseInsensitiveLess_::operator()]. *)
Definition CaseInsensitiveLess (s1 s2 : list Z) : bool :=
  lexicographical_compare LetterComparer s1 s2.

End CaseInsensitive.

(* ------------------------------------------------------------------ *)
(** ** math_set.hpp, at [element_type = int]

    A [std::set<int>] is the list of its elements in the order its
    iterators visit them. *)
Module MathSet.

Record t := Build { elements_ : list Z }.

(** [std::set::insert]: nothing changes when the element is there. *)
Fixpoint set_insert (x : Z) (l : list Z) : list Z :=
  match l with
  | [] => [x]
  | y :: rest =>
      if x <? y then x :: l
      else if y <? x then y :: set_insert x rest
      else l
  end.

(** A [std::set] filled from a range, and a range written through
    [std::inserter] into an empty [std::set]. *)
Definition collect (range : list Z) : list Z :=
  fold_left (fun acc x => set_insert x acc) range [].

(** [std::set_intersection], [std::set_difference] and
    [std::set_symmetric_difference] on two sorted ranges: what is
    written to the output. *)
Fixpoint set_intersection (l1 l2 : list Z) {struct l1} : list Z :=
  match l1 with
  | [] => []
  | x :: t1 =>
      (fix inner (l2 : list Z) : list Z :=
         match l2 with
         | [] => []
         | y :: t2 =>
             if x <? y then set_intersection t1 l2
             else if y <? x then inner t2
             else x :: set_intersection t1 t2
         end) l2
  end.

Fixpoint set_difference (l1 l2 : list Z) {struct l1} : list Z :=
  match l1 with
  | [] => []
  | x :: t1 =>
      (fix inner (l2 : list Z) : list Z :=
         match l2 with
         | [] => l1
         | y :: t2 =>
             if x <? y then x :: set_difference t1 l2
             else if y <? x then inner t2
             else set_difference t1 t2
         end) l2
  end.

Fixpoint set_symmetric_difference (l1 l2 : list Z) {struct l1} : list Z :=
  match l1 with
  | [] => l2
  | x :: t1 =>
      (fix inner (l2 : list Z) : list Z :=
         match l2 with
         | [] => l1
         | y :: t2 =>
             if x <? y then x :: set_symmetric_difference t1 l2
             else if y <? x then y :: inner t2
             else set_symmetric_difference t1 t2
         end) l2
  end.

(** [MathSet()] and [MathSet(std::initializer_list)]. *)
Definition empty_set : t := Build [].
Definition of_list (il : list Z) : t := Build (collect il).

Definition insert (ei : Z) (s : t) : t := Build (set_insert ei (elements_ s)).

(** [count]: the number [std::set::count] returns, as a [bool]. *)
Definition count (ei : Z) (s : t) : bool := existsb (Z.eqb ei) (elements_ s).

Definition size (s : t) : Z := Z.of_nat (length (elements_ s)).

Definition empty (s : t) : bool :=
  match elements_ s with [] => true | _ :: _ => false end.

(** [union_assign]; the hint handed to [insert] has no bearing on the
    result. *)
Definition union_assign (s rhs : t) : t :=
  Build (fold_left (fun acc x => set_insert x acc) (elements_ rhs)
                   (elements_ s)).
Definition take_union (s rhs : t) : t := union_assign s rhs.

Definition intersection_assign (s rhs : t) : t :=
  Build (collect (set_intersection (elements_ s) (elements_ rhs))).
Definition intersection (s rhs : t) : t := intersection_assign s rhs.

Definition difference_assign (s rhs : t) : t :=
  Build (collect (set_difference (elements_ s) (elements_ rhs))).
Definition difference (s rhs : t) : t := difference_assign s rhs.

Definition symmetric_difference_assign (s rhs : t) : t :=
  Build (collect (set_symmetric_difference (elements_ s) (elements_ rhs))).
Definition symmetric_difference (s rhs : t) : t :=
  symmetric_difference_assign s rhs.

(** [operator<=], [operator<], [operator>=], [operator>], [operator==],
    [operator!=]. *)
Definition le (s rhs : t) : bool :=
  if size s >? size rhs then false
  else forallb (fun x => count x rhs) (elements_ s).

Definition lt (s rhs : t) : bool :=
  if size s >=? size rhs then false else le s rhs.

Definition gt (s rhs : t) : bool := lt rhs s.
Definition ge (s rhs : t) : bool := le rhs s.
Definition eq (s rhs : t) : bool := seq_eqb (elements_ s) (elements_ rhs).
Definition ne (s rhs : t) : bool := negb (eq s rhs).

End MathSet.

(* ================================================================== *)
(** * Notions used to state the properties *)

(** ** Orders on sequences *)

(** No element is [before] its successor: the sequence is the last
    arrangement in the order the step follows. *)
Definition last_arrangement {A : Type} (before : A -> A -> bool)
    (l : list A) : Prop :=
  Sorted (fun a b => before a b = false) l.

(** [l1 <= l2] lexicographically. *)
Fixpoint lex_leb (l1 l2 : list Z) : bool :=
  match l1, l2 with
  | [], _ => true
  | _ :: _, [] => false
  | x :: t1, y :: t2 => (x <? y) || ((x =? y) && lex_leb t1 t2)
  end.

(** [l] is the greatest (the least) of the arrangements of its elements. *)
Definition greatest (l : list Z) : Prop :=
  forall p, Permutation p l -> lex_leb p l = true.
Definition least (l : list Z) : Prop :=
  forall p, Permutation p l -> lex_leb l p = true.

Definition ascending (l : list Z) : Prop :=
  Sorted (fun a b => (b <? a) = false) l.
Definition descending (l : list Z) : Prop :=
  Sorted (fun a b => (a <? b) = false) l.

(** Strictly ascending. *)
Definition asc (l : list Z) : Prop := StronglySorted Z.lt l.

(** ** Ranks of arrangements of distinct elements *)

(** The factorial, in [Z]. *)
Fixpoint zfact (n : nat) : Z :=
  match n with
  | O => 1
  | S m => Z.of_nat n * zfact m
  end.

(** The digits of [D] in the factorial number system with [n] places. *)
Fixpoint fns_digits (n : nat) (D : Z) : list Z :=
  match n with
  | O => []
  | S m => D / zfact m :: fns_digits m (D mod zfact m)
  end.

(** The arrangement of rank [D] of the [n] elements of [s]: its first
    element is the one at position [D / (n-1)!]. *)
Fixpoint nth_perm (n : nat) (s : list Z) (D : Z) : list Z :=
  match n with
  | O => []
  | S m =>
      let g := Z.to_nat (D / zfact m) in
      nth g s 0 :: nth_perm m (without g s) (D mod zfact m)
  end.

(** The rank of the arrangement [p] of [s]: the position of its first
    element among those left, times the number of arrangements of the
    rest, plus the rank of the rest. *)
Fixpoint rank (p s : list Z) : Z :=
  match p with
  | [] => 0
  | x :: p' =>
      let '(g, s') := find_digit x 0 s in
      g * zfact (length p') + rank p' s'
  end.

(** The place values of [n] distinct elements. *)
Fixpoint places (n : nat) : list Z :=
  match n with
  | O => []
  | S m => zfact m :: places m
  end.

(** ** Traversals *)

(** The permutations dereferenced along [k] single increments from [a]. *)
Fixpoint trail {A : Type} `{Elem A} (k : nat) (a : PermutationItr.t A)
  : list (list A) :=
  match k with
  | O => []
  | S k' => PermutationItr.deref a :: trail k' (PermutationItr.incr a)
  end.

(** The arrangement [k] single increments after the sequence [s] of
    distinct elements: its rank is the rank of [s] plus [k], modulo the
    number of arrangements. *)
Definition arrangement_after (s : list Z) (k : nat) : list Z :=
  nth_perm (length s) (sort s)
           ((rank s (sort s) + Z.of_nat k) mod zfact (length s)).

(** The two round trips at rank [r] of original [s]. *)
Definition round_trips (fuel : nat) (s : list Z) (r : Z) : bool :=
  match decimal_to_permutation fuel r s with
  | None => false
  | Some p =>
      (permutation_to_decimal p s =? r)
      && match decimal_to_permutation fuel (permutation_to_decimal p s) s with
         | None => false
         | Some q => seq_eqb q p
         end
  end.

(** The product of the component sizes, as a mathematical integer. *)
Definition size_product (containers : list (list Z)) : Z :=
  fold_right Z.mul 1 (map (fun c => Z.of_nat (length c)) containers).

(** Whether, from the iterator [j] single steps after
    [PermutationItr(s, 0)], [advance] to the target rank [target]
    returns the iterator that single steps reach. *)
Definition advance_matches (fuel : nat) (s : list Z) (j target : Z) : bool :=
  let a := PermutationItr.step_by (PermutationItr.make s 0) j in
  let n := target - PermutationItr.dx_ a - j in
  match PermutationItr.advance fuel a n with
  | Some b => PermutationItr.equal b (PermutationItr.step_by a n)
  | None => false
  end.

(** The odometer of [CartesianProduct(xs, ys)] at positions [i] and [j]. *)
Definition odometer_at (xs ys : list Z) (i j : nat)
  : CartesianProduct.TupleItr :=
  CartesianProduct.Build [xs; ys] (CartesianProduct.begins [xs; ys])
                         (CartesianProduct.ends [xs; ys]) [i; j].

(** The pairs of row [i] from column [j] on. *)
Definition pairs_of_row (xs ys : list Z) (i j : nat) : list (list Z) :=
  map (fun y => [nth i xs 0; y]) (skipn j ys).

(** Where the odometer stands after the last column of row [i]. *)
Definition position_after_row (xs ys : list Z) (i : nat)
  : CartesianProduct.TupleItr :=
  if (S i <? length xs)%nat then odometer_at xs ys (S i) O
  else odometer_at xs ys (length xs) (length ys).

(** ** Coefficients *)

(** Pascal's triangle over the integers, without any bound. *)
Fixpoint pascal (n k : nat) : Z :=
  match k, n with
  | O, _ => 1
  | S _, O => 0
  | S k', S n' => pascal n' k' + pascal n' k
  end.

(** The sum of the counts and the product of their factorials. *)
Fixpoint total (ns : list nat) : nat :=
  match ns with
  | [] => O
  | n :: rest => (n + total rest)%nat
  end.

Fixpoint fact_product (ns : list nat) : Z :=
  match ns with
  | [] => 1
  | n :: rest => zfact n * fact_product rest
  end.

(** The sequence of [m_i] copies of each value [v_i], in order. *)
Fixpoint blocks (vs : list Z) (ms : list nat) : list Z :=
  match vs, ms with
  | v :: vs', m :: ms' => List.repeat v m ++ blocks vs' ms'
  | _, _ => []
  end.

(** ** Digits of the factorial number system *)

(** A number of the factorial number system: the digit with [m] digits
    after it is below [m + 1]. *)
Fixpoint fns_valid (fns : list Z) : Prop :=
  match fns with
  | [] => True
  | d :: rest => 0 <= d < Z.of_nat (S (length rest)) /\ fns_valid rest
  end.

(** ** Values of [int] *)

(** The values of [int]; on them the signed arithmetic of the code is
    exact. *)
Definition int_range (z : Z) : Prop := - 2 ^ 31 <= z < 2 ^ 31.

(** ** Combinations read off a mask *)

(** The elements of [set] at the positions where [mask] is [false]. *)
Fixpoint chosen (set : list Z) (mask : list bool) : list Z :=
  match set, mask with
  | x :: set', b :: mask' =>
      if b then chosen set' mask' else x :: chosen set' mask'
  | _, _ => []
  end.

(** Stars and bars: a [false] takes the current element of [set], a
    [true] moves on to the next element. *)
Fixpoint multichosen (set : list Z) (mask : list bool) : list Z :=
  match mask with
  | [] => []
  | true :: mask' => multichosen (tl set) mask'
  | false :: mask' =>
      match set with
      | [] => []
      | x :: _ => x :: multichosen set mask'
      end
  end.

(** [j] increments of a combination iterator; [None] when one of them
    indexes out of range. *)
Fixpoint increments {repeat : bool} (j : nat)
    (c : CombinationItr.t Z repeat) : option (CombinationItr.t Z repeat) :=
  match j with
  | O => Some c
  | S j' =>
      match CombinationItr.incr c with
      | Some c' => increments j' c'
      | None => None
      end
  end.

(** What the iterators reached without repeats hold. *)
Definition selection (s : list Z) (k : nat)
    (c : CombinationItr.t Z false) : Prop :=
  let mask := PermutationItr.set_ (CombinationItr.current_perm_ c) in
  CombinationItr.set_ c = s /\
  length mask = length s /\ count false mask = k /\
  CombinationItr.comb_ c = chosen s mask.

(** The same with repeats. *)
Definition multiselection (s : list Z) (k : nat)
    (c : CombinationItr.t Z true) : Prop :=
  let mask := PermutationItr.set_ (CombinationItr.current_perm_ c) in
  CombinationItr.set_ c = s /\
  (count true mask < length s)%nat /\ count false mask = k /\
  CombinationItr.comb_ c = multichosen s mask.

(** ** String literals and sets *)

(** A literal all of whose indices fit an [unsigned]. *)
Definition indexable (a : list Z) : Prop := Z.of_nat (length a) <= 2 ^ 32.

(** The invariant of a [MathSet]: the elements of a [std::set] are
    strictly ascending. *)
Definition well_formed (s : MathSet.t) : Prop := asc (MathSet.elements_ s).

(* ================================================================== *)
(** * Properties *)

(** ** Fuel *)

Section FuelFacts.
Context {I V : Type} `{Iterator I V}.

(** A traversal that finishes also finishes, with the same values, on any
    larger amount of fuel. *)
Lemma visit_more_fuel (fuel extra : nat) (it last : I) (vs : list V) :
  RangeContainer.visit fuel it last = Some vs ->
  RangeContainer.visit (fuel + extra) it last = Some vs.
Proof.
  revert it vs. induction fuel as [|fuel IH]; intros it vs; simpl.
  - discriminate.
  - destruct (are_equal it last); [auto|].
    destruct (increment it) as [it'|]; [|discriminate].
    destruct (RangeContainer.visit fuel it' last) as [r|] eqn:E; [|discriminate].
    rewrite (IH _ _ E). auto.
Qed.

Lemma visit_unfold (fuel : nat) (it last : I) :
  RangeContainer.visit (S fuel) it last =
  if are_equal it last then Some []
  else match increment it with
       | None => None
       | Some it' =>
           option_map (cons (dereference it)) (RangeContainer.visit fuel it' last)
       end.
Proof. reflexivity. Qed.

Lemma elements_more_fuel (fuel extra : nat) (c : RangeContainer.t I)
    (vs : list V) :
  RangeContainer.elements fuel c = Some vs ->
  RangeContainer.elements (fuel + extra) c = Some vs.
Proof. apply visit_more_fuel. Qed.

Lemma all_elements_more_fuel (fuel extra : nat)
    (b : built (RangeContainer.t I)) (vs : list V) :
  all_elements fuel b = Some vs -> all_elements (fuel + extra) b = Some vs.
Proof. destruct b; simpl; [apply elements_more_fuel | discriminate ..]. Qed.

End FuelFacts.

Section DigitsFuel.
Context {A : Type} `{Elem A}.

Lemma digits_loop_more_fuel (fuel extra : nat) (D : Z) (s : list A)
    (rv r : list Z) :
  digits_loop fuel D s rv = Some r ->
  digits_loop (fuel + extra) D s rv = Some r.
Proof.
  revert D s rv. induction fuel as [|fuel IH]; intros D s rv; simpl.
  - discriminate.
  - destruct s as [|x s']; [auto|].
    destruct (guess_loop _ _ _ _ _ _) as [[[d t] D']|]; apply IH.
Qed.

Lemma decimal_to_permutation_more_fuel (fuel extra : nat) (D : Z)
    (s p : list A) :
  decimal_to_permutation fuel D s = Some p ->
  decimal_to_permutation (fuel + extra) D s = Some p.
Proof.
  unfold decimal_to_permutation, decimal_to_fns.
  destruct (digits_loop fuel D (sort s) []) as [r|] eqn:E; [|discriminate].
  rewrite (digits_loop_more_fuel _ extra _ _ _ _ E). auto.
Qed.

(** When the inner loop of [decimal_to_fns] runs to its end without a
    [break], the outer loop never finishes. *)
Lemma digits_loop_diverges (D : Z) (x : A) (s : list A) (rv : list Z) :
  guess_loop (length (x :: s)) D (x :: s) 0 0 0 = None ->
  forall fuel, digits_loop fuel D (x :: s) rv = None.
Proof.
  intros E fuel. induction fuel as [|fuel IH]; [reflexivity|].
  cbn [digits_loop]. rewrite E. exact IH.
Qed.

End DigitsFuel.

(** ** Binomial coefficients *)

Section Binomial.

Lemma eval_zero (n : nat) : eval n 0 = Value 1.
Proof. destruct n; reflexivity. Qed.

Lemma eval_above (n k : nat) : (n < k)%nat -> eval n k = Value 0.
Proof.
  intros L. destruct k as [|k]; [lia|].
  destruct n as [|n]; cbn [eval].
  - destruct (Nat.ltb_spec0 0 (S k)); [reflexivity | lia].
  - destruct (Nat.ltb_spec0 (S n) (S k)); [reflexivity | lia].
Qed.

Lemma eval_large (n k : nat) :
  (64 <= n)%nat -> (0 < k <= n)%nat -> eval n k = Overflow.
Proof.
  intros L [K1 K2]. destruct k as [|k]; [lia|].
  destruct n as [|n]; [lia|]. cbn [eval].
  destruct (Nat.ltb_spec0 (S n) (S k)); [lia|].
  destruct (Z.ltb_spec0 (Z.of_nat (S n)) size_bits) as [B|B]; [|reflexivity].
  unfold size_bits in B. lia.
Qed.

(** Below the bit width Pascal's rule always returns. *)
Lemma eval_small (n : nat) :
  (n < 64)%nat -> forall k, exists v, eval n k = Value v.
Proof.
  induction n as [|n IH]; intros L k.
  - destruct k; cbn; eauto.
  - destruct k as [|k]; [cbn; eauto|]. cbn [eval].
    destruct (S n <? S k)%nat; [eauto|].
    destruct (Z.of_nat (S n) <? size_bits) eqn:B.
    + destruct (IH ltac:(lia) k) as [a ->].
      destruct (IH ltac:(lia) (S k)) as [b ->]. cbn. eauto.
    + apply Z.ltb_ge in B. unfold size_bits in B. lia.
Qed.

End Binomial.

(** C9.  Binomial edge cases: [binomial_coefficient n 0] is 1 for every
    [n], zero included; [binomial_coefficient n k] is 0 whenever [k > n];
    and [binomial_coefficient 35 4] is 52360. *)
Theorem binomial_edge_cases :
  (forall n : nat, binomial_coefficient n 0 = Value 1) /\
  (forall n k : nat, (k > n)%nat -> binomial_coefficient n k = Value 0) /\
  binomial_coefficient 35 4 = Value 52360.
Proof.
  split; [exact eval_zero|]. split.
  - intros n k L. apply eval_above. lia.
  - vm_compute. reflexivity.
Qed.

Lemma binomial_edge_cases_witness :
  (1 > 0)%nat /\ binomial_coefficient 0 1 = Value 0.
Proof.
  split; [lia|].
  apply (proj1 (proj2 binomial_edge_cases) 0%nat 1%nat). lia.
Defined.

(** C10.  The base cases of [binomial_coefficient] come before the
    overflow guard: at or above the bound ([n >= 64]) a call with
    [k = 0] still returns 1 and a call with [k > n] still returns 0; the
    overflow condition is raised exactly when [n >= 64] and
    [0 < k <= n]. *)
Theorem binomial_base_cases_precede_overflow :
  (forall n : nat, (64 <= n)%nat -> binomial_coefficient n 0 = Value 1) /\
  (forall n k : nat, (64 <= n)%nat -> (n < k)%nat ->
     binomial_coefficient n k = Value 0) /\
  (forall n k : nat,
     binomial_coefficient n k = Overflow <->
     (64 <= n)%nat /\ (0 < k <= n)%nat).
Proof.
  split; [intros n _; apply eval_zero|].
  split; [intros n k _ L; apply eval_above; exact L|].
  intros n k. unfold binomial_coefficient. split.
  - intros E.
    destruct (Nat.lt_ge_cases n 64) as [S|L].
    { destruct (eval_small n S k) as [v Ev]. congruence. }
    split; [exact L|].
    destruct k as [|k]; [rewrite eval_zero in E; discriminate|].
    destruct (Nat.lt_ge_cases n (S k)) as [Lt|Ge]; [|lia].
    rewrite (eval_above _ _ Lt) in E. discriminate.
  - intros [L K]. apply eval_large; assumption.
Qed.

Lemma binomial_base_cases_precede_overflow_witness :
  binomial_coefficient 64 0 = Value 1 /\
  binomial_coefficient 64 65 = Value 0 /\
  binomial_coefficient 64 1 = Overflow.
Proof.
  split; [apply (proj1 binomial_base_cases_precede_overflow); lia|].
  split; [apply (proj1 (proj2 binomial_base_cases_precede_overflow)); lia|].
  apply (proj2 (proj2 binomial_base_cases_precede_overflow)). lia.
Defined.

(** C6.  [binomial_coefficient] signals overflow, a result distinct from
    every returned value and so from 0, once [n] is at least the bit
    width of [std::size_t] (for the arguments [0 < k <= n] that reach the
    guard) and never below it; [binomial_coefficient 99999 88] fails with
    the overflow condition. *)
Theorem binomial_overflow_signalled :
  (forall n k : nat, (Z.of_nat n >= size_bits) -> (0 < k <= n)%nat ->
     binomial_coefficient n k = Overflow) /\
  (forall n k : nat, (Z.of_nat n < size_bits) ->
     binomial_coefficient n k <> Overflow) /\
  (forall v : Z, Overflow <> Value v) /\
  binomial_coefficient (Z.to_nat 99999) 88 = Overflow.
Proof.
  unfold size_bits. split; [|split; [|split]].
  - intros n k L K. apply eval_large; [lia|exact K].
  - intros n k L E. destruct (eval_small n ltac:(lia) k) as [v Ev].
    unfold binomial_coefficient in E. congruence.
  - discriminate.
  - apply eval_large; lia.
Qed.

Lemma binomial_overflow_signalled_witness :
  binomial_coefficient 64 32 = Overflow /\
  binomial_coefficient 63 31 <> Overflow.
Proof.
  split.
  - apply (proj1 binomial_overflow_signalled); unfold size_bits; lia.
  - apply (proj1 (proj2 binomial_overflow_signalled)); unfold size_bits; lia.
Defined.

(** ** Permutation iteration on the sequences of the test suite *)

(** C3.  Iterating a [PermutationItr] over {1,2,3} from offset 0 to
    offset 6 visits exactly the six permutations in lexicographic order;
    over the multiset {1,2,2} it visits exactly the three unique
    permutations, as many as [n_permutations] counts. *)
Theorem permutation_iteration_complete :
  let c123 := PermutationItr.Permutations [1; 2; 3] in
  let c122 := PermutationItr.Permutations [1; 2; 2] in
  RangeContainer.start_ c123 = PermutationItr.make [1; 2; 3] 0 /\
  RangeContainer.end_ c123 = PermutationItr.make [1; 2; 3] 6 /\
  (forall extra : nat,
     RangeContainer.elements (7 + extra) c123 =
     Some [[1; 2; 3]; [1; 3; 2]; [2; 1; 3]; [2; 3; 1]; [3; 1; 2]; [3; 2; 1]]) /\
  (forall extra : nat,
     RangeContainer.elements (4 + extra) c122 =
     Some [[1; 2; 2]; [2; 1; 2]; [2; 2; 1]]) /\
  n_permutations [1; 2; 3] = 6 /\
  n_permutations [1; 2; 2] = 3.
Proof.
  cbv zeta.
  split; [reflexivity|]. split; [vm_compute; reflexivity|].
  split; [intros extra; apply elements_more_fuel; vm_compute; reflexivity|].
  split; [intros extra; apply elements_more_fuel; vm_compute; reflexivity|].
  split; vm_compute; reflexivity.
Qed.

(** ** The factorial number system on the sequences of the test suite *)

(** On {1,2,3} and on {1,3,3,7}, the sequences of the test suite, both
    round trips hold at every rank. *)
Lemma round_trip_test_sequences :
  forallb (round_trips 4 [1; 2; 3]) [0; 1; 2; 3; 4; 5] = true /\
  forallb (round_trips 5 [1; 3; 3; 7])
          [0; 1; 2; 3; 4; 5; 6; 7; 8; 9; 10; 11] = true.
Proof. split; vm_compute; reflexivity. Qed.

(** C1.  The round trip of the factorial number system fails on a
    sequence with repeats: {1,1,2,2} has six unique permutations, rank 3
    decodes to {2,1,1,2}, and that permutation encodes to 2.  The place
    value [n_permutations(perm) / perm.size()] is 6 / 4, truncated to 1. *)
Theorem fns_round_trip_fails_on_repeats :
  n_permutations [1; 1; 2; 2] = 6 /\
  (forall extra : nat,
     decimal_to_permutation (5 + extra) 3 [1; 1; 2; 2] = Some [2; 1; 1; 2]) /\
  permutation_to_fns [2; 1; 1; 2] [1; 1; 2; 2] = [2; 0; 0; 0] /\
  fns_place_values [2; 1; 1; 2] = [1; 1; 1; 1] /\
  permutation_to_decimal [2; 1; 1; 2] [1; 1; 2; 2] = 2.
Proof.
  split; [vm_compute; reflexivity|].
  split; [|repeat split; vm_compute; reflexivity].
  intros extra. apply decimal_to_permutation_more_fuel. vm_compute. reflexivity.
Qed.

(** With an original that has repeats and is not sorted, two ranks decode
    to the same permutation. *)
Lemma fns_decode_not_injective_unsorted :
  n_permutations [2; 1; 2] = 3 /\
  decimal_to_permutation 4 1 [2; 1; 2] = Some [1; 2; 2] /\
  decimal_to_permutation 4 2 [2; 1; 2] = Some [1; 2; 2].
Proof. repeat split; vm_compute; reflexivity. Qed.

(** ** Combinations *)

(** The enumerations of the test suite: two out of {1,2,3} without
    repeats, two out of {1,2} with repeats, and none out of either. *)
Lemma combinations_test_sequences :
  (forall extra : nat,
     all_elements (4 + extra) (Combinations [1; 2; 3] 2) =
     Some [[1; 2]; [1; 3]; [2; 3]]) /\
  (forall extra : nat,
     all_elements (4 + extra) (CombinationsWithRepeat [1; 2] 2) =
     Some [[1; 1]; [1; 2]; [2; 2]]) /\
  (forall extra : nat,
     all_elements (2 + extra) (Combinations [1; 2; 3] 0) = Some [[]]) /\
  (forall extra : nat,
     all_elements (2 + extra) (CombinationsWithRepeat [1; 2] 0) = Some [[]]).
Proof.
  split; [|split; [|split]]; intros extra; apply all_elements_more_fuel;
    vm_compute; reflexivity.
Qed.

(** C7.  Choosing none out of a sequence of 63 elements: the container
    reports size 1, the count [binomial_coefficient] returns, but its
    first and last iterators are equal and the traversal visits nothing.
    The permutation count of the mask of 63 [true]s, computed by
    [multinomial_coefficient], wraps to 0 and becomes the offset of the
    last iterator. *)
Theorem combinations_none_of_63 :
  let s := List.repeat 7 63 in
  multinomial_coefficient [63] = 0 /\
  n_permutations (List.repeat true 63) = 0 /\
  exists c,
    Combinations s 0 = Built c /\
    RangeContainer.size c = 1 /\
    RangeContainer.empty c = true /\
    forall extra : nat, RangeContainer.elements (1 + extra) c = Some [].
Proof.
  cbv zeta. split; [vm_compute; reflexivity|].
  split; [vm_compute; reflexivity|].
  eexists. split; [vm_compute; reflexivity|].
  split; [reflexivity|]. split; [vm_compute; reflexivity|].
  intros extra. apply elements_more_fuel. vm_compute. reflexivity.
Qed.

(** The same happens with repeats allowed from 64 elements on. *)
Lemma combinations_with_repeat_none_of_64 :
  all_elements 1 (CombinationsWithRepeat (List.repeat 7 64) 0) = Some [].
Proof. vm_compute. reflexivity. Qed.

(** ** Range *)

Section RangeFacts.
Import Range.

Lemma to_size_t_small (z : Z) : 0 <= z < size_max -> to_size_t z = z.
Proof. intros B. unfold to_size_t. apply Z.mod_small. exact B. Qed.

(** From the [i]-th value on, the traversal visits the remaining values of
    the progression and stops at [stop]. *)
Lemma range_visit_from (start step : Z) (n : nat) :
  step <> 0 ->
  forall (m i : nat) (extra : nat) (s0 : Z),
    (i + m = n)%nat ->
    RangeContainer.visit (S m + extra)
      (Build s0 (start + Z.of_nat n * step) step (start + Z.of_nat i * step))
      (make (start + Z.of_nat n * step) (start + Z.of_nat n * step) step) =
    Some (map (fun j => start + Z.of_nat j * step) (seq i m)).
Proof.
  intros NZ. induction m as [|m IH]; intros i extra s0 E.
  - cbn. replace i with n by lia. rewrite Z.eqb_refl. reflexivity.
  - change (S (S m) + extra)%nat with (S (S m + extra)).
    rewrite visit_unfold.
    cbn [are_equal increment dereference iterator value_ make].
    destruct (Z.eqb_spec (start + Z.of_nat i * step)
                         (start + Z.of_nat n * step)) as [Eq|Ne].
    { exfalso. assert (Z.of_nat i <> Z.of_nat n) by lia. nia. }
    cbn [option_map seq map].
    unfold advance at 1. cbn [start_ stop_ increment_ value_].
    replace (if step >? 0
             then start + Z.of_nat i * step + step
             else start + Z.of_nat i * step - -1 * step)
      with (start + Z.of_nat (S i) * step)
      by (destruct (step >? 0); lia).
    rewrite (IH (S i) extra s0 ltac:(lia)). reflexivity.
Qed.

End RangeFacts.

(** C5, amended.  For every [Range(start, stop, step)] of [int]s that
    lie less than [2^31] apart (so that their difference is an [int]),
    with a [long] step other than 0 and [LONG_MIN], whose [stop] is
    reached from [start] by a whole number [n >= 0] of steps (the
    assumption the constructor documents), [size()] is [n], which is
    also the ceiling of [(stop - start) / step], and a traversal visits
    exactly the [n] values [start, start + step, ...].  [Range(1,7,2)]
    has size 3 and yields 1,3,5; [Range(8,2,-2)] yields 8,6,4. *)
Theorem range_size_whole_steps :
  (forall start stop step n : Z,
     - 2 ^ 31 <= start < 2 ^ 31 -> - 2 ^ 31 <= stop < 2 ^ 31 ->
     - 2 ^ 31 < stop - start < 2 ^ 31 -> - 2 ^ 63 < step < 2 ^ 63 ->
     step <> 0 -> 0 <= n -> start + n * step = stop ->
     RangeContainer.size (Range.Range start stop step) = n /\
     Range.ceil_div (stop - start) step = n /\
     forall extra : nat,
       RangeContainer.elements (S (Z.to_nat n) + extra)
                               (Range.Range start stop step) =
       Some (map (fun j => start + Z.of_nat j * step) (seq 0 (Z.to_nat n)))) /\
  RangeContainer.size (Range.Range 1 7 2) = 3 /\
  (forall extra : nat,
     RangeContainer.elements (4 + extra) (Range.Range 1 7 2) = Some [1; 3; 5]) /\
  (forall extra : nat,
     RangeContainer.elements (4 + extra) (Range.Range 8 2 (-2)) =
     Some [8; 6; 4]).
Proof.
  split.
  - intros start stop step n Bs Bt Bd Bi NZ Pos E.
    assert (Int : forall z, - 2 ^ 31 <= z < 2 ^ 31 -> to_int z = z).
    { intros z Bz. unfold to_int. rewrite Z.mod_small by lia. lia. }
    assert (Long : to_long (-1 * step) = -1 * step).
    { unfold to_long. rewrite Z.mod_small by lia. lia. }
    assert (Small : 0 <= n < size_max).
    { unfold size_max. split; [exact Pos|].
      assert (Z.abs (n * step) < 2 ^ 32) by lia.
      assert (n <= Z.abs (n * step)) by (rewrite Z.abs_mul; nia). lia. }
    split; [|split].
    + unfold RangeContainer.size, Range.Range, Range.RangeImpl.
      cbn [RangeContainer.size_].
      rewrite Long, !Int by lia.
      destruct (stop >? start).
      * replace (stop - start) with (n * step) by lia.
        rewrite Z.quot_mul by exact NZ. apply to_size_t_small, Small.
      * replace (start - stop) with (n * (-1 * step)) by lia.
        rewrite Z.quot_mul by lia. apply to_size_t_small, Small.
    + unfold Range.ceil_div.
      replace (- (stop - start)) with (- n * step) by lia.
      rewrite Z.div_mul by exact NZ. lia.
    + intros extra. unfold RangeContainer.elements, Range.Range, Range.RangeImpl.
      cbn [RangeContainer.start_ RangeContainer.end_].
      subst stop. unfold Range.make at 1.
      pose proof (range_visit_from start step (Z.to_nat n) NZ
                    (Z.to_nat n) 0 extra start eq_refl) as V.
      rewrite Z2Nat.id in V by exact Pos.
      replace (start + Z.of_nat 0 * step) with start in V by lia.
      exact V.
  - split; [reflexivity|].
    split; intros extra; apply elements_more_fuel; vm_compute; reflexivity.
Qed.

Lemma range_size_whole_steps_witness :
  RangeContainer.size (Range.Range 10 (-5) (-3)) = 5 /\
  Range.ceil_div (-5 - 10) (-3) = 5.
Proof.
  destruct (proj1 range_size_whole_steps 10 (-5) (-3) 5) as (S & C & _);
    [lia .. | split; [exact S | exact C]].
Defined.

(** C5 as stated fails when the step does not divide the distance:
    [Range(1,8,2)] has size 3, the quotient truncated, while the ceiling
    of 7/2 is 4; when the step points away from [stop], the size of
    [Range(1,7,-2)] is -3 converted to [std::size_t]; and when [start]
    and [stop] lie [2^31] or more apart, their difference is not an
    [int]: with the two's complement result of the subtraction,
    [Range(-2000000000, 2000000000, 1000000000)] has size 0, not 4. *)
Lemma range_size_not_ceiling :
  RangeContainer.size (Range.Range 1 8 2) = 3 /\
  Range.ceil_div (8 - 1) 2 = 4 /\
  RangeContainer.size (Range.Range 1 8 2) <> Range.ceil_div (8 - 1) 2 /\
  RangeContainer.size (Range.Range 1 7 (-2)) <> Range.ceil_div (7 - 1) (-2) /\
  RangeContainer.size (Range.Range (-2000000000) 2000000000 1000000000) = 0 /\
  Range.ceil_div (2000000000 - -2000000000) 1000000000 = 4.
Proof. repeat split; vm_compute; congruence. Qed.

(** ** Cartesian product *)

Section CartesianFacts.
Import CartesianProduct.

Lemma size_product_nonneg (cs : list (list Z)) : 0 <= size_product cs.
Proof.
  induction cs as [|c cs IH]; unfold size_product in *; cbn; [lia|].
  apply Z.mul_nonneg_nonneg; [lia | exact IH].
Qed.

Lemma size_product_empty_component (cs : list (list Z)) :
  In [] cs -> size_product cs = 0.
Proof.
  induction cs as [|c cs IH]; intros M; [destruct M|].
  unfold size_product in *. cbn [map fold_right].
  destruct M as [->|M]; [reflexivity|]. rewrite (IH M). lia.
Qed.

Lemma accumulate_size (cs : list (list Z)) :
  forall (I : nat) (acc : Z),
    tuple_accumulate_impl size_run I cs (to_size_t acc) =
    to_size_t (acc * size_product cs).
Proof.
  induction cs as [|c cs IH]; intros I acc.
  - cbn. unfold size_product. cbn. f_equal. lia.
  - cbn [tuple_accumulate_impl]. unfold size_run at 2.
    rewrite IH. unfold size_product. cbn [map fold_right].
    rewrite <- Z.mul_assoc. unfold to_size_t.
    rewrite Z.mul_mod_idemp_l by (unfold size_max; lia). reflexivity.
Qed.

Lemma cartesian_size (cs : list (list Z)) :
  cs <> [] -> size cs = to_size_t (size_product cs).
Proof.
  destruct cs as [|c cs]; [congruence|]. intros _.
  unfold size, tuple_accumulate, initial_value.
  change 1 with (to_size_t 1) at 1.
  rewrite accumulate_size. f_equal. lia.
Qed.

End CartesianFacts.

(** ** The odometer over two containers *)

Section Odometer.
Import CartesianProduct.

Variables xs ys : list Z.

Local Abbreviation start := (begins [xs; ys]).
Local Abbreviation last := (ends [xs; ys]).
Local Abbreviation at_ := (odometer_at xs ys).
Local Abbreviation row_from := (pairs_of_row xs ys).
Local Abbreviation after_row := (position_after_row xs ys).

(** Decides the comparisons of positions left in the goal. *)
Ltac decide_positions :=
  repeat match goal with
         | |- context [(?a =? ?b)%nat] =>
             is_var a; destruct (Nat.eqb_spec a b); try lia; cbn
         end.

Lemma run_inner (i j : nat) :
  (i < length xs)%nat -> (S j < length ys)%nat ->
  run start last [i; j] = Some [i; S j].
Proof.
  unfold run, begins, ends. cbn [map].
  destruct (length xs) as [|lx], (length ys) as [|ly]; intros Li Lj;
    try lia.
  cbn. unfold AtEnd. cbn. decide_positions. reflexivity.
Qed.

Lemma run_carry (i j : nat) :
  (S i < length xs)%nat -> S j = length ys ->
  run start last [i; j] = Some [S i; O].
Proof.
  unfold run, begins, ends. cbn [map].
  destruct (length xs) as [|lx], (length ys) as [|ly]; intros Li Lj;
    try lia.
  cbn. unfold AtEnd. cbn. decide_positions. reflexivity.
Qed.

Lemma run_finish (i j : nat) :
  S i = length xs -> S j = length ys ->
  run start last [i; j] = Some [length xs; length ys].
Proof.
  unfold run, begins, ends. cbn [map].
  destruct (length xs) as [|lx], (length ys) as [|ly]; intros Li Lj;
    try lia.
  cbn. unfold AtEnd. cbn. decide_positions. f_equal. f_equal; [|f_equal]; lia.
Qed.

Lemma not_at_end (i j : nat) :
  (i < length xs)%nat ->
  are_equal (at_ i j) (at_ (length xs) (length ys)) = false.
Proof.
  intros Li. unfold odometer_at. cbn [are_equal iterator value_].
  destruct (list_eq_dec Nat.eq_dec [i; j] [length xs; length ys]) as [E|N];
    [injection E; lia | reflexivity].
Qed.

Lemma skipn_cons_nth (j : nat) :
  (j < length ys)%nat -> skipn j ys = nth j ys 0 :: skipn (S j) ys.
Proof.
  revert j. induction ys as [|y t IH]; intros j L; [cbn in L; lia|].
  destruct j; [reflexivity|]. cbn. apply IH. cbn in L. lia.
Qed.

Lemma incr_at (i j : nat) :
  increment (at_ i j) =
  option_map (Build [xs; ys] start last) (run start last [i; j]).
Proof. reflexivity. Qed.

Lemma visit_row (i : nat) :
  (i < length xs)%nat ->
  forall k j fuel, (j + k = length ys)%nat -> (1 <= k)%nat ->
    RangeContainer.visit (k + fuel) (at_ i j) (at_ (length xs) (length ys)) =
    option_map (app (row_from i j))
      (RangeContainer.visit fuel (after_row i) (at_ (length xs) (length ys))).
Proof.
  intros Li. induction k as [|k IH]; intros j fuel E K; [lia|].
  change (S k + fuel)%nat with (S (k + fuel)).
  rewrite visit_unfold, (not_at_end i j Li), incr_at.
  unfold pairs_of_row. rewrite (skipn_cons_nth j) by lia.
  change (dereference (at_ i j)) with [nth i xs 0; nth j ys 0].
  destruct k as [|k].
  - (* the last column of the row *)
    assert (Ej : S j = length ys) by lia.
    assert (Es : skipn (S j) ys = []) by (rewrite Ej; apply skipn_all).
    rewrite Es. cbn [map app Nat.add].
    unfold position_after_row.
    destruct (Nat.ltb_spec (S i) (length xs)) as [Lt|Ge].
    + rewrite (run_carry i j Lt Ej). reflexivity.
    + rewrite (run_finish i j ltac:(lia) Ej). reflexivity.
  - rewrite (run_inner i j Li ltac:(lia)). cbn [option_map].
    change (Build [xs; ys] start last [i; S j]) with (at_ i (S j)).
    rewrite (IH (S j) fuel ltac:(lia) ltac:(lia)).
    unfold pairs_of_row.
    destruct (RangeContainer.visit fuel _ _); reflexivity.
Qed.

Lemma visit_rows (more : nat) :
  (1 <= length ys)%nat ->
  forall m i, (i + m = length xs)%nat -> (1 <= m)%nat ->
    RangeContainer.visit (m * length ys + S more) (at_ i O)
                         (at_ (length xs) (length ys)) =
    Some (flat_map (fun x => map (fun y => [x; y]) ys) (skipn i xs)).
Proof.
  intros Ly. induction m as [|m IH]; intros i E M; [lia|].
  replace (S m * length ys + S more)%nat
    with (length ys + (m * length ys + S more))%nat by lia.
  rewrite (visit_row i ltac:(lia) (length ys) O _ eq_refl Ly).
  assert (Ex : skipn i xs = nth i xs 0 :: skipn (S i) xs).
  { clear - E. revert i E. induction xs as [|x t IHx]; intros i E;
      [cbn in E; lia|].
    destruct i; [reflexivity|]. cbn. apply IHx. cbn in E. lia. }
  rewrite Ex. cbn [flat_map]. unfold pairs_of_row, position_after_row.
  change (skipn O ys) with ys.
  destruct m as [|m].
  - assert (Ei : S i = length xs) by lia.
    destruct (Nat.ltb_spec (S i) (length xs)); [lia|].
    assert (Es : skipn (S i) xs = []) by (rewrite Ei; apply skipn_all).
    rewrite Es. cbn [flat_map Nat.mul Nat.add].
    rewrite visit_unfold. unfold odometer_at. cbn [are_equal iterator value_].
    destruct (list_eq_dec Nat.eq_dec _ _) as [_|N]; [|congruence].
    reflexivity.
  - destruct (Nat.ltb_spec (S i) (length xs)); [|lia].
    rewrite (IH (S i) ltac:(lia) ltac:(lia)). reflexivity.
Qed.

(** Over two non-empty containers the traversal yields every pair, in
    lexicographic order of positions, the first container varying
    slowest. *)
Lemma cartesian_pairs_in_order (extra : nat) :
  xs <> [] -> ys <> [] ->
  RangeContainer.elements (length xs * length ys + S extra)
                          (CartesianProduct [xs; ys]) =
  Some (flat_map (fun x => map (fun y => [x; y]) ys) xs).
Proof.
  intros Nx Ny.
  assert (Lx : (1 <= length xs)%nat) by (destruct xs; [congruence | cbn; lia]).
  assert (Ly : (1 <= length ys)%nat) by (destruct ys; [congruence | cbn; lia]).
  exact (visit_rows extra Ly (length xs) O eq_refl Lx).
Qed.

End Odometer.

(** C8, amended.  For at least one component container, [size()] of a
    [CartesianProduct] is the product of the component sizes in
    [std::size_t] arithmetic: the product itself whenever it fits, and 0
    when a component is empty.  Over two non-empty containers the
    traversal yields every ordered pair in lexicographic order, the first
    (leftmost) container varying slowest, by carrying from right to left.
    [CartesianProduct([1,2,3],[1,3])] has size 6 and yields its six
    pairs in that order. *)
Theorem cartesian_product_size_and_order :
  (forall cs : list (list Z), cs <> [] ->
     RangeContainer.size (CartesianProduct.CartesianProduct cs) =
     to_size_t (size_product cs)) /\
  (forall cs : list (list Z), cs <> [] -> size_product cs < size_max ->
     RangeContainer.size (CartesianProduct.CartesianProduct cs) =
     size_product cs) /\
  (forall cs : list (list Z), In [] cs ->
     RangeContainer.size (CartesianProduct.CartesianProduct cs) = 0) /\
  (forall (xs ys : list Z) (extra : nat), xs <> [] -> ys <> [] ->
     RangeContainer.elements (length xs * length ys + S extra)
                             (CartesianProduct.CartesianProduct [xs; ys]) =
     Some (flat_map (fun x => map (fun y => [x; y]) ys) xs)) /\
  RangeContainer.size (CartesianProduct.CartesianProduct [[1; 2; 3]; [1; 3]]) = 6 /\
  (forall extra : nat,
     RangeContainer.elements (7 + extra)
       (CartesianProduct.CartesianProduct [[1; 2; 3]; [1; 3]]) =
     Some [[1; 1]; [1; 3]; [2; 1]; [2; 3]; [3; 1]; [3; 3]]).
Proof.
  split; [exact cartesian_size|]. split; [|split; [|split; [|split]]].
  - intros cs NE B. unfold RangeContainer.size. cbn.
    rewrite (cartesian_size cs NE). apply to_size_t_small.
    split; [apply size_product_nonneg | exact B].
  - intros cs M. unfold RangeContainer.size. cbn.
    rewrite cartesian_size by (intros ->; destruct M).
    rewrite (size_product_empty_component cs M). reflexivity.
  - intros xs ys extra. apply cartesian_pairs_in_order.
  - reflexivity.
  - intros extra. apply elements_more_fuel. vm_compute. reflexivity.
Qed.

Lemma cartesian_product_size_and_order_witness :
  RangeContainer.size (CartesianProduct.CartesianProduct [[4; 5]; [6; 7; 8]]) = 6 /\
  RangeContainer.size (CartesianProduct.CartesianProduct [[4; 5]; []]) = 0 /\
  RangeContainer.elements 5 (CartesianProduct.CartesianProduct [[4; 5]; [6; 7]]) =
  Some [[4; 6]; [4; 7]; [5; 6]; [5; 7]].
Proof.
  split; [|split].
  - rewrite (proj1 (proj2 cartesian_product_size_and_order) [[4; 5]; [6; 7; 8]]);
      [reflexivity | discriminate | vm_compute; reflexivity].
  - apply (proj1 (proj2 (proj2 cartesian_product_size_and_order))).
    simpl. auto.
  - apply (proj1 (proj2 (proj2 (proj2 cartesian_product_size_and_order)))
             [4; 5] [6; 7] 0%nat); discriminate.
Defined.

(** C8 as stated fails when the product does not fit a [std::size_t]:
    over four containers of 2^16 = 65536 elements each, none of them
    empty, the product of the sizes is 2^64 while [size()] is 0. *)
Lemma cartesian_product_size_wraps :
  let c := List.repeat 0 (2 ^ 16)%nat in
  size_product [c; c; c; c] = 2 ^ 64 /\
  RangeContainer.size (CartesianProduct.CartesianProduct [c; c; c; c]) = 0 /\
  RangeContainer.size (CartesianProduct.CartesianProduct [c; c; c; c])
  <> size_product [c; c; c; c].
Proof.
  cbv zeta.
  set (c := List.repeat 0 (2 ^ 16)%nat).
  assert (P : size_product [c; c; c; c] = 2 ^ 64).
  { unfold size_product, c. cbn [map fold_right]. rewrite !repeat_length.
    vm_compute. reflexivity. }
  assert (S0 : RangeContainer.size
                 (CartesianProduct.CartesianProduct [c; c; c; c]) = 0).
  { change (RangeContainer.size (CartesianProduct.CartesianProduct ?cs))
      with (CartesianProduct.size cs).
    rewrite cartesian_size by discriminate. rewrite P. reflexivity. }
  split; [exact P|]. split; [exact S0|]. rewrite S0, P. discriminate.
Qed.

(** ** The permutation step *)

Section ScanFacts.
Context {A : Type}.
Variable before : A -> A -> bool.

Lemma step_as_scan (l : list A) (x : A) :
  permutation_step before (l ++ [x]) = permutation_scan before (rev l) [x].
Proof.
  unfold permutation_step. rewrite rev_app_distr. cbn [rev app].
  destruct (rev l) as [|y r] eqn:E; [|reflexivity].
  apply (f_equal (@rev A)) in E. rewrite rev_involutive in E. subst l.
  reflexivity.
Qed.

(** Scanning a longer prefix: either the scan stops inside the nearer
    part, or it runs through it and goes on in the farther part. *)
Lemma scan_app (rpre extra : list A) :
  forall suf, suf <> [] ->
    permutation_scan before (rpre ++ extra) suf =
    match permutation_scan before rpre suf with
    | (q, true) => (rev extra ++ q, true)
    | (_, false) => permutation_scan before extra (rev rpre ++ suf)
    end.
Proof.
  induction rpre as [|i r IH]; intros suf NE.
  - reflexivity.
  - destruct suf as [|ii suf']; [congruence|].
    cbn [app permutation_scan].
    destruct (before i ii).
    + destruct (swap_pivot before i (rev (ii :: suf'))) as [j tl].
      rewrite rev_app_distr, <- app_assoc. reflexivity.
    + rewrite IH by discriminate. cbn [rev]. rewrite <- app_assoc. reflexivity.
Qed.

Lemma sorted_middle {R : A -> A -> Prop} (l1 l2 : list A) (a b : A) :
  Sorted R (l1 ++ a :: b :: l2) -> R a b.
Proof.
  induction l1 as [|x l1 IH]; cbn; intros S.
  - inversion S as [|? ? _ Hd]; subst. inversion Hd; subst. assumption.
  - inversion S; subst. auto.
Qed.

Lemma scan_last (rpre : list A) :
  forall suf, last_arrangement before (rev rpre ++ suf) ->
    permutation_scan before rpre suf = (rev (rev rpre ++ suf), false).
Proof.
  induction rpre as [|i r IH]; intros suf S.
  - reflexivity.
  - cbn [permutation_scan]. destruct suf as [|ii suf'].
    + rewrite app_nil_r, rev_involutive. reflexivity.
    + cbn [rev] in S. rewrite <- app_assoc in S. cbn [app] in S.
      rewrite (sorted_middle _ _ _ _ S).
      rewrite IH by exact S. cbn [rev]. rewrite <- app_assoc. reflexivity.
Qed.

(** On the last arrangement the step reverses the whole sequence and
    returns [false]. *)
Lemma step_last (l : list A) :
  last_arrangement before l -> permutation_step before l = (rev l, false).
Proof.
  intros S. destruct (rev l) as [|x r] eqn:E.
  - apply (f_equal (@rev A)) in E. rewrite rev_involutive in E. subst l.
    reflexivity.
  - apply (f_equal (@rev A)) in E. rewrite rev_involutive in E. cbn in E.
    subst l. rewrite step_as_scan, rev_involutive, scan_last by exact S.
    rewrite rev_app_distr, rev_involutive. reflexivity.
Qed.

End ScanFacts.

(** ** Lexicographic order on sequences of integers *)

Section LexFacts.

Lemma lex_leb_cons (x : Z) (l1 l2 : list Z) :
  lex_leb (x :: l1) (x :: l2) = lex_leb l1 l2.
Proof. cbn. rewrite Z.ltb_irrefl, Z.eqb_refl. reflexivity. Qed.

Lemma greatest_descending (l : list Z) : greatest l -> descending l.
Proof.
  induction l as [|x t IH]; intros G; [constructor|].
  constructor.
  - apply IH. intros p P. rewrite <- (lex_leb_cons x). apply G.
    constructor. exact P.
  - destruct t as [|y t']; constructor.
    destruct (Z.ltb_spec x y) as [L|]; [|reflexivity].
    specialize (G (y :: x :: t') (perm_swap x y t')). cbn in G.
    destruct (Z.ltb_spec y x); [lia|]. destruct (Z.eqb_spec y x); [lia|].
    discriminate.
Qed.

Lemma least_ascending (l : list Z) : least l -> ascending l.
Proof.
  induction l as [|x t IH]; intros G; [constructor|].
  constructor.
  - apply IH. intros p P. rewrite <- (lex_leb_cons x). apply G.
    constructor. exact P.
  - destruct t as [|y t']; constructor.
    destruct (Z.ltb_spec y x) as [L|]; [|reflexivity].
    specialize (G (y :: x :: t') (perm_swap x y t')). cbn in G.
    destruct (Z.ltb_spec x y); [lia|]. destruct (Z.eqb_spec x y); [lia|].
    discriminate.
Qed.

Lemma ascending_bounds (x : Z) (t : list Z) :
  ascending (x :: t) -> Forall (fun y => x <= y) t.
Proof.
  intros S. apply Sorted_StronglySorted in S.
  - inversion S as [|? ? _ F]; subst.
    eapply Forall_impl; [|exact F]. cbn. intros a E.
    apply Z.ltb_ge in E. exact E.
  - intros a b c E1 E2. apply Z.ltb_ge in E1, E2. apply Z.ltb_ge. lia.
Qed.

Lemma descending_bounds (x : Z) (t : list Z) :
  descending (x :: t) -> Forall (fun y => y <= x) t.
Proof.
  intros S. apply Sorted_StronglySorted in S.
  - inversion S as [|? ? _ F]; subst.
    eapply Forall_impl; [|exact F]. cbn. intros a E.
    apply Z.ltb_ge in E. exact E.
  - intros a b c E1 E2. apply Z.ltb_ge in E1, E2. apply Z.ltb_ge. lia.
Qed.

Lemma ascending_least (l : list Z) : ascending l -> least l.
Proof.
  induction l as [|x t IH]; intros S p P; [reflexivity|].
  destruct p as [|y p'].
  { apply Permutation_length in P. discriminate. }
  pose proof (ascending_bounds _ _ S) as B.
  assert (In y (x :: t)) as [->|M]
    by (eapply Permutation_in; [exact P | left; reflexivity]).
  - rewrite lex_leb_cons. apply IH; [inversion S; assumption|].
    eapply Permutation_cons_inv. exact P.
  - rewrite Forall_forall in B. specialize (B y M). cbn.
    destruct (Z.ltb_spec x y); [reflexivity|].
    assert (x = y) by lia. subst y. rewrite Z.eqb_refl. cbn.
    apply IH; [inversion S; assumption|].
    eapply Permutation_cons_inv. exact P.
Qed.

Lemma descending_greatest (l : list Z) : descending l -> greatest l.
Proof.
  induction l as [|x t IH]; intros S p P.
  { apply Permutation_sym, Permutation_nil in P. subst. reflexivity. }
  destruct p as [|y p'].
  { reflexivity. }
  pose proof (descending_bounds _ _ S) as B.
  assert (In y (x :: t)) as [->|M]
    by (eapply Permutation_in; [exact P | left; reflexivity]).
  - rewrite lex_leb_cons. apply IH; [inversion S; assumption|].
    eapply Permutation_cons_inv. exact P.
  - rewrite Forall_forall in B. specialize (B y M). cbn.
    destruct (Z.ltb_spec y x); [reflexivity|].
    assert (x = y) by lia. subst y. rewrite Z.eqb_refl. cbn.
    apply IH; [inversion S; assumption|].
    eapply Permutation_cons_inv. exact P.
Qed.

Lemma sorted_rev {R : Z -> Z -> Prop} (l : list Z) :
  Sorted R l -> Sorted (fun a b => R b a) (rev l).
Proof.
  induction l as [|x t IH]; intros S; [constructor|].
  inversion S as [|? ? St Hd]; subst. cbn [rev].
  specialize (IH St). clear S St.
  assert (G : forall r, Sorted (fun a b => R b a) r ->
              match rev r with [] => True | y :: _ => R x y end ->
              Sorted (fun a b => R b a) (r ++ [x])).
  { induction r as [|a r IHr]; intros Sr Hr; [repeat constructor|].
    inversion Sr as [|? ? Sr' Hd']; subst. cbn [app]. constructor.
    - apply IHr; [exact Sr'|]. cbn [rev] in Hr.
      destruct (rev r); [exact I|exact Hr].
    - destruct r as [|b r]; cbn [app]; constructor.
      + exact Hr.
      + inversion Hd'; assumption. }
  apply G; [exact IH|]. rewrite rev_involutive.
  destruct t; [exact I|]. inversion Hd; assumption.
Qed.

(** Incrementing the greatest arrangement yields the least one. *)
Lemma next_permutation_wraps (l : list Z) :
  greatest l ->
  next_permutation l = (rev l, false) /\
  Permutation (rev l) l /\ least (rev l).
Proof.
  intros G. pose proof (greatest_descending l G) as D.
  split; [apply (step_last Z.ltb); exact D|].
  split; [symmetry; apply Permutation_rev|].
  apply ascending_least. apply (sorted_rev l D).
Qed.

(** Decrementing the least arrangement yields the greatest one. *)
Lemma prev_permutation_wraps (l : list Z) :
  least l ->
  prev_permutation l = (rev l, false) /\
  Permutation (rev l) l /\ greatest (rev l).
Proof.
  intros G. pose proof (least_ascending l G) as D.
  split; [apply (step_last (fun a b => Z.ltb b a)); exact D|].
  split; [symmetry; apply Permutation_rev|].
  apply descending_greatest. apply (sorted_rev l D).
Qed.

End LexFacts.

Lemma permutations_of_132 (p : list Z) :
  Permutation p [1; 3; 2] ->
  In p [[1; 3; 2]; [2; 1; 3]; [2; 3; 1]; [3; 1; 2]; [3; 2; 1]; [1; 2; 3]].
Proof.
  intros P. pose proof (Permutation_length P) as L.
  destruct p as [|a [|b [|c [|d p]]]]; try discriminate L.
  assert (Ia : In a [1; 3; 2])
    by (eapply Permutation_in; [exact P | cbn; auto]).
  assert (Ib : In b [1; 3; 2])
    by (eapply Permutation_in; [exact P | cbn; auto]).
  assert (Ic : In c [1; 3; 2])
    by (eapply Permutation_in; [exact P | cbn; auto]).
  assert (N : NoDup [a; b; c]).
  { eapply Permutation_NoDup; [symmetry; exact P|].
    repeat constructor; cbn; intuition lia. }
  inversion N as [|? ? Na N']; subst. inversion N' as [|? ? Nb _]; subst.
  cbn in Ia, Ib, Ic, Na, Nb.
  destruct Ia as [<-|[<-|[<-|[]]]]; destruct Ib as [<-|[<-|[<-|[]]]];
    destruct Ic as [<-|[<-|[<-|[]]]];
    try (exfalso; tauto); cbn; tauto.
Qed.

(** C4.  Incrementing a [PermutationItr] that stands at the
    lexicographically greatest arrangement yields the least one, and
    decrementing one that stands at the least yields the greatest; so do
    [std::next_permutation] and [std::prev_permutation], which the two
    steps call.  A [PermutationItr] started at {1,3,2} and stepped six
    times passes through {1,3,2},{2,1,3},{2,3,1},{3,1,2},{3,2,1},{1,2,3},
    which are all the permutations of {1,2,3}, each once, and its
    sequence is {1,3,2} again after the sixth step; six decrements visit
    the same arrangements in the opposite order and return to {1,3,2}
    as well. *)
Theorem wraparound_from_non_minimal_start :
  (forall l : list Z, greatest l ->
     Permutation (fst (next_permutation l)) l /\
     least (fst (next_permutation l))) /\
  (forall l : list Z, least l ->
     Permutation (fst (prev_permutation l)) l /\
     greatest (fst (prev_permutation l))) /\
  (forall a : PermutationItr.t Z, greatest (PermutationItr.deref a) ->
     Permutation (PermutationItr.deref (PermutationItr.incr a))
                 (PermutationItr.deref a) /\
     least (PermutationItr.deref (PermutationItr.incr a))) /\
  (forall a : PermutationItr.t Z, least (PermutationItr.deref a) ->
     Permutation (PermutationItr.deref (PermutationItr.decr a))
                 (PermutationItr.deref a) /\
     greatest (PermutationItr.deref (PermutationItr.decr a))) /\
  let a := PermutationItr.make [1; 3; 2] 0 in
  let visited :=
    [[1; 3; 2]; [2; 1; 3]; [2; 3; 1]; [3; 1; 2]; [3; 2; 1]; [1; 2; 3]] in
  trail 6 a = visited /\
  PermutationItr.deref (Nat.iter 6 PermutationItr.incr a) = [1; 3; 2] /\
  map (fun k => PermutationItr.deref (Nat.iter k PermutationItr.decr a))
      (seq 1 6)
  = [[1; 2; 3]; [3; 2; 1]; [3; 1; 2]; [2; 3; 1]; [2; 1; 3]; [1; 3; 2]] /\
  NoDup visited /\
  (forall p : list Z, Permutation p [1; 3; 2] -> In p visited) /\
  (forall extra : nat,
     RangeContainer.elements (7 + extra) (PermutationItr.Permutations [1; 3; 2])
     = Some visited).
Proof.
  assert (Next : forall l : list Z, greatest l ->
            Permutation (fst (next_permutation l)) l /\
            least (fst (next_permutation l))).
  { intros l G. destruct (next_permutation_wraps l G) as (E & P & L).
    rewrite E. split; assumption. }
  assert (Prev : forall l : list Z, least l ->
            Permutation (fst (prev_permutation l)) l /\
            greatest (fst (prev_permutation l))).
  { intros l G. destruct (prev_permutation_wraps l G) as (E & P & L).
    rewrite E. split; assumption. }
  split; [exact Next|]. split; [exact Prev|].
  split.
  { intros a G. unfold PermutationItr.incr, PermutationItr.deref in *.
    cbn [PermutationItr.set_]. apply Next, G. }
  split.
  { intros a L. unfold PermutationItr.decr, PermutationItr.deref in *.
    cbn [PermutationItr.set_]. apply Prev, L. }
  cbv zeta. split; [vm_compute; reflexivity|].
  split; [vm_compute; reflexivity|].
  split; [vm_compute; reflexivity|]. split.
  { repeat constructor; cbn; intuition congruence. }
  split; [exact permutations_of_132|].
  intros extra. apply elements_more_fuel. vm_compute. reflexivity.
Qed.

Lemma wraparound_from_non_minimal_start_witness :
  greatest (PermutationItr.deref (PermutationItr.make [3; 2; 1] 0)) /\
  least (PermutationItr.deref
           (PermutationItr.incr (PermutationItr.make [3; 2; 1] 0))) /\
  least (PermutationItr.deref (PermutationItr.make [1; 2; 2] 0)) /\
  greatest (PermutationItr.deref
              (PermutationItr.decr (PermutationItr.make [1; 2; 2] 0))).
Proof.
  assert (G : greatest (PermutationItr.deref (PermutationItr.make [3; 2; 1] 0)))
    by (apply descending_greatest; repeat constructor).
  assert (L : least (PermutationItr.deref (PermutationItr.make [1; 2; 2] 0)))
    by (apply ascending_least; repeat constructor).
  split; [exact G|].
  split;
    [exact (proj2 (proj1 (proj2 (proj2 wraparound_from_non_minimal_start))
                     _ G))|].
  split; [exact L|].
  exact (proj2 (proj1 (proj2 (proj2 (proj2 wraparound_from_non_minimal_start)))
                  _ L)).
Defined.

(** ** Sequences of distinct integers *)

Section Distinct.

Lemma asc_app_iff (l1 l2 : list Z) :
  asc (l1 ++ l2) <->
  asc l1 /\ asc l2 /\ forall x y, In x l1 -> In y l2 -> x < y.
Proof.
  unfold asc. induction l1 as [|a l1 IH]; cbn [app].
  - split; [intros S; repeat split; [constructor | exact S | intros ? ? []]
           | intros (_ & S & _); exact S].
  - split.
    + intros S. inversion S as [|? ? S' F]; subst.
      apply IH in S' as (S1 & S2 & C). rewrite Forall_app in F.
      destruct F as [F1 F2]. rewrite Forall_forall in F2.
      repeat split; [constructor; assumption | assumption |].
      intros x y [<-|M] My; auto.
    + intros (S1 & S2 & C). inversion S1 as [|? ? S1' F1]; subst.
      constructor.
      * apply IH. repeat split; [assumption .. |].
        intros x y Mx My. apply C; [right|]; assumption.
      * rewrite Forall_app. split; [assumption|].
        rewrite Forall_forall. intros y My. apply C; [left; reflexivity|exact My].
Qed.

Lemma asc_cons_iff (a : Z) (l : list Z) :
  asc (a :: l) <-> asc l /\ forall y, In y l -> a < y.
Proof.
  unfold asc. split.
  - intros S. inversion S as [|? ? S' F]; subst. rewrite Forall_forall in F.
    split; assumption.
  - intros [S F]. constructor; [exact S|]. rewrite Forall_forall. exact F.
Qed.

Lemma asc_NoDup (l : list Z) : asc l -> NoDup l.
Proof.
  induction l as [|a l IH]; intros S; [constructor|].
  apply asc_cons_iff in S as [S F]. constructor; [|auto].
  intros M. specialize (F a M). lia.
Qed.

Lemma asc_ascending (l : list Z) : asc l -> ascending l.
Proof.
  intros S. apply StronglySorted_Sorted in S. unfold ascending.
  induction S as [|a l S IH Hd]; constructor; [exact IH|].
  destruct Hd; constructor. apply Z.ltb_ge. lia.
Qed.

Lemma insert_perm (x : Z) (l : list Z) : Permutation (insert x l) (x :: l).
Proof.
  induction l as [|y t IH]; cbn; [reflexivity|].
  destruct (y <? x); [|reflexivity].
  rewrite IH. apply perm_swap.
Qed.

Lemma sort_perm (l : list Z) : Permutation (sort l) l.
Proof.
  induction l as [|x t IH]; cbn [sort]; [reflexivity|].
  rewrite insert_perm. constructor. exact IH.
Qed.

Lemma sort_length (l : list Z) : length (sort l) = length l.
Proof. apply Permutation_length, sort_perm. Qed.

Lemma insert_asc (x : Z) (l : list Z) :
  asc l -> ~ In x l -> asc (insert x l).
Proof.
  induction l as [|y t IH]; intros S N; cbn.
  - repeat constructor.
  - apply asc_cons_iff in S as [S F].
    destruct (Z.ltb_spec y x) as [L|G].
    + apply asc_cons_iff. split; [apply IH; [exact S | cbn in N; tauto]|].
      intros z M. apply (Permutation_in _ (insert_perm x t)) in M.
      destruct M as [<-|M]; auto.
    + assert (x < y) by (cbn in N; lia).
      apply asc_cons_iff. split; [apply asc_cons_iff; split; assumption|].
      intros z [<-|M]; [assumption|]. specialize (F z M). lia.
Qed.

Lemma sort_asc (l : list Z) : NoDup l -> asc (sort l).
Proof.
  induction l as [|x t IH]; intros N; cbn [sort]; [constructor|].
  inversion N as [|? ? Nx Nt]; subst.
  apply insert_asc; [auto|].
  intros M. apply Nx. apply (Permutation_in _ (sort_perm t)). exact M.
Qed.

Lemma sort_sorted (l : list Z) : asc l -> sort l = l.
Proof.
  induction l as [|x t IH]; intros S; [reflexivity|].
  apply asc_cons_iff in S as [S F]. cbn [sort]. rewrite (IH S).
  destruct t as [|y t']; [reflexivity|]. cbn.
  specialize (F y (or_introl eq_refl)).
  destruct (Z.ltb_spec y x); [lia | reflexivity].
Qed.

(** *** Removing one position *)

Lemma without_exact (l1 : list Z) (a : Z) (l2 : list Z) :
  without (length l1) (l1 ++ a :: l2) = l1 ++ l2.
Proof.
  unfold without. induction l1 as [|x l1 IH]; [reflexivity|].
  cbn [length app firstn skipn]. f_equal. exact IH.
Qed.

Lemma nth_exact (l1 : list Z) (a : Z) (l2 : list Z) :
  nth (length l1) (l1 ++ a :: l2) 0 = a.
Proof. rewrite app_nth2, Nat.sub_diag by lia. reflexivity. Qed.

Lemma nth_error_exact (l1 : list Z) (a : Z) (l2 : list Z) :
  nth_error (l1 ++ a :: l2) (length l1) = Some a.
Proof. rewrite nth_error_app2, Nat.sub_diag by lia. reflexivity. Qed.

(** Every position splits the sequence around it. *)
Lemma split_at (g : nat) (l : list Z) :
  (g < length l)%nat ->
  exists l1 a l2, l = l1 ++ a :: l2 /\ length l1 = g.
Proof.
  intros L. destruct (nth_error l g) as [a|] eqn:E.
  - destruct (nth_error_split l g E) as (l1 & l2 & -> & Len). eauto.
  - apply nth_error_None in E. lia.
Qed.

End Distinct.

(** ** Counting the permutations of distinct elements *)

Section Counting.

Lemma zfact_pos (n : nat) : 0 < zfact n.
Proof. induction n as [|n IH]; [reflexivity|]. cbn [zfact]. lia. Qed.

Lemma zfact_mono (n m : nat) : (n <= m)%nat -> zfact n <= zfact m.
Proof.
  induction 1 as [|m L IH]; [lia|].
  pose proof (zfact_pos m). cbn [zfact]. nia.
Qed.

Lemma zfact_fits_size (n : nat) : (n <= 20)%nat -> zfact n < size_max.
Proof.
  intros L. apply zfact_mono in L.
  assert (zfact 20 < size_max) by (vm_compute; reflexivity). lia.
Qed.

Lemma zfact_fits_int (n : nat) : (n <= 12)%nat -> zfact n < 2 ^ 31.
Proof.
  intros L. apply zfact_mono in L.
  assert (zfact 12 < 2 ^ 31) by (vm_compute; reflexivity). lia.
Qed.

Lemma to_int_small (z : Z) : - 2 ^ 31 <= z < 2 ^ 31 -> to_int z = z.
Proof. intros B. unfold to_int. rewrite Z.mod_small; lia. Qed.

(** One accumulation step of an [int] sum of [std::size_t] terms. *)
Lemma int_accumulate_step (acc t : Z) :
  0 <= acc -> 0 <= t -> acc + t < 2 ^ 31 ->
  to_int (to_size_t (to_size_t acc + t)) = acc + t.
Proof.
  intros A T B.
  rewrite (to_size_t_small acc) by (unfold size_max; lia).
  rewrite to_size_t_small by (unfold size_max; lia).
  apply to_int_small. lia.
Qed.

Lemma count_absent (v : Z) (l : list Z) : ~ In v l -> count v l = O.
Proof.
  induction l as [|x t IH]; intros N; [reflexivity|]. cbn in *.
  destruct (Z.eqb_spec x v); [tauto|]. apply IH. tauto.
Qed.

Lemma count_runs_asc (s : list Z) :
  asc s -> forall turns, (length s <= turns)%nat ->
  count_runs turns s = List.repeat 1 (length s).
Proof.
  induction s as [|x t IH]; intros S turns L.
  - destruct turns; reflexivity.
  - destruct turns as [|turns]; [cbn in L; lia|].
    apply asc_cons_iff in S as [S F].
    cbn [count_runs count eqb Elem_Z]. rewrite Z.eqb_refl.
    rewrite count_absent by (intros M; specialize (F x M); lia).
    cbn [skipn length List.repeat Z.of_nat Pos.of_succ_nat].
    rewrite IH by (cbn in L; auto; lia). reflexivity.
Qed.

Lemma accumulate_ones (n : nat) :
  forall acc, 0 <= acc -> acc + Z.of_nat n < 2 ^ 31 ->
  fold_left (fun acc k => to_int (to_size_t (to_size_t acc + k)))
            (List.repeat 1 n) acc = acc + Z.of_nat n.
Proof.
  induction n as [|n IH]; intros acc A B; [cbn; lia|].
  cbn [List.repeat fold_left].
  rewrite int_accumulate_step by lia. rewrite IH by lia. lia.
Qed.

Lemma multinomial_fold_ones (n : nat) :
  forall r, 0 < r -> r * zfact n < size_max ->
  fold_left (fun st k => mc_inner (Z.to_nat k) 1 st) (List.repeat 1 n)
            (r, Z.of_nat n) = (r * zfact n, 0).
Proof.
  induction n as [|n IH]; intros r R B.
  - cbn. f_equal. lia.
  - cbn [List.repeat fold_left].
    change (Z.to_nat 1) with 1%nat. cbn [mc_inner].
    pose proof (zfact_pos n) as P. cbn [zfact] in B.
    rewrite Z.mod_1_r, Z.sub_0_r, Z.div_1_r.
    rewrite (to_size_t_small (r * Z.of_nat (S n))) by nia.
    rewrite (to_size_t_small (Z.of_nat (S n) - 1)) by nia.
    replace (Z.of_nat (S n) - 1) with (Z.of_nat n) by lia.
    rewrite IH by nia. cbn [zfact]. f_equal. lia.
Qed.

Lemma multinomial_ones (n : nat) :
  (n <= 20)%nat -> multinomial_coefficient (List.repeat 1 n) = zfact n.
Proof.
  intros L. unfold multinomial_coefficient, mc_eval, accumulate_int.
  rewrite accumulate_ones by lia. cbn [Z.add].
  rewrite to_size_t_small by (unfold size_max; lia).
  rewrite multinomial_fold_ones; [cbn [fst]; lia | lia |].
  pose proof (zfact_fits_size n L). lia.
Qed.

(** A sequence of at most 20 distinct elements has [n!] permutations, and
    [n_permutations] computes that number. *)
Lemma n_permutations_distinct (t : list Z) :
  NoDup t -> (length t <= 20)%nat -> n_permutations t = zfact (length t).
Proof.
  intros N L. unfold n_permutations.
  rewrite count_runs_asc by (auto using sort_asc).
  rewrite sort_length. apply multinomial_ones, L.
Qed.

End Counting.

(** ** Decoding a rank over distinct elements *)

Section Decoding.

Lemma leading_digit_bounds (m : nat) (D : Z) :
  0 <= D < zfact (S m) ->
  0 <= D / zfact m < Z.of_nat (S m) /\ 0 <= D mod zfact m < zfact m.
Proof.
  intros B. pose proof (zfact_pos m) as P. cbn [zfact] in B.
  split; [split|].
  - apply Z.div_pos; lia.
  - apply Z.div_lt_upper_bound; lia.
  - apply Z.mod_pos_bound. exact P.
Qed.

Lemma guess_loop_finds (s : list Z) (m : nat) (D : Z) :
  asc s -> length s = S m -> (S m <= 20)%nat -> 0 <= D < zfact (S m) ->
  forall k g turns,
    (g + k = Z.to_nat (D / zfact m))%nat -> (k < turns)%nat ->
    guess_loop turns D s g (Z.of_nat g * zfact m) (Z.of_nat g) =
    Some (D / zfact m, without (Z.to_nat (D / zfact m)) s, D mod zfact m).
Proof.
  intros Asc Len L B.
  destruct (leading_digit_bounds m D B) as [Bq Br].
  pose proof (zfact_pos m) as P.
  pose proof (zfact_fits_size (S m) L) as Fit. cbn [zfact] in Fit.
  pose proof (Z.div_mod D (zfact m) ltac:(lia)) as DM.
  induction k as [|k IH]; intros g turns E T;
    (destruct turns as [|turns]; [lia|]); cbn [guess_loop];
    destruct (split_at g s ltac:(lia)) as (l1 & a & l2 & Es & Lg);
    assert (En : nth_error s g = Some a)
      by (rewrite Es, <- Lg; apply nth_error_exact);
    assert (Ew : without g s = l1 ++ l2)
      by (rewrite Es, <- Lg; apply without_exact);
    assert (Nd : NoDup (l1 ++ l2))
      by (rewrite Es in Asc; apply asc_NoDup, NoDup_remove_1 in Asc; exact Asc);
    assert (Na : ~ In a (l1 ++ l2))
      by (rewrite Es in Asc; apply asc_NoDup, NoDup_remove_2 in Asc; exact Asc);
    assert (Ll : length (l1 ++ l2) = m)
      by (rewrite Es in Len; rewrite length_app in *; cbn in Len; lia);
    rewrite En, Ew, (n_permutations_distinct _ Nd) by lia; rewrite Ll;
    rewrite (to_size_t_small (Z.of_nat g * zfact m + zfact m)) by nia.
  - assert (Eg : Z.of_nat g = D / zfact m) by lia.
    destruct (Z.ltb_spec D (Z.of_nat g * zfact m + zfact m)) as [_|Ge]; [|nia].
    replace (Z.of_nat g * zfact m + zfact m - zfact m)
      with (Z.of_nat g * zfact m) by lia.
    rewrite (to_size_t_small (Z.of_nat g * zfact m)) by nia.
    replace (D - Z.of_nat g * zfact m) with (D mod zfact m) by nia.
    rewrite (to_size_t_small (D mod zfact m)) by lia.
    rewrite <- Ew, Eg. replace g with (Z.to_nat (D / zfact m)) by lia.
    reflexivity.
  - assert (Eg : Z.of_nat g + 1 <= D / zfact m) by lia.
    destruct (Z.ltb_spec D (Z.of_nat g * zfact m + zfact m)) as [Lt|_]; [nia|].
    rewrite (count_absent a _ Na). cbn [Z.of_nat]. rewrite Nat.add_0_r.
    rewrite Z.add_0_r, (to_size_t_small (Z.of_nat g + 1)) by nia.
    replace (Z.of_nat g * zfact m + zfact m) with (Z.of_nat (S g) * zfact m)
      by lia.
    replace (Z.of_nat g + 1) with (Z.of_nat (S g)) by lia.
    apply IH; lia.
Qed.

(** Against a rank that is not below the number of arrangements, the
    inner loop of [decimal_to_fns] tries every element and runs to its
    end. *)
Lemma guess_loop_exhausts (s : list Z) (m : nat) (D : Z) :
  asc s -> length s = S m -> (S m <= 20)%nat -> zfact (S m) <= D ->
  forall turns g,
    guess_loop turns D s g (Z.of_nat g * zfact m) (Z.of_nat g) = None.
Proof.
  intros Asc Len L B.
  pose proof (zfact_pos m) as P.
  pose proof (zfact_fits_size (S m) L) as Fit. cbn [zfact] in Fit, B.
  induction turns as [|turns IH]; intros g; [reflexivity|].
  cbn [guess_loop].
  destruct (nth_error s g) as [a|] eqn:En; [|reflexivity].
  assert (Lg : (g < length s)%nat)
    by (apply nth_error_Some; rewrite En; discriminate).
  destruct (split_at g s Lg) as (l1 & a' & l2 & Es & L1).
  assert (Ea : a' = a).
  { rewrite Es, <- L1, nth_error_exact in En. congruence. }
  subst a'.
  assert (Ew : without g s = l1 ++ l2)
    by (rewrite Es, <- L1; apply without_exact).
  assert (Nd : NoDup (l1 ++ l2))
    by (rewrite Es in Asc; apply asc_NoDup, NoDup_remove_1 in Asc; exact Asc).
  assert (Na : ~ In a (l1 ++ l2))
    by (rewrite Es in Asc; apply asc_NoDup, NoDup_remove_2 in Asc; exact Asc).
  assert (Ll : length (l1 ++ l2) = m)
    by (rewrite Es in Len; rewrite length_app in *; cbn in Len; lia).
  rewrite Ew, (n_permutations_distinct _ Nd) by lia. rewrite Ll.
  rewrite (to_size_t_small (Z.of_nat g * zfact m + zfact m)) by nia.
  destruct (Z.ltb_spec D (Z.of_nat g * zfact m + zfact m)) as [Lt|_]; [nia|].
  rewrite (count_absent a _ Na). cbn [Z.of_nat]. rewrite Nat.add_0_r.
  rewrite Z.add_0_r, (to_size_t_small (Z.of_nat g + 1)) by nia.
  replace (Z.of_nat g * zfact m + zfact m) with (Z.of_nat (S g) * zfact m)
    by lia.
  replace (Z.of_nat g + 1) with (Z.of_nat (S g)) by lia.
  apply IH.
Qed.

Lemma without_asc_length (s : list Z) (g : nat) :
  asc s -> (g < length s)%nat ->
  asc (without g s) /\ length (without g s) = pred (length s).
Proof.
  intros Asc L. destruct (split_at g s L) as (l1 & a & l2 & -> & <-).
  rewrite without_exact. split.
  - apply asc_app_iff in Asc as (S1 & S2 & C).
    apply asc_cons_iff in S2 as [S2 F]. apply asc_app_iff.
    repeat split; [assumption .. |]. intros x y Mx My. apply C; [|right]; assumption.
  - rewrite !length_app. cbn. lia.
Qed.

Lemma digits_loop_run (n : nat) :
  forall s D rv fuel,
    asc s -> length s = n -> (n <= 20)%nat -> 0 <= D < zfact n ->
    (n < fuel)%nat ->
    digits_loop fuel D s rv = Some (rv ++ fns_digits n D).
Proof.
  induction n as [|m IH]; intros s D rv fuel Asc Len L B Fu;
    (destruct fuel as [|fuel]; [lia|]); cbn [digits_loop].
  - destruct s; [|discriminate]. cbn. rewrite app_nil_r. reflexivity.
  - destruct s as [|x s']; [discriminate|].
    destruct (leading_digit_bounds m D B) as [Bq Br].
    pose proof (guess_loop_finds _ m D Asc Len L B (Z.to_nat (D / zfact m)) O
                  (length (x :: s')) eq_refl ltac:(lia)) as G.
    cbn [Z.of_nat Z.mul] in G. rewrite G.
    destruct (without_asc_length (x :: s') (Z.to_nat (D / zfact m)) Asc
                ltac:(lia)) as [S' L'].
    rewrite (IH _ _ _ _ S'); [|rewrite L', Len; reflexivity | lia | lia | lia].
    cbn [fns_digits]. rewrite <- app_assoc. reflexivity.
Qed.

Lemma pick_before (temp : list Z) :
  forall x i, x < i -> pick x i temp = ([], temp).
Proof.
  induction temp as [|e rest IH]; intros x i L; [reflexivity|].
  cbn [pick]. rewrite IH by lia.
  destruct (Z.eqb_spec i x); [lia | reflexivity].
Qed.

Lemma pick_at (l1 : list Z) (a : Z) (l2 : list Z) :
  forall i, pick (i + Z.of_nat (length l1)) i (l1 ++ a :: l2) = ([a], l1 ++ l2).
Proof.
  induction l1 as [|e l1 IH]; intros i; cbn [app pick length].
  - rewrite pick_before by lia.
    destruct (Z.eqb_spec i (i + Z.of_nat 0)); [reflexivity | lia].
  - replace (i + Z.of_nat (S (length l1)))
      with (i + 1 + Z.of_nat (length l1)) by lia.
    rewrite IH.
    destruct (Z.eqb_spec i (i + 1 + Z.of_nat (length l1))); [lia | reflexivity].
Qed.

Lemma fns_to_permutation_digits (n : nat) :
  forall s D, length s = n -> 0 <= D < zfact n ->
    fns_to_permutation (fns_digits n D) s = nth_perm n s D.
Proof.
  induction n as [|m IH]; intros s D Len B; [reflexivity|].
  destruct (leading_digit_bounds m D B) as [Bq Br].
  cbn [fns_digits fns_to_permutation nth_perm].
  destruct (split_at (Z.to_nat (D / zfact m)) s ltac:(lia))
    as (l1 & a & l2 & -> & Lg).
  replace (D / zfact m) with (0 + Z.of_nat (length l1)) at 1 by lia.
  rewrite pick_at. rewrite <- Lg, nth_exact, without_exact.
  cbn [app]. f_equal. apply IH; [|exact Br].
  rewrite length_app in *. cbn in Len. lia.
Qed.

(** On an original of at most 20 distinct elements,
    [decimal_to_permutation] returns, and returns the arrangement of the
    rank it is given. *)
Lemma decimal_to_permutation_distinct (s : list Z) (D : Z) (extra : nat) :
  NoDup s -> (length s <= 20)%nat -> 0 <= D < zfact (length s) ->
  decimal_to_permutation (S (length s) + extra) D s =
  Some (nth_perm (length s) s D).
Proof.
  intros Nd L B. unfold decimal_to_permutation, decimal_to_fns.
  rewrite (digits_loop_run (length s) (sort s) D [] _ (sort_asc s Nd)
             (sort_length s) L B) by lia.
  cbn [option_map app]. rewrite fns_to_permutation_digits; auto.
Qed.

(** On an original of 1 to 20 distinct elements, [decimal_to_permutation]
    never returns when the rank is not below the number of
    arrangements. *)
Lemma decimal_to_permutation_out_of_range (s : list Z) (D : Z) :
  NoDup s -> s <> [] -> (length s <= 20)%nat -> zfact (length s) <= D ->
  forall fuel, decimal_to_permutation fuel D s = None.
Proof.
  intros Nd NE L B fuel. unfold decimal_to_permutation, decimal_to_fns.
  pose proof (sort_asc s Nd) as Asc. pose proof (sort_length s) as Len.
  destruct (sort s) as [|x t] eqn:Es.
  { destruct s; [congruence | discriminate Len]. }
  rewrite digits_loop_diverges; [reflexivity|].
  cbn [length] in Len.
  apply (guess_loop_exhausts (x :: t) (length t) D Asc eq_refl);
    [lia | rewrite Len; exact B].
Qed.

End Decoding.

(** ** Single steps follow the ranks *)

Section StepCons.
Context {A : Type}.
Variable before : A -> A -> bool.

(** A step that succeeds on a tail succeeds the same way with an element
    in front. *)
Lemma step_cons_true (x : A) (p q : list A) :
  permutation_step before p = (q, true) ->
  permutation_step before (x :: p) = (x :: q, true).
Proof.
  intros E. destruct p as [|y p'] using rev_ind; [discriminate E|].
  clear IHp'. rewrite step_as_scan in E.
  change (x :: p' ++ [y]) with ((x :: p') ++ [y]).
  rewrite step_as_scan. cbn [rev]. rewrite scan_app by discriminate.
  rewrite E. reflexivity.
Qed.

(** An element in front of a tail that is a last arrangement, and that
    is [before] the first element of that tail, is the pivot. *)
Lemma step_cons_last (x ii : A) (rest : list A) :
  last_arrangement before (ii :: rest) -> before x ii = true ->
  permutation_step before (x :: ii :: rest) =
  (let '(j, tl) := swap_pivot before x (rev (ii :: rest)) in (j :: tl, true)).
Proof.
  intros La B. remember (ii :: rest) as d eqn:Ed.
  destruct d as [|y l0] using rev_ind; [discriminate Ed|]. clear IHl0.
  change (x :: l0 ++ [y]) with ((x :: l0) ++ [y]).
  rewrite step_as_scan. cbn [rev]. rewrite scan_app by discriminate.
  rewrite scan_last by (rewrite rev_involutive; exact La).
  rewrite rev_involutive. rewrite Ed. cbn [permutation_scan]. rewrite B.
  destruct (swap_pivot before x (rev (ii :: rest))) as [j tl]. reflexivity.
Qed.

Lemma swap_pivot_skip (i y : A) (l1 l2 : list A) :
  (forall z, In z l1 -> before i z = false) -> before i y = true ->
  swap_pivot before i (l1 ++ y :: l2) = (y, l1 ++ i :: l2).
Proof.
  intros F B. induction l1 as [|z l1 IH]; cbn [app swap_pivot].
  - rewrite B. reflexivity.
  - rewrite (F z) by (left; reflexivity).
    rewrite IH by (intros w M; apply F; right; exact M). reflexivity.
Qed.

End StepCons.

Section StepRanks.

Lemma nth_perm_first (n : nat) :
  forall s, length s = n -> nth_perm n s 0 = s.
Proof.
  induction n as [|m IH]; intros s Len.
  - destruct s; [reflexivity | discriminate].
  - destruct s as [|x t]; [discriminate|]. cbn [nth_perm].
    pose proof (zfact_pos m).
    rewrite Z.div_0_l, Z.mod_0_l by lia.
    cbn. f_equal. apply IH. cbn in Len. lia.
Qed.

Lemma nth_perm_last (n : nat) :
  forall s, length s = n -> nth_perm n s (zfact n - 1) = rev s.
Proof.
  induction n as [|m IH]; intros s Len.
  - destruct s; [reflexivity | discriminate].
  - destruct s as [|y l0] using rev_ind; [discriminate|]. clear IHl0.
    rewrite length_app in Len. cbn in Len.
    assert (Lm : length l0 = m) by lia.
    pose proof (zfact_pos m) as P. cbn [nth_perm].
    assert (Eq : (zfact (S m) - 1) / zfact m = Z.of_nat m).
    { symmetry. apply (Z.div_unique _ _ _ (zfact m - 1)); [lia|].
      cbn [zfact]. lia. }
    assert (Er : (zfact (S m) - 1) mod zfact m = zfact m - 1).
    { symmetry. apply (Z.mod_unique _ _ (Z.of_nat m)); [lia|].
      cbn [zfact]. lia. }
    rewrite Eq, Er, Nat2Z.id, <- Lm, nth_exact, without_exact, app_nil_r.
    rewrite Lm, (IH _ Lm), rev_app_distr. reflexivity.
Qed.

(** Two neighbouring positions split the sequence around them. *)
Lemma split_two (g : nat) (s : list Z) :
  (S g < length s)%nat ->
  exists l1 a b l2, s = l1 ++ a :: b :: l2 /\ length l1 = g.
Proof.
  intros L. destruct (split_at g s ltac:(lia)) as (l1 & a & l2 & -> & Lg).
  destruct l2 as [|b l2].
  - rewrite length_app in L. cbn in L. lia.
  - eauto 6.
Qed.

Lemma asc_two (l1 : list Z) (a b : Z) (l2 : list Z) :
  asc (l1 ++ a :: b :: l2) ->
  (forall z, In z l1 -> z < a) /\ a < b /\ (forall z, In z l2 -> b < z) /\
  asc (l1 ++ a :: l2) /\ asc (l1 ++ b :: l2).
Proof.
  intros Asc. apply asc_app_iff in Asc as (A1 & A2 & C).
  apply asc_cons_iff in A2 as [A2 Fa]. apply asc_cons_iff in A2 as [A2 Fb].
  assert (Lab : a < b) by (apply Fa; left; reflexivity).
  split; [intros z M; apply C; [exact M | left; reflexivity]|].
  split; [exact Lab|]. split; [exact Fb|]. split.
  - apply asc_app_iff. split; [exact A1|]. split.
    + apply asc_cons_iff. split; [exact A2|]. intros y M. apply Fa. right. exact M.
    + intros x y Mx [<-|My]; apply C; cbn; auto.
  - apply asc_app_iff. split; [exact A1|]. split.
    + apply asc_cons_iff. split; [exact A2 | exact Fb].
    + intros x y Mx [<-|My]; apply C; cbn; auto.
Qed.

Lemma positions_two (l1 : list Z) (a b : Z) (l2 : list Z) :
  nth (length l1) (l1 ++ a :: b :: l2) 0 = a /\
  nth (S (length l1)) (l1 ++ a :: b :: l2) 0 = b /\
  without (length l1) (l1 ++ a :: b :: l2) = l1 ++ b :: l2 /\
  without (S (length l1)) (l1 ++ a :: b :: l2) = l1 ++ a :: l2.
Proof.
  split; [apply nth_exact|].
  pose proof (nth_exact (l1 ++ [a]) b l2) as N.
  pose proof (without_exact (l1 ++ [a]) b l2) as W.
  rewrite length_app, <- app_assoc in N, W. cbn in N, W.
  rewrite Nat.add_1_r in N, W.
  rewrite <- app_assoc in W.
  split; [exact N|]. split; [apply without_exact | exact W].
Qed.

Lemma asc_rev_last (l : list Z) : asc l -> last_arrangement Z.ltb (rev l).
Proof. intros Asc. apply (sorted_rev l (asc_ascending l Asc)). Qed.

Lemma asc_last_reversed (l : list Z) :
  asc l -> last_arrangement (fun a b => Z.ltb b a) l.
Proof. apply asc_ascending. Qed.

(** Below the last rank, a single increment moves to the next rank. *)
Lemma next_nth_perm (n : nat) :
  forall s D, asc s -> length s = n -> 0 <= D -> D + 1 < zfact n ->
    next_permutation (nth_perm n s D) = (nth_perm n s (D + 1), true).
Proof.
  induction n as [|m IH]; intros s D Asc Len D0 D1.
  - cbn in D1. lia.
  - pose proof (zfact_pos m) as P.
    destruct (leading_digit_bounds m D ltac:(lia)) as [Bq Br].
    pose proof (Z.div_mod D (zfact m) ltac:(lia)) as DM.
    assert (Hz : zfact (S m) = Z.of_nat (S m) * zfact m) by reflexivity.
    destruct (Z.lt_ge_cases (D mod zfact m + 1) (zfact m)) as [In|Carry].
    + assert (Eq : (D + 1) / zfact m = D / zfact m).
      { symmetry. apply (Z.div_unique _ _ _ (D mod zfact m + 1)); lia. }
      assert (Er : (D + 1) mod zfact m = D mod zfact m + 1).
      { symmetry. apply (Z.mod_unique _ _ (D / zfact m)); lia. }
      cbn [nth_perm]. rewrite Eq, Er.
      apply (step_cons_true Z.ltb).
      destruct (without_asc_length s (Z.to_nat (D / zfact m)) Asc ltac:(lia))
        as [Asc' Len'].
      apply IH; [exact Asc' | lia | lia | lia].
    + assert (Em : D mod zfact m = zfact m - 1) by lia.
      assert (Eq : (D + 1) / zfact m = D / zfact m + 1).
      { symmetry. apply (Z.div_unique _ _ _ 0); lia. }
      assert (Er : (D + 1) mod zfact m = 0).
      { symmetry. apply (Z.mod_unique _ _ (D / zfact m + 1)); lia. }
      assert (Lg : (S (Z.to_nat (D / zfact m)) < length s)%nat) by nia.
      destruct (split_two _ s Lg) as (l1 & a & b & l2 & -> & L1).
      destruct (asc_two _ _ _ _ Asc) as (F1 & Lab & F2 & Aa & Ab).
      destruct (positions_two l1 a b l2) as (Na & Nb & Wa & Wb).
      cbn [nth_perm]. rewrite Eq, Er, Em.
      replace (Z.to_nat (D / zfact m + 1)) with (S (length l1)) by lia.
      rewrite <- L1, Na, Nb, Wa, Wb.
      assert (Lb : length (l1 ++ b :: l2) = m)
        by (rewrite length_app in *; cbn in *; lia).
      assert (La : length (l1 ++ a :: l2) = m)
        by (rewrite length_app in *; cbn in *; lia).
      rewrite (nth_perm_last m _ Lb), (nth_perm_first m _ La).
      pose proof (asc_rev_last _ Ab) as Last.
      destruct (rev (l1 ++ b :: l2)) as [|ii rest] eqn:Er'.
      { apply (f_equal (@length Z)) in Er'. rewrite length_rev, Lb in Er'.
        cbn in Er'. rewrite length_app in Lb. cbn in Lb. lia. }
      assert (Hii : a < ii).
      { rewrite rev_app_distr in Er'. cbn [rev] in Er'.
        destruct (rev l2) as [|z r2] eqn:E2; cbn in Er'.
        - injection Er' as <- _. exact Lab.
        - injection Er' as <- _.
          assert (In z l2) by (apply in_rev; rewrite E2; left; reflexivity).
          specialize (F2 z H). lia. }
      unfold next_permutation. cbn [ltb Elem_Z].
      rewrite (step_cons_last Z.ltb a ii rest Last)
        by (apply Z.ltb_lt; exact Hii).
      rewrite <- Er', rev_involutive.
      rewrite (swap_pivot_skip Z.ltb a b l1 l2);
        [reflexivity | | apply Z.ltb_lt; exact Lab].
      intros z M. apply Z.ltb_ge. specialize (F1 z M). lia.
Qed.

(** Above rank 0, a single decrement moves to the previous rank. *)
Lemma prev_nth_perm (n : nat) :
  forall s D, asc s -> length s = n -> 1 <= D < zfact n ->
    prev_permutation (nth_perm n s D) = (nth_perm n s (D - 1), true).
Proof.
  induction n as [|m IH]; intros s D Asc Len B.
  - cbn in B. lia.
  - pose proof (zfact_pos m) as P.
    destruct (leading_digit_bounds m D ltac:(lia)) as [Bq Br].
    pose proof (Z.div_mod D (zfact m) ltac:(lia)) as DM.
    assert (Hz : zfact (S m) = Z.of_nat (S m) * zfact m) by reflexivity.
    destruct (Z.lt_ge_cases 0 (D mod zfact m)) as [In|Borrow].
    + assert (Eq : (D - 1) / zfact m = D / zfact m).
      { symmetry. apply (Z.div_unique _ _ _ (D mod zfact m - 1)); lia. }
      assert (Er : (D - 1) mod zfact m = D mod zfact m - 1).
      { symmetry. apply (Z.mod_unique _ _ (D / zfact m)); lia. }
      cbn [nth_perm]. rewrite Eq, Er.
      apply (step_cons_true (fun a b => Z.ltb b a)).
      destruct (without_asc_length s (Z.to_nat (D / zfact m)) Asc ltac:(lia))
        as [Asc' Len'].
      apply IH; [exact Asc' | lia | lia].
    + assert (Em : D mod zfact m = 0) by lia.
      assert (Eq : (D - 1) / zfact m = D / zfact m - 1).
      { symmetry. apply (Z.div_unique _ _ _ (zfact m - 1)); lia. }
      assert (Er : (D - 1) mod zfact m = zfact m - 1).
      { symmetry. apply (Z.mod_unique _ _ (D / zfact m - 1)); lia. }
      assert (G1 : 1 <= D / zfact m) by nia.
      assert (Lg : (S (Z.to_nat (D / zfact m - 1)) < length s)%nat) by lia.
      destruct (split_two _ s Lg) as (l1 & a & b & l2 & -> & L1).
      destruct (asc_two _ _ _ _ Asc) as (F1 & Lab & F2 & Aa & Ab).
      destruct (positions_two l1 a b l2) as (Na & Nb & Wa & Wb).
      cbn [nth_perm]. rewrite Eq, Er, Em.
      replace (Z.to_nat (D / zfact m)) with (S (length l1)) by lia.
      rewrite <- L1, Na, Nb, Wa, Wb.
      assert (Lb : length (l1 ++ b :: l2) = m)
        by (rewrite length_app in *; cbn in *; lia).
      assert (La : length (l1 ++ a :: l2) = m)
        by (rewrite length_app in *; cbn in *; lia).
      rewrite (nth_perm_last m _ Lb), (nth_perm_first m _ La).
      pose proof (asc_last_reversed _ Aa) as Last.
      destruct (l1 ++ a :: l2) as [|ii rest] eqn:Ed.
      { destruct l1; discriminate Ed. }
      assert (Hii : ii < b).
      { destruct l1 as [|z l1']; cbn in Ed; injection Ed as <- _;
          [exact Lab|]. specialize (F1 z (or_introl eq_refl)). lia. }
      unfold prev_permutation. cbn [ltb Elem_Z].
      rewrite (step_cons_last (fun x y => Z.ltb y x) b ii rest Last)
        by (apply Z.ltb_lt; exact Hii).
      rewrite <- Ed, !rev_app_distr. cbn [rev]. rewrite <- !app_assoc.
      cbn [app].
      rewrite (swap_pivot_skip (fun x y => Z.ltb y x) b a (rev l2) (rev l1));
        [reflexivity | | apply Z.ltb_lt; exact Lab].
      intros z M. apply Z.ltb_ge. apply in_rev in M. specialize (F2 z M). lia.
Qed.

End StepRanks.

(** ** Encoding an arrangement of distinct elements *)

Section Encoding.

Lemma find_digit_at (l1 : list Z) (a : Z) (l2 : list Z) :
  ~ In a l1 ->
  forall i, find_digit a i (l1 ++ a :: l2) = (i + Z.of_nat (length l1), l1 ++ l2).
Proof.
  induction l1 as [|e l1 IH]; intros N i; cbn [app find_digit length eqb Elem_Z].
  - rewrite Z.eqb_refl. f_equal. lia.
  - destruct (Z.eqb_spec e a) as [->|Ne]; [cbn in N; tauto|].
    rewrite IH by (cbn in N; tauto). f_equal. lia.
Qed.

(** The first element of an arrangement of distinct elements sits at one
    position of the original; the rest arranges what is left. *)
Lemma first_element (x : Z) (p' s : list Z) :
  NoDup s -> Permutation (x :: p') s ->
  exists l1 l2,
    s = l1 ++ x :: l2 /\ ~ In x l1 /\ NoDup (l1 ++ l2) /\
    Permutation p' (l1 ++ l2) /\ (length l1 <= length p')%nat.
Proof.
  intros Nd P.
  assert (M : In x s) by (eapply Permutation_in; [exact P | left; reflexivity]).
  destruct (in_split x s M) as (l1 & l2 & ->).
  exists l1, l2. split; [reflexivity|].
  pose proof (NoDup_remove_1 _ _ _ Nd) as N1.
  pose proof (NoDup_remove_2 _ _ _ Nd) as N2.
  pose proof (Permutation_cons_app_inv _ _ P) as P'.
  split; [intros I1; apply N2, in_or_app; left; exact I1|].
  split; [exact N1|]. split; [exact P'|].
  apply Permutation_length in P'. rewrite length_app in P'. lia.
Qed.

Lemma rank_bounds (p : list Z) :
  forall s, NoDup s -> Permutation p s -> 0 <= rank p s < zfact (length p).
Proof.
  induction p as [|x p' IH]; intros s Nd P; [cbn; lia|].
  destruct (first_element x p' s Nd P) as (l1 & l2 & -> & Nx & Nd' & P' & L).
  cbn [rank length]. rewrite find_digit_at by exact Nx.
  specialize (IH _ Nd' P'). pose proof (zfact_pos (length p')).
  cbn [zfact]. nia.
Qed.

Lemma nth_perm_rank (p : list Z) :
  forall s, NoDup s -> Permutation p s -> nth_perm (length p) s (rank p s) = p.
Proof.
  induction p as [|x p' IH]; intros s Nd P; [reflexivity|].
  destruct (first_element x p' s Nd P) as (l1 & l2 & -> & Nx & Nd' & P' & L).
  cbn [rank length nth_perm]. rewrite find_digit_at by exact Nx.
  pose proof (rank_bounds p' _ Nd' P') as B.
  pose proof (zfact_pos (length p')) as Pos.
  assert (Eq : ((0 + Z.of_nat (length l1)) * zfact (length p')
                + rank p' (l1 ++ l2)) / zfact (length p')
               = Z.of_nat (length l1)).
  { symmetry. apply (Z.div_unique _ _ _ (rank p' (l1 ++ l2))); lia. }
  assert (Er : ((0 + Z.of_nat (length l1)) * zfact (length p')
                + rank p' (l1 ++ l2)) mod zfact (length p')
               = rank p' (l1 ++ l2)).
  { symmetry. apply (Z.mod_unique _ _ (Z.of_nat (length l1))); lia. }
  rewrite Eq, Er, Nat2Z.id, nth_exact, without_exact.
  f_equal. apply IH; assumption.
Qed.

Lemma place_values_distinct (p : list Z) :
  NoDup p -> (length p <= 20)%nat -> fns_place_values p = places (length p).
Proof.
  induction p as [|x p' IH]; intros Nd L; [reflexivity|].
  destruct p' as [|y [|z t]]; [reflexivity | reflexivity |].
  assert (Nd' : NoDup (y :: z :: t)) by (inversion Nd; assumption).
  change (fns_place_values (x :: y :: z :: t))
    with (n_permutations (x :: y :: z :: t)
            / Z.of_nat (length (x :: y :: z :: t))
          :: fns_place_values (y :: z :: t)).
  rewrite (IH Nd') by (cbn in *; lia).
  rewrite (n_permutations_distinct _ Nd L).
  remember (y :: z :: t) as q. cbn [length places zfact].
  rewrite Z.mul_comm, Z.div_mul by lia. reflexivity.
Qed.

Lemma inner_product_rank (p : list Z) :
  forall s acc, NoDup s -> Permutation p s ->
    0 <= acc -> acc + rank p s < 2 ^ 31 ->
    inner_product_int (permutation_to_fns p s) (places (length p)) acc =
    acc + rank p s.
Proof.
  induction p as [|x p' IH]; intros s acc Nd P A B; [cbn; lia|].
  destruct p' as [|y p''].
  - apply Permutation_length_1_inv in P. subst s.
    cbn [permutation_to_fns places length inner_product_int rank find_digit
         eqb Elem_Z zfact] in *.
    rewrite Z.eqb_refl in *. cbn [Z.mul] in *.
    change (to_size_t 0) with 0. rewrite int_accumulate_step; lia.
  - destruct (first_element x (y :: p'') s Nd P)
      as (l1 & l2 & -> & Nx & Nd' & P' & L).
    pose proof (rank_bounds _ _ Nd' P') as Br.
    pose proof (zfact_pos (length (y :: p''))) as Pos.
    remember (y :: p'') as q eqn:Eq.
    assert (Ef : permutation_to_fns (x :: q) (l1 ++ x :: l2) =
                 (0 + Z.of_nat (length l1)) ::
                 permutation_to_fns q (l1 ++ l2)).
    { rewrite Eq. cbn [permutation_to_fns].
      rewrite find_digit_at by exact Nx. reflexivity. }
    rewrite Ef. cbn [rank length places inner_product_int] in *.
    rewrite find_digit_at in B by exact Nx.
    rewrite find_digit_at by exact Nx.
    rewrite (to_size_t_small ((0 + Z.of_nat (length l1)) * zfact (length q)))
      by (unfold size_max; nia).
    rewrite int_accumulate_step by nia.
    rewrite IH; [lia | exact Nd' | exact P' | nia | lia].
Qed.

(** For at most 20 distinct elements and a rank that fits an [int],
    [permutation_to_decimal] computes the rank. *)
Lemma permutation_to_decimal_exact (p s : list Z) :
  NoDup s -> Permutation p s -> (length p <= 20)%nat -> rank p s < 2 ^ 31 ->
  permutation_to_decimal p s = rank p s.
Proof.
  intros Nd P L Fi. unfold permutation_to_decimal.
  assert (Np : NoDup p) by (eapply Permutation_NoDup; [symmetry|]; eassumption).
  rewrite place_values_distinct by (auto; lia).
  pose proof (rank_bounds p s Nd P) as B.
  rewrite inner_product_rank by (auto; lia).
  apply to_size_t_small. unfold size_max. lia.
Qed.

(** The rank of at most 12 distinct elements fits an [int]. *)
Lemma rank_fits_int (p s : list Z) :
  NoDup s -> Permutation p s -> (length p <= 12)%nat -> rank p s < 2 ^ 31.
Proof.
  intros Nd P L. pose proof (rank_bounds p s Nd P).
  pose proof (zfact_fits_int _ L). lia.
Qed.

Lemma permutation_to_decimal_distinct (p s : list Z) :
  NoDup s -> Permutation p s -> (length p <= 12)%nat ->
  permutation_to_decimal p s = rank p s.
Proof.
  intros Nd P L. apply permutation_to_decimal_exact; auto; [lia|].
  apply rank_fits_int; assumption.
Qed.

Lemma nth_perm_length (n : nat) :
  forall s D, length (nth_perm n s D) = n.
Proof. induction n as [|m IH]; intros s D; cbn; [|rewrite IH]; reflexivity. Qed.

Lemma rank_nth_perm (n : nat) :
  forall s D, NoDup s -> length s = n -> 0 <= D < zfact n ->
    rank (nth_perm n s D) s = D /\ Permutation (nth_perm n s D) s.
Proof.
  induction n as [|m IH]; intros s D Nd Len B.
  - destruct s; [|discriminate]. cbn in *. split; [lia | constructor].
  - destruct (leading_digit_bounds m D B) as [Bq Br].
    pose proof (zfact_pos m) as P.
    pose proof (Z.div_mod D (zfact m) ltac:(lia)) as DM.
    destruct (split_at (Z.to_nat (D / zfact m)) s ltac:(lia))
      as (l1 & a & l2 & -> & Lg).
    pose proof (NoDup_remove_1 _ _ _ Nd) as N1.
    pose proof (NoDup_remove_2 _ _ _ Nd) as N2.
    assert (Ll : length (l1 ++ l2) = m)
      by (rewrite length_app in *; cbn in Len; lia).
    destruct (IH (l1 ++ l2) (D mod zfact m) N1 Ll Br) as [Er Ep].
    cbn [nth_perm]. rewrite <- Lg, nth_exact, without_exact.
    split.
    + cbn [rank]. rewrite find_digit_at
        by (intros M; apply N2, in_or_app; left; exact M).
      rewrite nth_perm_length, Er. lia.
    + rewrite Ep. apply Permutation_middle.
Qed.

(** Where the round trip of the factorial number system does hold: for
    at most 12 distinct elements, sorted or not, both ways. *)
Lemma fns_round_trip_distinct (s : list Z) :
  NoDup s -> (length s <= 12)%nat ->
  (forall (r : Z) (extra : nat), 0 <= r < n_permutations s ->
     exists p,
       decimal_to_permutation (S (length s) + extra) r s = Some p /\
       permutation_to_decimal p s = r) /\
  (forall (p : list Z) (extra : nat), Permutation p s ->
     decimal_to_permutation (S (length s) + extra)
                            (permutation_to_decimal p s) s = Some p).
Proof.
  intros Nd L. split.
  - intros r extra B. rewrite n_permutations_distinct in B by (auto; lia).
    exists (nth_perm (length s) s r).
    rewrite decimal_to_permutation_distinct by (auto; lia).
    split; [reflexivity|].
    destruct (rank_nth_perm (length s) s r Nd eq_refl B) as [Er Ep].
    rewrite permutation_to_decimal_distinct;
      [exact Er | exact Nd | exact Ep | rewrite nth_perm_length; exact L].
  - intros p extra P. pose proof (Permutation_length P) as Lp.
    rewrite permutation_to_decimal_distinct by (auto; lia).
    pose proof (rank_bounds p s Nd P) as B. rewrite Lp in B.
    rewrite decimal_to_permutation_distinct by (auto; lia).
    rewrite <- Lp, nth_perm_rank by assumption. reflexivity.
Qed.

End Encoding.

(** ** [advance] against single steps *)

Section AdvanceFacts.
Import PermutationItr.

(** The strictly ascending reference sequence and its length. *)
Variable srt : list Z.
Variable n : nat.
Hypothesis srt_asc : asc srt.
Hypothesis srt_length : length srt = n.

Lemma incr_rank (r : Z) :
  0 <= r < zfact n ->
  fst (next_permutation (nth_perm n srt r)) =
  nth_perm n srt ((r + 1) mod zfact n).
Proof.
  intros B. destruct (Z.lt_ge_cases (r + 1) (zfact n)) as [In|Wrap].
  - rewrite next_nth_perm by (auto; lia).
    rewrite Z.mod_small by lia. reflexivity.
  - replace r with (zfact n - 1) at 1 by lia.
    replace (r + 1) with (zfact n) by lia.
    rewrite Z.mod_same by lia.
    rewrite nth_perm_last, nth_perm_first by exact srt_length.
    unfold next_permutation. cbn [ltb Elem_Z].
    rewrite (step_last Z.ltb) by (apply asc_rev_last, srt_asc).
    apply rev_involutive.
Qed.

Lemma decr_rank (r : Z) :
  0 <= r < zfact n ->
  fst (prev_permutation (nth_perm n srt r)) =
  nth_perm n srt ((r - 1) mod zfact n).
Proof.
  intros B. destruct (Z.lt_ge_cases 0 r) as [In|Wrap].
  - rewrite prev_nth_perm by (auto; lia).
    rewrite Z.mod_small by lia. reflexivity.
  - replace r with 0 by lia.
    replace ((0 - 1) mod zfact n) with (zfact n - 1)
      by (apply (Z.mod_unique _ _ (-1)); lia).
    rewrite nth_perm_last, nth_perm_first by exact srt_length.
    unfold prev_permutation. cbn [ltb Elem_Z].
    rewrite (step_last (fun a b => Z.ltb b a))
      by (apply asc_last_reversed, srt_asc).
    reflexivity.
Qed.

Lemma size_t_succ (off k : Z) :
  to_size_t (to_size_t (off + k) + 1) = to_size_t (off + (k + 1)).
Proof.
  unfold to_size_t. rewrite Z.add_mod_idemp_l by (unfold size_max; lia).
  f_equal. lia.
Qed.

Lemma size_t_pred (off k : Z) :
  to_size_t (to_size_t (off - k) - 1) = to_size_t (off - (k + 1)).
Proof.
  unfold to_size_t. rewrite Zminus_mod_idemp_l. f_equal. lia.
Qed.

Lemma steps_forward (o s0 : list Z) (off dx r : Z) (k : nat) :
  Nat.iter k incr (Build o s0 (nth_perm n srt (r mod zfact n)) (to_size_t off) dx)
  = Build o s0 (nth_perm n srt ((r + Z.of_nat k) mod zfact n))
          (to_size_t (off + Z.of_nat k)) dx.
Proof.
  pose proof (zfact_pos n) as P.
  induction k as [|k IH].
  - cbn [Nat.iter Z.of_nat]. rewrite !Z.add_0_r. reflexivity.
  - rewrite Nat.iter_succ, IH. unfold incr. cbn [orig_set_ sorted_orig_ set_ offset_ dx_].
    rewrite incr_rank by (apply Z.mod_pos_bound; lia).
    rewrite Z.add_mod_idemp_l by lia. rewrite size_t_succ.
    replace (Z.of_nat (S k)) with (Z.of_nat k + 1) by lia.
    rewrite !Z.add_assoc. reflexivity.
Qed.

Lemma steps_backward (o s0 : list Z) (off dx r : Z) (k : nat) :
  Nat.iter k decr (Build o s0 (nth_perm n srt (r mod zfact n)) (to_size_t off) dx)
  = Build o s0 (nth_perm n srt ((r - Z.of_nat k) mod zfact n))
          (to_size_t (off - Z.of_nat k)) dx.
Proof.
  pose proof (zfact_pos n) as P.
  induction k as [|k IH].
  - cbn [Nat.iter Z.of_nat]. rewrite !Z.sub_0_r. reflexivity.
  - rewrite Nat.iter_succ, IH. unfold decr. cbn [orig_set_ sorted_orig_ set_ offset_ dx_].
    rewrite decr_rank by (apply Z.mod_pos_bound; lia).
    rewrite Zminus_mod_idemp_l. rewrite size_t_pred.
    replace (Z.of_nat (S k)) with (Z.of_nat k + 1) by lia.
    rewrite !Z.sub_add_distr. reflexivity.
Qed.

(** Single steps in either direction move the rank modulo the number of
    arrangements and the offset modulo 2^64. *)
Lemma step_by_rank (o s0 : list Z) (off dx r j : Z) :
  step_by (Build o s0 (nth_perm n srt (r mod zfact n)) (to_size_t off) dx) j
  = Build o s0 (nth_perm n srt ((r + j) mod zfact n)) (to_size_t (off + j)) dx.
Proof.
  unfold step_by. destruct (Z.leb_spec 0 j) as [Pos|Neg].
  - rewrite steps_forward, Z2Nat.id by lia. reflexivity.
  - rewrite steps_backward, Z2Nat.id by lia.
    replace (r - - j) with (r + j) by lia.
    replace (off - - j) with (off + j) by lia. reflexivity.
Qed.

End AdvanceFacts.

Lemma seq_eqb_refl (l : list Z) : seq_eqb l l = true.
Proof.
  induction l as [|x t IH]; [reflexivity|].
  cbn [seq_eqb eqb Elem_Z]. rewrite Z.eqb_refl. exact IH.
Qed.

(** [operator==] holds between an iterator and itself. *)
Lemma equal_refl (a : PermutationItr.t Z) : PermutationItr.equal a a = true.
Proof.
  unfold PermutationItr.equal. rewrite !seq_eqb_refl, Z.eqb_refl. reflexivity.
Qed.

(** ** Iterating over the arrangements of distinct elements *)

Section IterationFacts.
Import PermutationItr.

Variable s : list Z.
Hypothesis s_distinct : NoDup s.
Hypothesis s_short : (length s <= 20)%nat.

Lemma state_after (k : nat) :
  Nat.iter k incr (make s 0) =
  Build s (sort s) (arrangement_after s k) (to_size_t (Z.of_nat k))
        (dx_ (make s 0)).
Proof.
  pose proof (sort_asc s s_distinct) as Asc.
  pose proof (Permutation_sym (sort_perm s)) as P.
  pose proof (asc_NoDup _ Asc) as Nd'.
  pose proof (rank_bounds s (sort s) Nd' P) as Br.
  assert (Start : make s 0 =
                  Build s (sort s)
                    (nth_perm (length s) (sort s)
                              (rank s (sort s) mod zfact (length s)))
                    (to_size_t 0) (dx_ (make s 0))).
  { unfold make. cbn [dx_]. rewrite Z.mod_small by exact Br.
    rewrite (nth_perm_rank s (sort s) Nd' P). reflexivity. }
  rewrite Start at 1.
  rewrite (steps_forward (sort s) (length s) Asc (sort_length s)).
  reflexivity.
Qed.

Lemma arrangement_after_all :
  arrangement_after s (Z.to_nat (zfact (length s))) = s.
Proof.
  pose proof (sort_asc s s_distinct) as Asc.
  pose proof (Permutation_sym (sort_perm s)) as P.
  pose proof (asc_NoDup _ Asc) as Nd'.
  pose proof (rank_bounds s (sort s) Nd' P) as Br.
  pose proof (zfact_pos (length s)) as Pos.
  unfold arrangement_after. rewrite Z2Nat.id by lia.
  rewrite <- Z.add_mod_idemp_r, Z.mod_same, Z.add_0_r, Z.mod_small by lia.
  apply nth_perm_rank; assumption.
Qed.

Lemma visit_arrangements (extra : nat) :
  forall m k, (k + m = Z.to_nat (zfact (length s)))%nat ->
    RangeContainer.visit (S m + extra) (Nat.iter k incr (make s 0))
                         (make s (zfact (length s))) =
    Some (map (arrangement_after s) (seq k m)).
Proof.
  pose proof (zfact_pos (length s)) as Pos.
  pose proof (zfact_fits_size _ s_short) as Fit.
  induction m as [|m IH]; intros k E.
  - change (S O + extra)%nat with (S extra). rewrite visit_unfold.
    rewrite state_after. cbn [are_equal iterator]. unfold equal, make.
    cbn [orig_set_ set_ offset_].
    replace k with (Z.to_nat (zfact (length s))) by lia.
    rewrite arrangement_after_all, Z2Nat.id by lia.
    rewrite !seq_eqb_refl, to_size_t_small, Z.eqb_refl by lia. reflexivity.
  - change (S (S m) + extra)%nat with (S (S m + extra)). rewrite visit_unfold.
    pose proof (state_after k) as Hst.
    set (st := Nat.iter k incr (make s 0)) in *.
    assert (Ne : are_equal st (make s (zfact (length s))) = false).
    { rewrite Hst. cbn [are_equal iterator]. unfold equal, make.
      cbn [orig_set_ set_ offset_].
      rewrite (to_size_t_small (Z.of_nat k)) by lia.
      destruct (Z.eqb_spec (Z.of_nat k) (zfact (length s))) as [Eq|_]; [lia|].
      apply andb_false_r. }
    assert (Ed : dereference st = arrangement_after s k)
      by (rewrite Hst; reflexivity).
    rewrite Ne, Ed. cbn [increment iterator].
    change (incr st) with (Nat.iter (S k) incr (make s 0)).
    rewrite (IH (S k)) by lia. reflexivity.
Qed.

(** Permutations of at most 20 distinct elements: the traversal visits
    as many arrangements as [n_permutations] counts, by increasing rank
    from the rank of the input sequence, wrapping around. *)
Lemma permutations_in_rank_order (extra : nat) :
  RangeContainer.elements (S (Z.to_nat (n_permutations s)) + extra)
                          (Permutations s) =
  Some (map (arrangement_after s) (seq 0 (Z.to_nat (n_permutations s)))).
Proof.
  unfold RangeContainer.elements, Permutations.
  cbn [RangeContainer.start_ RangeContainer.end_].
  rewrite (n_permutations_distinct s s_distinct s_short).
  exact (visit_arrangements extra _ O eq_refl).
Qed.

Lemma same_rank_modulo (N r a b : Z) :
  0 <= a < N -> 0 <= b < N -> (r + a) mod N = (r + b) mod N -> a = b.
Proof.
  intros A B E.
  pose proof (Z.div_mod (r + a) N ltac:(lia)) as Da.
  pose proof (Z.div_mod (r + b) N ltac:(lia)) as Db.
  rewrite E in Da.
  destruct (Z.lt_trichotomy ((r + a) / N) ((r + b) / N)) as [Lt|[Eq|Gt]];
    [nia | rewrite Eq in Da; lia | nia].
Qed.

(** Each arrangement of the elements is visited, and none twice. *)
Lemma permutations_each_once :
  let visited :=
    map (arrangement_after s) (seq 0 (Z.to_nat (n_permutations s))) in
  NoDup visited /\
  (forall p, In p visited -> Permutation p s) /\
  (forall p, Permutation p s -> In p visited).
Proof.
  pose proof (sort_asc s s_distinct) as Asc.
  pose proof (Permutation_sym (sort_perm s)) as P.
  pose proof (asc_NoDup _ Asc) as Nd'.
  pose proof (rank_bounds s (sort s) Nd' P) as Br.
  pose proof (zfact_pos (length s)) as Pos.
  pose proof (sort_length s) as Len.
  cbv zeta. rewrite (n_permutations_distinct s s_distinct s_short).
  split; [|split].
  - apply NoDup_map_NoDup_ForallPairs; [|apply seq_NoDup].
    intros k1 k2 M1 M2 E. apply in_seq in M1, M2.
    unfold arrangement_after in E.
    apply (f_equal (fun p => rank p (sort s))) in E.
    rewrite <- Len in E at 1 3.
    rewrite !(proj1 (rank_nth_perm _ _ _ Nd' eq_refl
                       ltac:(rewrite Len; apply Z.mod_pos_bound; lia))) in E.
    apply same_rank_modulo in E; lia.
  - intros p M. apply in_map_iff in M as (k & <- & _).
    unfold arrangement_after. rewrite <- Len at 1.
    rewrite (proj2 (rank_nth_perm _ _ _ Nd' eq_refl
                      ltac:(rewrite Len; apply Z.mod_pos_bound; lia))).
    apply sort_perm.
  - intros p Pp.
    assert (Pp' : Permutation p (sort s)) by (rewrite Pp; exact P).
    pose proof (rank_bounds p (sort s) Nd' Pp') as Bp.
    pose proof (Permutation_length Pp) as Lp. rewrite Lp in Bp.
    apply in_map_iff.
    exists (Z.to_nat ((rank p (sort s) - rank s (sort s)) mod zfact (length s))).
    pose proof (Z.mod_pos_bound (rank p (sort s) - rank s (sort s))
                  (zfact (length s)) Pos) as Bk.
    split; [|apply in_seq; lia].
    unfold arrangement_after. rewrite Z2Nat.id by lia.
    rewrite Z.add_mod_idemp_r by lia.
    replace (rank s (sort s) + (rank p (sort s) - rank s (sort s)))
      with (rank p (sort s)) by lia.
    rewrite Z.mod_small by lia. rewrite <- Lp.
    apply nth_perm_rank; assumption.
Qed.

End IterationFacts.

Section MaskFacts.

(** The mask of [CombinationItr] for [k = 0]: nothing but [true]. *)
Lemma sort_all_true (n : nat) :
  sort (List.repeat true n) = List.repeat true n.
Proof.
  induction n as [|n IH]; [reflexivity|].
  cbn [List.repeat sort]. rewrite IH. destruct n; reflexivity.
Qed.

Lemma count_all_true (n : nat) : count true (List.repeat true n) = n.
Proof. induction n as [|n IH]; [reflexivity|]. cbn. rewrite IH. reflexivity. Qed.

Lemma count_runs_nil {A : Type} `{Elem A} (turns : nat) :
  count_runs turns (@nil A) = [].
Proof. destruct turns; reflexivity. Qed.

Lemma multinomial_single_small :
  forallb (fun n => multinomial_coefficient [Z.of_nat n] =? 1) (seq 1 62) = true.
Proof. vm_compute. reflexivity. Qed.

(** Up to 62 elements the mask has exactly one permutation, and
    [n_permutations] says so. *)
Lemma n_permutations_all_true (n : nat) :
  (n <= 62)%nat -> n_permutations (List.repeat true n) = 1.
Proof.
  intros L. unfold n_permutations. rewrite sort_all_true, repeat_length.
  destruct n as [|n]; [reflexivity|].
  cbn [count_runs List.repeat]. fold (List.repeat true (S n)).
  change (true :: List.repeat true n) with (List.repeat true (S n)).
  rewrite count_all_true, skipn_all2, count_runs_nil
    by (rewrite repeat_length; lia).
  pose proof multinomial_single_small as F. rewrite forallb_forall in F.
  apply Z.eqb_eq, F, in_seq. lia.
Qed.

Lemma rev_all_true (n : nat) : rev (List.repeat true n) = List.repeat true n.
Proof.
  induction n as [|n IH]; [reflexivity|].
  cbn [List.repeat rev]. rewrite IH. symmetry. apply repeat_cons.
Qed.

Lemma next_permutation_all_true (n : nat) :
  next_permutation (List.repeat true n) = (List.repeat true n, false).
Proof.
  unfold next_permutation. rewrite step_last, rev_all_true; [reflexivity|].
  unfold last_arrangement.
  induction n as [|n IH]; [constructor|].
  cbn [List.repeat]. constructor; [exact IH|].
  destruct n; constructor. reflexivity.
Qed.

Lemma seq_eqb_refl_bool (l : list bool) : seq_eqb l l = true.
Proof.
  induction l as [|x t IH]; [reflexivity|].
  cbn [seq_eqb eqb Elem_bool]. rewrite Bool.eqb_reflx. exact IH.
Qed.

(** With an empty combination buffer, [update_comb] leaves on the first
    [true] of the mask. *)
Lemma update_loop_all_true {repeat : bool} (set : list Z) (n i b : nat) :
  CombinationItr.update_loop (repeat := repeat) set (List.repeat true n)
                             i O b [] = Some [].
Proof. destruct n; reflexivity. Qed.

Lemma mask_first_not_last (m : nat) :
  PermutationItr.equal (PermutationItr.make (List.repeat true m) 0)
                       (PermutationItr.make (List.repeat true m) 1) = false.
Proof.
  unfold PermutationItr.equal, PermutationItr.make.
  cbn [PermutationItr.orig_set_ PermutationItr.set_ PermutationItr.offset_].
  rewrite !seq_eqb_refl_bool. reflexivity.
Qed.

Lemma mask_second_set (m : nat) :
  PermutationItr.set_
    (PermutationItr.incr (PermutationItr.make (List.repeat true m) 0))
  = List.repeat true m.
Proof.
  unfold PermutationItr.incr, PermutationItr.make.
  cbn [PermutationItr.set_]. rewrite next_permutation_all_true. reflexivity.
Qed.

Lemma mask_second_is_last (m : nat) :
  PermutationItr.equal
    (PermutationItr.incr (PermutationItr.make (List.repeat true m) 0))
    (PermutationItr.make (List.repeat true m) 1) = true.
Proof.
  unfold PermutationItr.equal. rewrite mask_second_set.
  unfold PermutationItr.incr, PermutationItr.make.
  cbn [PermutationItr.orig_set_ PermutationItr.set_ PermutationItr.offset_].
  rewrite !seq_eqb_refl_bool. reflexivity.
Qed.

(** Choosing none: over a mask of [m <= 62] times [true] the traversal
    from the first to the last iterator visits exactly the empty
    combination. *)
Lemma visit_none {repeat : bool} (s : list Z) (m : nat) (extra : nat) :
  (m <= 62)%nat ->
  let perms := PermutationItr.Permutations (List.repeat true m) in
  RangeContainer.visit (2 + extra)
    (CombinationItr.Build (repeat := repeat) s []
                          (RangeContainer.start_ perms))
    (CombinationItr.Build s [] (RangeContainer.end_ perms)) = Some [[]].
Proof.
  intros L. cbv zeta. unfold PermutationItr.Permutations.
  cbn [RangeContainer.start_ RangeContainer.end_].
  rewrite (n_permutations_all_true m L).
  change (2 + extra)%nat with (S (S extra)).
  rewrite visit_unfold.
  cbn [are_equal increment dereference CombinationItr.iterator].
  unfold CombinationItr.equal, CombinationItr.incr, CombinationItr.update_comb.
  cbn [CombinationItr.set_ CombinationItr.current_perm_ CombinationItr.comb_].
  rewrite seq_eqb_refl, mask_first_not_last. cbn [andb].
  unfold PermutationItr.deref. rewrite mask_second_set, update_loop_all_true.
  cbn [option_map]. rewrite visit_unfold.
  cbn [are_equal CombinationItr.iterator].
  unfold CombinationItr.equal.
  cbn [CombinationItr.set_ CombinationItr.current_perm_].
  rewrite seq_eqb_refl, mask_second_is_last. reflexivity.
Qed.

Lemma update_comb_none {repeat : bool} (s : list Z) (m : nat) (off : Z) :
  CombinationItr.update_comb
    (CombinationItr.Build (repeat := repeat) s []
                          (PermutationItr.make (List.repeat true m) off))
  = Some (CombinationItr.Build s []
                               (PermutationItr.make (List.repeat true m) off)).
Proof.
  unfold CombinationItr.update_comb, PermutationItr.deref, PermutationItr.make.
  cbn [CombinationItr.set_ CombinationItr.comb_ CombinationItr.current_perm_
       PermutationItr.set_].
  rewrite update_loop_all_true. reflexivity.
Qed.

(** Choosing none from a sequence of at most 62 elements (at most 63
    with repeats) yields exactly one result, the empty combination. *)
Lemma combinations_none_small (s : list Z) (extra : nat) :
  ((length s <= 62)%nat ->
   all_elements (2 + extra) (Combinations s 0) = Some [[]]) /\
  ((length s <= 63)%nat ->
   all_elements (2 + extra) (CombinationsWithRepeat s 0) = Some [[]]).
Proof.
  split; intros L.
  - unfold Combinations, container, CombinationItr.make.
    cbn [negb CombinationItr.mask Nat.leb List.repeat app].
    rewrite Nat.sub_0_r.
    unfold PermutationItr.Permutations.
    cbn [RangeContainer.start_ RangeContainer.end_].
    rewrite !update_comb_none.
    unfold binomial_coefficient. rewrite eval_zero.
    cbn [all_elements]. unfold RangeContainer.elements.
    cbn [RangeContainer.start_ RangeContainer.end_].
    exact (visit_none s (length s) extra L).
  - unfold CombinationsWithRepeat, container, CombinationItr.make.
    cbn [negb].
    set (m := if (negb (length s =? 0)%nat || negb (0 =? 0)%nat)
              then Z.to_nat (to_size_t (Z.of_nat (length s) + Z.of_nat 0 - 1))
              else O).
    assert (Lm : (m <= 62)%nat).
    { subst m. destruct (length s) as [|n] eqn:E; cbn [Nat.eqb negb orb]; [lia|].
      rewrite to_size_t_small by (unfold size_max; lia). lia. }
    cbn [CombinationItr.mask Nat.leb List.repeat app].
    rewrite Nat.sub_0_r.
    unfold PermutationItr.Permutations.
    cbn [RangeContainer.start_ RangeContainer.end_].
    rewrite !update_comb_none.
    unfold binomial_coefficient. rewrite eval_zero.
    cbn [all_elements]. unfold RangeContainer.elements.
    cbn [RangeContainer.start_ RangeContainer.end_].
    exact (visit_none s m extra Lm).
Qed.

End MaskFacts.

(** Where [advance] does agree with single steps, and where it hangs.
    For every sequence [s] of at most 20 distinct elements
    whose rank among its arrangements fits an [int] (every sequence of
    at most 12 distinct elements qualifies) and every iterator [a]
    reached from [PermutationItr(s, 0)] by [j] single steps (increments
    for [j >= 0], decrements for [j < 0]):
    when the target rank [dx + j + n] lies in [[0, n_permutations s)],
    [advance(n)] returns, and the advanced copy of [a] is equal by value
    (under [operator==], and in every field) to the iterator obtained
    from [a] by [n] single steps (increments for positive [n],
    decrements for negative [n]);
    when [s] is not empty and the target [offset_ + dx_ + n], as the
    [std::size_t] that [advance] computes, is not below
    [n_permutations s], [advance(n)] never returns. *)
Theorem advance_agrees_with_single_steps (s : list Z) (j n : Z) :
  NoDup s -> (length s <= 20)%nat -> rank s (sort s) < 2 ^ 31 ->
  let a := PermutationItr.step_by (PermutationItr.make s 0) j in
  (0 <= PermutationItr.dx_ a + j + n < n_permutations s ->
   forall extra : nat,
   exists b,
     PermutationItr.advance (S (length s) + extra) a n = Some b /\
     PermutationItr.equal b (PermutationItr.step_by a n) = true /\
     b = PermutationItr.step_by a n) /\
  (s <> [] ->
   n_permutations s <=
     to_size_t (PermutationItr.offset_ a + PermutationItr.dx_ a + n) ->
   forall fuel : nat, PermutationItr.advance fuel a n = None).
Proof.
  intros Nd L Fi.
  pose proof (sort_asc s Nd) as Asc.
  pose proof (sort_length s) as Len.
  pose proof (Permutation_sym (sort_perm s)) as P.
  pose proof (asc_NoDup _ Asc) as Nd'.
  pose proof (rank_bounds s (sort s) Nd' P) as Br.
  pose proof (zfact_pos (length s)) as Pos.
  pose proof (zfact_fits_size (length s) L) as Fit.
  assert (Start : PermutationItr.make s 0 =
                  PermutationItr.Build s (sort s)
                    (nth_perm (length s) (sort s)
                              (rank s (sort s) mod zfact (length s)))
                    (to_size_t 0) (rank s (sort s))).
  { unfold PermutationItr.make.
    rewrite (permutation_to_decimal_exact s (sort s) Nd' P L Fi).
    rewrite Z.mod_small by exact Br.
    rewrite (nth_perm_rank s (sort s) Nd' P). reflexivity. }
  rewrite Start.
  rewrite (step_by_rank (sort s) (length s) Asc Len).
  cbv zeta. cbn [PermutationItr.dx_ PermutationItr.offset_].
  rewrite (n_permutations_distinct s Nd L). split.
  - intros B extra.
    rewrite (step_by_rank (sort s) (length s) Asc Len).
    eexists. split; [|split; [apply equal_refl | reflexivity]].
    unfold PermutationItr.advance.
    cbn [PermutationItr.orig_set_ PermutationItr.sorted_orig_
         PermutationItr.offset_ PermutationItr.dx_].
    assert (ED : to_size_t (to_size_t (0 + j) + rank s (sort s) + n)
                 = rank s (sort s) + j + n).
    { unfold to_size_t. rewrite <- Z.add_assoc, Z.add_mod_idemp_l
        by (unfold size_max; lia).
      rewrite Z.mod_small by (unfold size_max in *; lia). lia. }
    rewrite ED.
    rewrite <- Len at 1.
    rewrite (decimal_to_permutation_distinct (sort s) _ extra Nd')
      by (rewrite Len; lia).
    rewrite Len. rewrite (Z.mod_small (rank s (sort s) + j + n)) by lia.
    f_equal. f_equal.
    unfold to_size_t. rewrite Z.add_mod_idemp_l by (unfold size_max; lia).
    reflexivity.
  - intros NE B fuel. unfold PermutationItr.advance.
    cbn [PermutationItr.orig_set_ PermutationItr.sorted_orig_
         PermutationItr.offset_ PermutationItr.dx_].
    rewrite decimal_to_permutation_out_of_range;
      [reflexivity | exact Nd' | | rewrite Len; exact L
       | rewrite Len; exact B].
    intros E. apply NE. destruct s; [reflexivity|].
    rewrite E in Len. discriminate Len.
Qed.

Lemma advance_agrees_with_single_steps_witness :
  (exists b,
     PermutationItr.advance 4
       (PermutationItr.step_by (PermutationItr.make [1; 3; 2] 0) 1) 3 = Some b /\
     PermutationItr.equal b
       (PermutationItr.step_by
          (PermutationItr.step_by (PermutationItr.make [1; 3; 2] 0) 1) 3) = true /\
     b = PermutationItr.step_by
           (PermutationItr.step_by (PermutationItr.make [1; 3; 2] 0) 1) 3) /\
  PermutationItr.advance 9
    (PermutationItr.step_by (PermutationItr.make [1; 3; 2] 0) 1) 4 = None.
Proof.
  assert (Nd : NoDup [1; 3; 2]) by (repeat constructor; cbn; intuition lia).
  assert (L : (length [1; 3; 2] <= 20)%nat) by (cbn; lia).
  assert (Fi : rank [1; 3; 2] (sort [1; 3; 2]) < 2 ^ 31)
    by (vm_compute; reflexivity).
  split.
  - apply (proj1 (advance_agrees_with_single_steps [1; 3; 2] 1 3 Nd L Fi)).
    vm_compute. split; [discriminate | reflexivity].
  - apply (proj2 (advance_agrees_with_single_steps [1; 3; 2] 1 4 Nd L Fi)).
    + discriminate.
    + vm_compute. discriminate.
Defined.

(** On the multisets of the test suite, whose cached ranks happen to be
    exact, [advance] agrees with single steps for every starting position
    and every target rank in range. *)
Lemma advance_agrees_on_test_multisets :
  forallb (fun s =>
    forallb (fun j =>
      forallb (fun target => advance_matches 6 s (Z.of_nat j) (Z.of_nat target))
              (seq 0 (Z.to_nat (n_permutations s))))
      (seq 0 (Z.to_nat (n_permutations s))))
    [[1; 2; 2]; [2; 1; 2]; [1; 3; 3; 7]; [3; 7; 1; 3]] = true.
Proof. vm_compute. reflexivity. Qed.

(** With 13 distinct elements the rank need not fit the [int] accumulator
    of [std::inner_product]: the rank 2874009600 of this arrangement is
    cached as 2874009600 - 2^32 converted to [std::size_t]. *)
Lemma cached_rank_overflows_int :
  let s := [7; 1; 2; 3; 4; 5; 6; 8; 9; 10; 11; 12; 13] in
  rank s (sort s) = 2874009600 /\
  PermutationItr.dx_ (PermutationItr.make s 0) = 18446744072288593920.
Proof. split; vm_compute; reflexivity. Qed.

(** C2.  [advance] does not do what single steps do.  From the first
    permutation of {1,2,3}, six single steps reach the end iterator, but
    [advance(6)] asks [decimal_to_fns] for rank 6 of 6 and never returns.
    From {2,1,1,2}, whose cached rank is 2 instead of 3, [advance(0)]
    moves to {1,2,2,1} while no step leaves the iterator where it is. *)
Lemma advance_differs_from_single_steps :
  (PermutationItr.step_by (PermutationItr.make [1; 2; 3] 0) 6 =
   PermutationItr.make [1; 2; 3] 6 /\
   forall fuel : nat,
     PermutationItr.advance fuel (PermutationItr.make [1; 2; 3] 0) 6 = None) /\
  (exists b,
     PermutationItr.advance 5 (PermutationItr.make [2; 1; 1; 2] 0) 0 = Some b /\
     PermutationItr.deref b = [1; 2; 2; 1] /\
     PermutationItr.equal b
       (PermutationItr.step_by (PermutationItr.make [2; 1; 1; 2] 0) 0) = false).
Proof.
  split; [split|].
  - vm_compute. reflexivity.
  - intros fuel. unfold PermutationItr.advance, decimal_to_permutation,
      decimal_to_fns.
    change (sort (PermutationItr.sorted_orig_ (PermutationItr.make [1; 2; 3] 0)))
      with [1; 2; 3].
    change (to_size_t _) with 6.
    rewrite (digits_loop_diverges 6 1 [2; 3] []); [reflexivity|].
    vm_compute. reflexivity.
  - eexists. split; [vm_compute; reflexivity|].
    split; vm_compute; reflexivity.
Qed.

(** ** Exact values of the binomial coefficients *)

Section PascalFacts.

Lemma pascal_above (n k : nat) : (n < k)%nat -> pascal n k = 0.
Proof.
  revert k. induction n as [|n IH]; intros k L.
  - destruct k; [lia | reflexivity].
  - destruct k as [|k]; [lia|]. cbn [pascal].
    rewrite !IH by lia. reflexivity.
Qed.

Lemma pascal_diag (n : nat) : pascal n n = 1.
Proof.
  induction n as [|n IH]; [reflexivity|]. cbn [pascal].
  rewrite IH, pascal_above by lia. reflexivity.
Qed.

Lemma zfact_succ (n : nat) : zfact (S n) = Z.of_nat (S n) * zfact n.
Proof. reflexivity. Qed.

(** Pascal's triangle holds the quotients [n! / (k! (n-k)!)]. *)
Lemma pascal_fact (n : nat) :
  forall k, (k <= n)%nat -> pascal n k * zfact k * zfact (n - k) = zfact n.
Proof.
  induction n as [|n IH]; intros k L.
  - replace k with O by lia. reflexivity.
  - destruct k as [|k].
    + cbn [pascal]. rewrite Nat.sub_0_r. change (zfact 0) with 1. lia.
    + destruct (Nat.eq_dec k n) as [->|N].
      * rewrite pascal_diag, Nat.sub_diag. change (zfact 0) with 1. lia.
      * cbn [pascal].
        pose proof (IH k ltac:(lia)) as A.
        pose proof (IH (S k) ltac:(lia)) as B.
        replace (S n - S k)%nat with (n - k)%nat by lia.
        replace (n - k)%nat with (S (n - S k)) in A |- * by lia.
        rewrite (zfact_succ n).
        rewrite (zfact_succ k) in B |- *.
        rewrite (zfact_succ (n - S k)) in A |- *.
        set (a := pascal n k) in *. set (b := pascal n (S k)) in *.
        set (fk := zfact k) in *. set (fd := zfact (n - S k)) in *.
        set (fn := zfact n) in *.
        replace (Z.of_nat (S n)) with (Z.of_nat (S k) + Z.of_nat (S (n - S k)))
          by lia.
        set (u := Z.of_nat (S k)) in *. set (v := Z.of_nat (S (n - S k))) in *.
        transitivity (u * (a * fk * (v * fd)) + v * (b * (u * fk) * fd));
          [ring | rewrite A, B; ring].
Qed.

Lemma pascal_bounds (n : nat) : forall k, 0 <= pascal n k <= 2 ^ Z.of_nat n.
Proof.
  induction n as [|n IH]; intros k.
  - destruct k; cbn; lia.
  - destruct k as [|k].
    + cbn [pascal]. split; [lia|].
      apply (Z.pow_le_mono_r 2 0); lia.
    + cbn [pascal]. pose proof (IH k). pose proof (IH (S k)).
      rewrite Nat2Z.inj_succ, Z.pow_succ_r by lia. lia.
Qed.

(** Below 64 the recursion of [BCImpl::eval] walks Pascal's triangle
    without ever wrapping around. *)
Lemma eval_pascal (n : nat) :
  forall k, (n < 64)%nat -> eval n k = Value (pascal n k).
Proof.
  induction n as [|n IH]; intros k L.
  - destruct k; reflexivity.
  - destruct k as [|k]; [reflexivity|].
    cbn [eval].
    destruct (Nat.ltb_spec (S n) (S k)) as [Lt|Ge].
    + rewrite pascal_above by lia. reflexivity.
    + destruct (Z.ltb_spec (Z.of_nat (S n)) size_bits) as [_|B];
        [|unfold size_bits in B; lia].
      rewrite !IH by lia. cbn [add_size pascal]. f_equal.
      apply to_size_t_small.
      pose proof (pascal_bounds n k). pose proof (pascal_bounds n (S k)).
      assert (2 ^ Z.of_nat n <= 2 ^ 62) by (apply Z.pow_le_mono_r; lia).
      unfold size_max. lia.
Qed.

End PascalFacts.

(** X1.  For [n < 64] and [k <= n], [binomial_coefficient(n, k)] returns
    the exact binomial coefficient: the value [v] with
    [v * k! * (n-k)! = n!]; no addition of the recursion wraps around. *)
Theorem binomial_coefficient_exact (n k : nat) :
  (n < 64)%nat -> (k <= n)%nat ->
  exists v, binomial_coefficient n k = Value v /\
            v * zfact k * zfact (n - k) = zfact n.
Proof.
  intros L K. exists (pascal n k). split.
  - apply eval_pascal, L.
  - apply pascal_fact, K.
Qed.

Lemma binomial_coefficient_exact_witness :
  exists v, binomial_coefficient 6 2 = Value v /\
            v * zfact 2 * zfact (6 - 2) = zfact 6.
Proof. apply (binomial_coefficient_exact 6 2); lia. Defined.

(** ** Exact values of the multinomial coefficients *)

Section MultinomialFacts.

Lemma fact_product_pos (ns : list nat) : 0 < fact_product ns.
Proof.
  induction ns as [|n ns IH]; cbn [fact_product]; [lia|].
  pose proof (zfact_pos n). nia.
Qed.

Lemma zfact_ge (n : nat) : Z.of_nat n <= zfact n.
Proof.
  induction n as [|n IH]; [cbn; lia|].
  rewrite zfact_succ. pose proof (zfact_pos n). nia.
Qed.

(** The product of the factorials of the parts divides the factorial of
    their sum. *)
Lemma multinomial_integral (ns : list nat) :
  exists q, q * fact_product ns = zfact (total ns).
Proof.
  induction ns as [|n ns [q IH]].
  - exists 1. reflexivity.
  - exists (pascal (n + total ns) n * q). cbn [fact_product total].
   
    rewrite <- (pascal_fact (n + total ns) n) by lia.
    replace (n + total ns - n)%nat with (total ns) by lia.
    rewrite <- IH. ring.
Qed.

(** The inner loop of [MCImpl::eval] on a group, [j] of whose turns are
    done: with [result = N! / (done! j! M!)] it leaves
    [N! / (done! (j+cnt)! (M-cnt)!)], every division being exact. *)
Lemma mc_inner_exact (N : nat) (done : list nat) (cnt : nat) :
  forall (j M : nat) (R : Z),
  zfact N < size_max ->
  (cnt <= M)%nat -> N = (total done + j + M)%nat ->
  R * (fact_product done * zfact j * zfact M) = zfact N ->
  exists R',
    mc_inner cnt (Z.of_nat j + 1) (R, Z.of_nat M)
    = (R', Z.of_nat (M - cnt)) /\
    R' * (fact_product done * zfact (j + cnt) * zfact (M - cnt)) = zfact N.
Proof.
  induction cnt as [|cnt IH]; intros j M R Fit L EN Inv.
  - exists R. rewrite Nat.sub_0_r, Nat.add_0_r. split; [reflexivity|exact Inv].
  - destruct M as [|M]; [lia|].
    cbn [mc_inner].
    pose proof (fact_product_pos done) as Pd.
    pose proof (zfact_pos j) as Pj. pose proof (zfact_pos M) as PM.
    pose proof (zfact_pos N) as PN.
    destruct (multinomial_integral (S j :: M :: done)) as [q Eq].
    cbn [fact_product total] in Eq.
    replace (S j + (M + total done))%nat with N in Eq by lia.
    rewrite (zfact_succ j) in Eq. rewrite (zfact_succ M) in Inv.
    set (c := fact_product done * zfact j * zfact M) in *.
    assert (Pc : 0 < c) by (subst c; nia).
    assert (Ex : R * Z.of_nat (S M) = q * Z.of_nat (S j)).
    { apply (Z.mul_cancel_r _ _ c); [lia|].
      transitivity (zfact N); [rewrite <- Inv | rewrite <- Eq];
        subst c; ring. }
    assert (RM : 0 < R * Z.of_nat (S M) <= zfact N).
    { assert (R * Z.of_nat (S M) * c = zfact N)
        by (rewrite <- Inv; subst c; ring).
      split; nia. }
    rewrite (to_size_t_small (R * Z.of_nat (S M))) by lia.
    pose proof (zfact_ge N) as GN.
    rewrite (to_size_t_small (Z.of_nat (S M) - 1)) by lia.
    replace (Z.of_nat j + 1) with (Z.of_nat (S j)) by lia.
    rewrite Ex, Z.mod_mul, Z.sub_0_r, Z.div_mul by lia.
    replace (Z.of_nat (S M) - 1) with (Z.of_nat M) by lia.
    replace (Z.of_nat (S j) + 1) with (Z.of_nat (S j) + 1) by lia.
    destruct (IH (S j) M q Fit ltac:(lia) ltac:(lia)) as (R' & E & I').
    { rewrite <- Eq. rewrite (zfact_succ j). subst c. ring. }
    exists R'. replace (S M - S cnt)%nat with (M - cnt)%nat by lia.
    replace (j + S cnt)%nat with (S j + cnt)%nat by lia.
    split; [|exact I'].
    rewrite <- E. f_equal.
Qed.

(** The outer loop over the groups. *)
Lemma mc_groups_exact (N : nat) (ns : list nat) :
  forall (done : list nat) (M : nat) (R : Z),
  zfact N < size_max ->
  (total ns <= M)%nat -> N = (total done + M)%nat ->
  R * (fact_product done * zfact M) = zfact N ->
  exists R',
    fold_left (fun st k => mc_inner (Z.to_nat k) 1 st) (map Z.of_nat ns)
              (R, Z.of_nat M)
    = (R', Z.of_nat (M - total ns)) /\
    R' * (fact_product ns * fact_product done * zfact (M - total ns))
    = zfact N.
Proof.
  induction ns as [|n ns IH]; intros done M R Fit L EN Inv.
  - exists R. cbn [map fold_left total fact_product].
    rewrite Nat.sub_0_r. split; [reflexivity|]. rewrite <- Inv. ring.
  - cbn [map fold_left total] in *.
    rewrite Nat2Z.id.
    destruct (mc_inner_exact N done n O M R Fit ltac:(lia) ltac:(lia))
      as (R1 & E1 & I1).
    { change (zfact 0) with 1. rewrite <- Inv. ring. }
    change (Z.of_nat 0 + 1) with 1 in E1. rewrite E1.
    cbn [Nat.add] in I1.
    destruct (IH (n :: done) (M - n)%nat R1 Fit ltac:(lia))
      as (R' & E & I').
    { cbn [total]. lia. }
    { cbn [fact_product]. rewrite <- I1. ring. }
    exists R'. replace (M - (n + total ns))%nat with (M - n - total ns)%nat
      by lia.
    split; [exact E|].
    rewrite <- I'. cbn [fact_product]. ring.
Qed.

Lemma accumulate_counts (ns : list nat) :
  forall acc, 0 <= acc -> acc + Z.of_nat (total ns) < 2 ^ 31 ->
  fold_left (fun acc k => to_int (to_size_t (to_size_t acc + k)))
            (map Z.of_nat ns) acc = acc + Z.of_nat (total ns).
Proof.
  induction ns as [|n ns IH]; intros acc A B; [cbn; lia|].
  cbn [map fold_left total] in *.
  rewrite int_accumulate_step by lia. rewrite IH by lia. lia.
Qed.

Lemma multinomial_counts (ns : list nat) :
  (total ns <= 20)%nat ->
  multinomial_coefficient (map Z.of_nat ns) * fact_product ns
  = zfact (total ns).
Proof.
  intros L. unfold multinomial_coefficient, mc_eval, accumulate_int.
  rewrite accumulate_counts by lia. cbn [Z.add].
  rewrite to_size_t_small by (unfold size_max; lia).
  destruct (mc_groups_exact (total ns) ns [] (total ns) 1
              (zfact_fits_size _ L) ltac:(lia) ltac:(reflexivity))
    as (R' & E & I).
  { cbn [fact_product]. lia. }
  rewrite E. cbn [fst]. rewrite <- I, Nat.sub_diag.
  cbn [fact_product]. change (zfact 0) with 1. ring.
Qed.

End MultinomialFacts.

(** X2.  For counts [ks] that sum to at most 20,
    [multinomial_coefficient(ks)] is the exact multinomial coefficient:
    multiplied by the product of the factorials of the counts it gives
    the factorial of their sum. *)
Theorem multinomial_coefficient_exact (ns : list nat) :
  (total ns <= 20)%nat ->
  multinomial_coefficient (map Z.of_nat ns) * fact_product ns
  = zfact (total ns).
Proof. exact (multinomial_counts ns). Qed.

Lemma multinomial_coefficient_exact_witness :
  multinomial_coefficient (map Z.of_nat [2; 0; 3]%nat)
  * fact_product [2; 0; 3]%nat = zfact (total [2; 0; 3]%nat).
Proof. apply (multinomial_coefficient_exact [2; 0; 3]%nat). cbn. lia. Defined.

(** ** Counting the arrangements of a multiset *)

Section SortFacts.

Lemma insert_ascending (x : Z) (l : list Z) :
  ascending l -> ascending (insert x l).
Proof.
  unfold ascending. induction l as [|y t IH]; intros S; cbn [insert].
  - repeat constructor.
  - cbn [ltb Elem_Z]. destruct (Z.ltb_spec y x) as [L|G].
    + inversion S as [|? ? S' Hd]; subst. constructor; [auto|].
      destruct t as [|z t']; cbn [insert].
      * constructor. apply Z.ltb_ge. lia.
      * cbn [ltb Elem_Z]. destruct (Z.ltb_spec z x); constructor.
        -- inversion Hd; assumption.
        -- apply Z.ltb_ge. lia.
    + constructor; [exact S|]. constructor. apply Z.ltb_ge. lia.
Qed.

Lemma sort_ascending (l : list Z) : ascending (sort l).
Proof.
  induction l as [|x t IH]; cbn [sort]; [constructor|].
  apply insert_ascending, IH.
Qed.

Lemma lex_leb_antisym (l1 l2 : list Z) :
  lex_leb l1 l2 = true -> lex_leb l2 l1 = true -> l1 = l2.
Proof.
  revert l2. induction l1 as [|x t1 IH]; intros [|y t2]; cbn;
    try discriminate; [reflexivity|].
  intros A B.
  destruct (Z.ltb_spec x y), (Z.ltb_spec y x); try lia.
  assert (x = y) by lia. subst y. rewrite Z.eqb_refl in A, B. cbn in A, B.
  f_equal. auto.
Qed.

(** A multiset has one ascending arrangement. *)
Lemma ascending_unique (l1 l2 : list Z) :
  ascending l1 -> ascending l2 -> Permutation l1 l2 -> l1 = l2.
Proof.
  intros S1 S2 P. apply lex_leb_antisym.
  - apply (ascending_least l1 S1). symmetry. exact P.
  - apply (ascending_least l2 S2). exact P.
Qed.

Lemma sort_order_independent (s s' : list Z) :
  Permutation s s' -> sort s = sort s'.
Proof.
  intros P. apply ascending_unique; try apply sort_ascending.
  rewrite !sort_perm. exact P.
Qed.

Lemma ascending_repeat_app (v : Z) (m : nat) (rest : list Z) :
  ascending rest -> Forall (fun y => v <= y) rest ->
  ascending (List.repeat v m ++ rest).
Proof.
  unfold ascending. intros S F. induction m as [|m IH]; [exact S|].
  cbn [List.repeat app]. constructor; [exact IH|].
  destruct m as [|m]; cbn [List.repeat app].
  - destruct F; constructor. apply Z.ltb_ge. lia.
  - constructor. apply Z.ltb_irrefl.
Qed.

Lemma blocks_in (vs : list Z) :
  forall ms x, In x (blocks vs ms) -> In x vs.
Proof.
  induction vs as [|v vs IH]; intros [|m ms] x M; cbn [blocks] in M;
    try contradiction.
  apply in_app_or in M as [M|M].
  - apply repeat_spec in M. left. auto.
  - right. eauto.
Qed.

Lemma blocks_ascending (vs : list Z) :
  asc vs -> forall ms, ascending (blocks vs ms).
Proof.
  induction vs as [|v vs IH]; intros S [|m ms]; cbn [blocks];
    try constructor.
  apply asc_cons_iff in S as [S F].
  apply ascending_repeat_app; [auto|].
  rewrite Forall_forall. intros y M. apply blocks_in in M.
  specialize (F y M). lia.
Qed.

Lemma blocks_length (vs : list Z) :
  forall ms, length vs = length ms -> length (blocks vs ms) = total ms.
Proof.
  induction vs as [|v vs IH]; intros [|m ms] L; cbn in L; try discriminate;
    [reflexivity|].
  cbn [blocks total]. rewrite length_app, repeat_length, IH by lia.
  reflexivity.
Qed.

Lemma count_app (v : Z) (l1 l2 : list Z) :
  count v (l1 ++ l2) = (count v l1 + count v l2)%nat.
Proof.
  induction l1 as [|x t IH]; [reflexivity|]. cbn [app count].
  destruct (eqb x v); rewrite IH; reflexivity.
Qed.

Lemma count_repeat (v : Z) (m : nat) : count v (List.repeat v m) = m.
Proof.
  induction m as [|m IH]; [reflexivity|]. cbn [List.repeat count eqb Elem_Z].
  rewrite Z.eqb_refl, IH. reflexivity.
Qed.

(** On the sorted sequence the loop of [n_permutations] finds the
    multiplicities. *)
Lemma count_runs_blocks (vs : list Z) :
  asc vs -> forall ms turns,
  length vs = length ms -> Forall (fun m => (0 < m)%nat) ms ->
  (length (blocks vs ms) <= turns)%nat ->
  count_runs turns (blocks vs ms) = map Z.of_nat ms.
Proof.
  induction vs as [|v vs IH]; intros HA [|m ms] turns L P T; cbn in L;
    try discriminate.
  - destruct turns; reflexivity.
  - apply asc_cons_iff in HA as [HA F].
    inversion P as [|? ? Pm Pms]; subst.
    destruct m as [|m]; [lia|].
    cbn [blocks] in *. rewrite length_app, repeat_length in T.
    destruct turns as [|turns]; [lia|].
    cbn [List.repeat app count_runs map]. 
    change (v :: List.repeat v m ++ blocks vs ms)
      with (List.repeat v (S m) ++ blocks vs ms).
    rewrite count_app, count_repeat.
    rewrite (count_absent v (blocks vs ms)).
    2:{ intros M. apply blocks_in in M. specialize (F v M). lia. }
    rewrite Nat.add_0_r.
    rewrite skipn_app, repeat_length, Nat.sub_diag, skipn_all2
      by (rewrite repeat_length; lia).
    cbn [app skipn]. f_equal. apply IH; auto; lia.
Qed.

End SortFacts.

(** X3.  [n_permutations] counts the arrangements of a multiset: for a
    sequence of at most 20 elements made of [m_i >= 1] copies of the
    distinct values [v_i], in any order, it returns
    [n! / (m_1! ... m_r!)]. *)
Theorem n_permutations_of_multiset (s vs : list Z) (ms : list nat) :
  asc vs -> length vs = length ms -> Forall (fun m => (0 < m)%nat) ms ->
  Permutation s (blocks vs ms) -> (length s <= 20)%nat ->
  n_permutations s * fact_product ms = zfact (length s).
Proof.
  intros S L P Pm L20.
  assert (Len : length s = total ms).
  { rewrite (Permutation_length Pm). apply blocks_length, L. }
  unfold n_permutations.
  assert (E : sort s = blocks vs ms).
  { apply ascending_unique;
      [apply sort_ascending | apply blocks_ascending, S |].
    rewrite sort_perm. exact Pm. }
  rewrite E.
  rewrite count_runs_blocks by (auto; lia).
  rewrite Len. apply multinomial_counts. lia.
Qed.

Lemma n_permutations_of_multiset_witness :
  n_permutations [2; 1; 2; 1; 2] * fact_product [2; 3]%nat
  = zfact (length [2; 1; 2; 1; 2]).
Proof.
  apply (n_permutations_of_multiset [2; 1; 2; 1; 2] [1; 2] [2; 3]%nat).
  - repeat constructor.
  - reflexivity.
  - repeat constructor.
  - cbn. apply Permutation_cons_app with (l1 := [1; 1]) (l2 := [2; 2]).
    apply perm_skip.
    apply Permutation_cons_app with (l1 := [1]) (l2 := [2]).
    apply Permutation_refl.
  - cbn. lia.
Defined.

(** X4.  [n_permutations] depends on the elements of the sequence and
    not on their order. *)
Theorem n_permutations_order_independent (s s' : list Z) :
  Permutation s s' -> n_permutations s = n_permutations s'.
Proof.
  intros P. unfold n_permutations.
  rewrite (sort_order_independent s s' P). reflexivity.
Qed.

Lemma n_permutations_order_independent_witness :
  n_permutations [3; 1; 3] = n_permutations [1; 3; 3].
Proof.
  apply (n_permutations_order_independent [3; 1; 3] [1; 3; 3]).
  apply (perm_swap 1 3 [3]).
Defined.

(** ** Digits and arrangements *)

Section DigitFacts.

Lemma first_occurrence (x : Z) (s : list Z) :
  In x s -> exists l1 l2, s = l1 ++ x :: l2 /\ ~ In x l1.
Proof.
  induction s as [|y t IH]; intros M; [contradiction|].
  destruct (Z.eq_dec y x) as [->|N].
  - exists [], t. split; [reflexivity | intros []].
  - destruct M as [E|M]; [contradiction|].
    destruct (IH M) as (l1 & l2 & -> & Nx).
    exists (y :: l1), l2. split; [reflexivity|].
    intros [E|I]; [contradiction | exact (Nx I)].
Qed.

Lemma permutation_to_fns_cons (x y : Z) (p s : list Z) :
  permutation_to_fns (x :: y :: p) s
  = fst (find_digit x 0 s) :: permutation_to_fns (y :: p) (snd (find_digit x 0 s)).
Proof.
  cbn [permutation_to_fns]. destruct (find_digit x 0 s). reflexivity.
Qed.

Lemma fns_to_permutation_cons (d : Z) (fns : list Z) (s : list Z) :
  fns_to_permutation (d :: fns) s
  = fst (pick d 0 s) ++ fns_to_permutation fns (snd (pick d 0 s)).
Proof.
  cbn [fns_to_permutation]. destruct (pick d 0 s). reflexivity.
Qed.

Lemma permutation_to_fns_length (perm : list Z) :
  forall orig, length (permutation_to_fns perm orig) = length perm.
Proof.
  induction perm as [|x p IH]; intros orig; [reflexivity|].
  destruct p as [|y p]; [reflexivity|].
  rewrite permutation_to_fns_cons. cbn [length]. rewrite IH. reflexivity.
Qed.

(** Encoding an arrangement of [orig], repeated elements or not, gives
    digits that decode to it. *)
Lemma digits_decode (perm : list Z) :
  forall orig, Permutation perm orig ->
  fns_valid (permutation_to_fns perm orig) /\
  fns_to_permutation (permutation_to_fns perm orig) orig = perm.
Proof.
  induction perm as [|x p IH]; intros orig P.
  - split; [exact I | reflexivity].
  - destruct p as [|y p].
    + apply Permutation_length_1_inv in P. subst orig.
      split; [cbn; lia | reflexivity].
    + assert (M : In x orig)
        by (eapply Permutation_in; [exact P | left; reflexivity]).
      destruct (first_occurrence x orig M) as (l1 & l2 & -> & Nx).
      pose proof (Permutation_cons_app_inv _ _ P) as P'.
      destruct (IH _ P') as [V D].
      rewrite permutation_to_fns_cons, find_digit_at by exact Nx.
      cbn [fst snd]. split.
      * cbn [fns_valid]. split; [|exact V].
        rewrite permutation_to_fns_length.
        apply Permutation_length in P'. rewrite length_app in P'. lia.
      * rewrite fns_to_permutation_cons, pick_at. cbn [fst snd app].
        f_equal. exact D.
Qed.

(** Decoding valid digits over an original of as many elements gives an
    arrangement of it; over distinct elements the arrangement encodes to
    the same digits. *)
Lemma digits_encode (fns : list Z) :
  forall orig : list Z, fns_valid fns -> length fns = length orig ->
  Permutation (fns_to_permutation fns orig) orig /\
  (NoDup orig ->
   permutation_to_fns (fns_to_permutation fns orig) orig = fns).
Proof.
  induction fns as [|d t IH]; intros orig V L.
  - destruct orig; [|discriminate]. split; [constructor | reflexivity].
  - destruct V as [B V]. cbn [length] in L.
    destruct (split_at (Z.to_nat d) orig ltac:(lia))
      as (l1 & a & l2 & -> & Lg).
    rewrite fns_to_permutation_cons.
    assert (Pk : pick d 0 (l1 ++ a :: l2) = ([a], l1 ++ l2)).
    { replace d with (0 + Z.of_nat (length l1)) by lia. apply pick_at. }
    rewrite Pk. cbn [fst snd app].
    assert (L' : length t = length (l1 ++ l2))
      by (rewrite length_app in *; cbn in L; lia).
    destruct (IH (l1 ++ l2) V L') as [P E]. split.
    + apply Permutation_cons_app. exact P.
    + intros Nd.
      pose proof (NoDup_remove_1 _ _ _ Nd) as N1.
      pose proof (NoDup_remove_2 _ _ _ Nd) as N2.
      specialize (E N1).
      destruct (fns_to_permutation t (l1 ++ l2)) as [|y q] eqn:Eq.
      * apply Permutation_length in P. cbn in P.
        destruct t; [|rewrite <- L' in P; discriminate].
        cbn [length] in B. cbn [permutation_to_fns]. f_equal. lia.
      * rewrite permutation_to_fns_cons, find_digit_at
          by (intros M; apply N2, in_or_app; left; exact M).
        cbn [fst snd]. rewrite E. f_equal. lia.
Qed.

End DigitFacts.

(** X5.  For every arrangement [perm] of [original], with repeated
    elements or without, sorted or not, [permutation_to_fns] gives a
    valid number of the factorial number system, and [fns_to_permutation]
    maps it back to [perm]. *)
Theorem fns_digits_decode_to_permutation (perm original : list Z) :
  Permutation perm original ->
  fns_valid (permutation_to_fns perm original) /\
  length (permutation_to_fns perm original) = length perm /\
  fns_to_permutation (permutation_to_fns perm original) original = perm.
Proof.
  intros P. destruct (digits_decode perm original P) as [V D].
  split; [exact V|]. split; [apply permutation_to_fns_length | exact D].
Qed.

Lemma fns_digits_decode_to_permutation_witness :
  fns_valid (permutation_to_fns [2; 1; 2] [1; 2; 2]) /\
  length (permutation_to_fns [2; 1; 2] [1; 2; 2]) = length [2; 1; 2] /\
  fns_to_permutation (permutation_to_fns [2; 1; 2] [1; 2; 2]) [1; 2; 2]
  = [2; 1; 2].
Proof.
  apply (fns_digits_decode_to_permutation [2; 1; 2] [1; 2; 2]).
  apply (Permutation_cons_app [1] [2]). apply Permutation_refl.
Defined.

(** X6.  For valid digits [fns] and an original of as many elements,
    [fns_to_permutation] returns an arrangement of the original; when the
    elements are distinct, [permutation_to_fns] maps that arrangement
    back to [fns]. *)
Theorem fns_permutation_encode_to_digits (fns : list Z) (original : list Z) :
  fns_valid fns -> length fns = length original ->
  Permutation (fns_to_permutation fns original) original /\
  (NoDup original ->
   permutation_to_fns (fns_to_permutation fns original) original = fns).
Proof. apply digits_encode. Qed.

Lemma fns_permutation_encode_to_digits_witness :
  Permutation (fns_to_permutation [2; 0; 0] [5; 7; 9]) [5; 7; 9] /\
  permutation_to_fns (fns_to_permutation [2; 0; 0] [5; 7; 9]) [5; 7; 9]
  = [2; 0; 0].
Proof.
  destruct (fns_permutation_encode_to_digits [2; 0; 0] [5; 7; 9])
    as [P E]; [cbn; lia | reflexivity |].
  split; [exact P|]. apply E.
  repeat constructor; cbn; intuition lia.
Defined.

(** ** Ranks follow the lexicographic order *)

Section RankOrder.



End RankOrder.



(** X8.  For an original of at most 12 distinct elements, sorted or not,
    the round trip between ranks and arrangements holds both ways:
    [permutation_to_decimal] undoes [decimal_to_permutation] on every rank
    below [n_permutations], and [decimal_to_permutation] undoes
    [permutation_to_decimal] on every arrangement. *)
Theorem fns_round_trip_up_to_12_distinct (s : list Z) :
  NoDup s -> (length s <= 12)%nat ->
  (forall (r : Z) (extra : nat), 0 <= r < n_permutations s ->
     exists p,
       decimal_to_permutation (S (length s) + extra) r s = Some p /\
       permutation_to_decimal p s = r) /\
  (forall (p : list Z) (extra : nat), Permutation p s ->
     decimal_to_permutation (S (length s) + extra)
                            (permutation_to_decimal p s) s = Some p).
Proof. apply fns_round_trip_distinct. Qed.

Lemma fns_round_trip_up_to_12_distinct_witness :
  (exists p,
     decimal_to_permutation (S (length [3; 1; 2]) + 0) 4 [3; 1; 2] = Some p /\
     permutation_to_decimal p [3; 1; 2] = 4) /\
  decimal_to_permutation (S (length [3; 1; 2]) + 0)
                         (permutation_to_decimal [2; 3; 1] [3; 1; 2])
                         [3; 1; 2] = Some [2; 3; 1].
Proof.
  destruct (fns_round_trip_up_to_12_distinct [3; 1; 2]) as [F G].
  - repeat constructor; cbn; intuition lia.
  - cbn. lia.
  - split.
    + apply (F 4 0%nat). vm_compute. split; [discriminate | reflexivity].
    + apply (G [2; 3; 1] 0%nat).
      apply (Permutation_cons_app [3; 1] []).
      apply (Permutation_cons_app [] [1]). apply Permutation_refl.
Defined.

(** X9.  [decimal_to_fns] does not check its precondition: on an original
    of 1 to 20 distinct elements and a rank [D] that is not below the
    number of permutations, its loop never ends. *)
Theorem decimal_to_fns_never_returns_out_of_range (s : list Z) (D : Z) :
  NoDup s -> s <> [] -> (length s <= 20)%nat -> n_permutations s <= D ->
  forall fuel, decimal_to_fns fuel D s = None.
Proof.
  intros Nd NE L B fuel. unfold decimal_to_fns.
  rewrite n_permutations_distinct in B by assumption.
  pose proof (sort_asc s Nd) as HA. pose proof (sort_length s) as Len.
  destruct (sort s) as [|x t] eqn:Es.
  { destruct s; [congruence | discriminate Len]. }
  apply digits_loop_diverges. cbn [length] in Len.
  apply (guess_loop_exhausts (x :: t) (length t) D HA eq_refl);
    [lia | rewrite Len; exact B].
Qed.

Lemma decimal_to_fns_never_returns_out_of_range_witness :
  decimal_to_fns 50 6 [1; 2; 3] = None.
Proof.
  apply (decimal_to_fns_never_returns_out_of_range [1; 2; 3] 6).
  - repeat constructor; cbn; intuition lia.
  - discriminate.
  - cbn. lia.
  - vm_compute. discriminate.
Defined.

(** ** Subtraction of unsigned values *)

Section SubtractFacts.

Lemma to_long_small (z : Z) : - 2 ^ 63 <= z < 2 ^ 63 -> to_long z = z.
Proof. intros B. unfold to_long. rewrite Z.mod_small; lia. Qed.

Lemma to_long_large (z : Z) : 2 ^ 63 <= z < 2 ^ 64 -> to_long z = z - 2 ^ 64.
Proof.
  intros B. unfold to_long.
  rewrite <- (Z.mod_unique (z + 2 ^ 63) (2 ^ 64) 1 (z - 2 ^ 63)); lia.
Qed.

Lemma unsigned_subtract_small (lhs rhs : Z) :
  0 <= lhs < size_max -> 0 <= rhs < size_max ->
  - 2 ^ 63 < lhs - rhs < 2 ^ 63 ->
  UnsignedSubtract lhs rhs = Some (lhs - rhs).
Proof.
  unfold size_max, UnsignedSubtract. intros L R D.
  destruct (Z.gtb_spec lhs rhs) as [G|Le].
  - rewrite to_size_t_small, to_long_small by (unfold size_max; lia).
    reflexivity.
  - rewrite to_size_t_small, to_long_small by (unfold size_max; lia).
    cbv zeta. unfold fits_long.
    destruct (Z.leb_spec (- 2 ^ 63) (-1 * (rhs - lhs))); [|lia].
    destruct (Z.ltb_spec (-1 * (rhs - lhs)) (2 ^ 63)); [|lia].
    cbn [andb]. f_equal. lia.
Qed.

End SubtractFacts.

(** X10.  [UnsignedSubtract] of two [std::size_t] values returns their
    signed difference exactly when that difference lies strictly between
    [-2^63] and [2^63]; further apart, the result has the wrong sign or
    the negation overflows. *)
Theorem unsigned_subtract_exact_iff (lhs rhs : Z) :
  0 <= lhs < size_max -> 0 <= rhs < size_max ->
  (UnsignedSubtract lhs rhs = Some (lhs - rhs)
   <-> - 2 ^ 63 < lhs - rhs < 2 ^ 63) /\
  (2 ^ 63 <= lhs - rhs ->
   UnsignedSubtract lhs rhs = Some (lhs - rhs - 2 ^ 64)) /\
  (lhs - rhs = - 2 ^ 63 -> UnsignedSubtract lhs rhs = None) /\
  (lhs - rhs < - 2 ^ 63 ->
   UnsignedSubtract lhs rhs = Some (lhs - rhs + 2 ^ 64)).
Proof.
  intros L R. unfold size_max in L, R.
  assert (Far : 2 ^ 63 <= lhs - rhs ->
                UnsignedSubtract lhs rhs = Some (lhs - rhs - 2 ^ 64)).
  { intros D. unfold UnsignedSubtract.
    destruct (Z.gtb_spec lhs rhs); [|lia].
    rewrite to_size_t_small, to_long_large by (unfold size_max; lia).
    reflexivity. }
  assert (Edge : lhs - rhs = - 2 ^ 63 -> UnsignedSubtract lhs rhs = None).
  { intros D. unfold UnsignedSubtract.
    destruct (Z.gtb_spec lhs rhs); [lia|].
    rewrite to_size_t_small, to_long_large by (unfold size_max; lia).
    cbv zeta. replace (rhs - lhs) with (2 ^ 63) by lia. reflexivity. }
  assert (Neg : lhs - rhs < - 2 ^ 63 ->
                UnsignedSubtract lhs rhs = Some (lhs - rhs + 2 ^ 64)).
  { intros D. unfold UnsignedSubtract.
    destruct (Z.gtb_spec lhs rhs); [lia|].
    rewrite to_size_t_small, to_long_large by (unfold size_max; lia).
    cbv zeta. unfold fits_long.
    destruct (Z.leb_spec (- 2 ^ 63) (-1 * (rhs - lhs - 2 ^ 64))); [|lia].
    destruct (Z.ltb_spec (-1 * (rhs - lhs - 2 ^ 64)) (2 ^ 63)); [|lia].
    cbn [andb]. f_equal. lia. }
  split; [|split; [exact Far | split; [exact Edge | exact Neg]]].
  split.
  - intros E.
    destruct (Z.le_gt_cases (2 ^ 63) (lhs - rhs)) as [D|D].
    { rewrite (Far D) in E. injection E. lia. }
    destruct (Z.lt_trichotomy (lhs - rhs) (- 2 ^ 63)) as [D'|[D'|D']].
    + rewrite (Neg D') in E. injection E. lia.
    + rewrite (Edge D') in E. discriminate.
    + lia.
  - apply unsigned_subtract_small; unfold size_max; lia.
Qed.

Lemma unsigned_subtract_exact_iff_witness :
  UnsignedSubtract 2 3 = Some (2 - 3) /\
  UnsignedSubtract (2 ^ 63) 0 = Some (2 ^ 63 - 0 - 2 ^ 64) /\
  UnsignedSubtract 0 (2 ^ 63) = None.
Proof.
  split; [|split].
  - apply (proj1 (unsigned_subtract_exact_iff 2 3
                    ltac:(unfold size_max; lia) ltac:(unfold size_max; lia)));
      lia.
  - apply (proj1 (proj2 (unsigned_subtract_exact_iff (2 ^ 63) 0
                    ltac:(unfold size_max; lia) ltac:(unfold size_max; lia))));
      lia.
  - apply (proj1 (proj2 (proj2 (unsigned_subtract_exact_iff 0 (2 ^ 63)
                    ltac:(unfold size_max; lia) ltac:(unfold size_max; lia)))));
      lia.
Defined.

(** ** Distances between permutation iterators *)

Section DistanceFacts.
Context {A : Type} `{Elem A}.
Import PermutationItr.

Lemma unsigned_subtract_same (x : Z) : UnsignedSubtract x x = Some 0.
Proof.
  unfold UnsignedSubtract. destruct (Z.gtb_spec x x); [lia|].
  rewrite Z.sub_diag. reflexivity.
Qed.

Lemma iter_incr_fields (k : nat) (a : PermutationItr.t A) :
  0 <= offset_ a < size_max ->
  dx_ (Nat.iter k incr a) = dx_ a /\
  offset_ (Nat.iter k incr a) = to_size_t (offset_ a + Z.of_nat k).
Proof.
  intros B. induction k as [|k [IHd IHo]].
  - cbn [Nat.iter Z.of_nat]. rewrite Z.add_0_r, to_size_t_small by exact B.
    split; reflexivity.
  - rewrite Nat.iter_succ. unfold incr at 1 3. cbn [dx_ offset_].
    split; [exact IHd|]. rewrite IHo.
    unfold to_size_t. rewrite Z.add_mod_idemp_l by (unfold size_max; lia).
    f_equal. lia.
Qed.

Lemma iter_decr_fields (k : nat) (a : PermutationItr.t A) :
  0 <= offset_ a < size_max ->
  dx_ (Nat.iter k decr a) = dx_ a /\
  offset_ (Nat.iter k decr a) = to_size_t (offset_ a - Z.of_nat k).
Proof.
  intros B. induction k as [|k [IHd IHo]].
  - cbn [Nat.iter Z.of_nat]. rewrite Z.sub_0_r, to_size_t_small by exact B.
    split; reflexivity.
  - rewrite Nat.iter_succ. unfold decr at 1 3. cbn [dx_ offset_].
    split; [exact IHd|]. rewrite IHo.
    unfold to_size_t. rewrite Zminus_mod_idemp_l. f_equal. lia.
Qed.

Lemma step_by_fields (a : PermutationItr.t A) (n : Z) :
  0 <= offset_ a < size_max ->
  dx_ (step_by a n) = dx_ a /\
  offset_ (step_by a n) = to_size_t (offset_ a + n).
Proof.
  intros B. unfold step_by. destruct (Z.leb_spec 0 n).
  - destruct (iter_incr_fields (Z.to_nat n) a B) as [D O].
    rewrite D, O, Z2Nat.id by lia. split; reflexivity.
  - destruct (iter_decr_fields (Z.to_nat (- n)) a B) as [D O].
    rewrite D, O, Z2Nat.id by lia. split; [reflexivity|]. f_equal. lia.
Qed.

(** The distance between two iterators that share [dx_]. *)
Lemma distance_same_dx (a b : PermutationItr.t A) (n : Z) :
  dx_ b = dx_ a -> 0 <= offset_ a < size_max ->
  0 <= offset_ a + n < size_max -> - 2 ^ 63 < n < 2 ^ 63 ->
  offset_ b = offset_ a + n ->
  PermutationItr.distance_to a b = Some n /\
  PermutationItr.distance_to b a = Some (- n).
Proof.
  intros D Ba Bn N O. unfold PermutationItr.distance_to.
  rewrite D, unsigned_subtract_same, O.
  rewrite !unsigned_subtract_small by lia.
  replace (offset_ a + n - offset_ a) with n by lia.
  replace (offset_ a - (offset_ a + n)) with (- n) by lia.
  cbn [Z.add]. unfold fits_long.
  destruct (Z.leb_spec (- 2 ^ 63) n); [|lia].
  destruct (Z.ltb_spec n (2 ^ 63)); [|lia].
  destruct (Z.leb_spec (- 2 ^ 63) (- n)); [|lia].
  destruct (Z.ltb_spec (- n) (2 ^ 63)); [|lia].
  split; reflexivity.
Qed.

End DistanceFacts.

(** X11.  [distance_to] inverts stepping and [advance]: from an iterator
    [a], the iterator reached by [n] single steps, and the one
    [advance(n)] returns, are at distance [n] from [a], and [a] is at
    distance [-n] from them, as long as the offset stays within
    [std::size_t] and [n] strictly between [-2^63] and [2^63]. *)
Theorem distance_to_inverts_steps (a : PermutationItr.t Z) (n : Z) :
  0 <= PermutationItr.offset_ a < size_max ->
  0 <= PermutationItr.offset_ a + n < size_max ->
  - 2 ^ 63 < n < 2 ^ 63 ->
  PermutationItr.distance_to a (PermutationItr.step_by a n) = Some n /\
  PermutationItr.distance_to (PermutationItr.step_by a n) a = Some (- n) /\
  (forall fuel b, PermutationItr.advance fuel a n = Some b ->
     PermutationItr.distance_to a b = Some n /\
     PermutationItr.distance_to b a = Some (- n)).
Proof.
  intros Ba Bn N.
  destruct (step_by_fields a n Ba) as [D O].
  rewrite to_size_t_small in O by exact Bn.
  destruct (distance_same_dx a (PermutationItr.step_by a n) n D Ba Bn N O)
    as [F G].
  split; [exact F|]. split; [exact G|].
  intros fuel b E. unfold PermutationItr.advance in E.
  destruct (decimal_to_permutation _ _ _) as [p|]; [|discriminate].
  injection E as <-.
  apply distance_same_dx; try assumption; [reflexivity|].
  cbn [PermutationItr.offset_]. apply to_size_t_small, Bn.
Qed.

Lemma distance_to_inverts_steps_witness :
  PermutationItr.distance_to
    (PermutationItr.make [2; 1; 3] 0)
    (PermutationItr.step_by (PermutationItr.make [2; 1; 3] 0) 4) = Some 4 /\
  PermutationItr.distance_to
    (PermutationItr.step_by (PermutationItr.make [2; 1; 3] 0) 4)
    (PermutationItr.make [2; 1; 3] 0) = Some (- 4).
Proof.
  destruct (distance_to_inverts_steps (PermutationItr.make [2; 1; 3] 0) 4)
    as (F & G & _); cbn [PermutationItr.make PermutationItr.offset_];
    try (unfold size_max; lia).
  split; [exact F | exact G].
Defined.

(** X12.  [distance_to] is antisymmetric wherever it is defined both
    ways: [a.distance_to(b) == -(b.distance_to(a))]; and it is defined,
    with value [(dx_b + offset_b) - (dx_a + offset_a)], whenever the
    ranks and offsets of both iterators are below [2^62]. *)
Theorem distance_to_antisymmetric (a b : PermutationItr.t Z) :
  (forall x y,
     PermutationItr.distance_to a b = Some x ->
     PermutationItr.distance_to b a = Some y -> y = - x) /\
  (0 <= PermutationItr.dx_ a < 2 ^ 62 ->
   0 <= PermutationItr.dx_ b < 2 ^ 62 ->
   0 <= PermutationItr.offset_ a < 2 ^ 62 ->
   0 <= PermutationItr.offset_ b < 2 ^ 62 ->
   PermutationItr.distance_to a b =
   Some (PermutationItr.dx_ b + PermutationItr.offset_ b
         - (PermutationItr.dx_ a + PermutationItr.offset_ a))).
Proof.
  assert (Anti : forall l r x y,
            UnsignedSubtract l r = Some x -> UnsignedSubtract r l = Some y ->
            y = - x).
  { intros l r x y. unfold UnsignedSubtract.
    destruct (Z.gtb_spec l r), (Z.gtb_spec r l); try lia; cbv zeta.
    - destruct (fits_long _); [|discriminate]. intros [= <-] [= <-].
      destruct (to_long _); reflexivity.
    - destruct (fits_long _); [|discriminate]. intros [= <-] [= <-].
      destruct (to_long _); reflexivity.
    - assert (l = r) by lia. subst r. rewrite Z.sub_diag.
      cbn. intros [= <-] [= <-]. reflexivity. }
  split.
  - intros x y. unfold PermutationItr.distance_to.
    destruct (UnsignedSubtract (PermutationItr.dx_ b) (PermutationItr.dx_ a))
      as [d1|] eqn:E1; [|discriminate].
    destruct (UnsignedSubtract (PermutationItr.offset_ b)
                               (PermutationItr.offset_ a))
      as [o1|] eqn:E2; [|discriminate].
    destruct (UnsignedSubtract (PermutationItr.dx_ a) (PermutationItr.dx_ b))
      as [d2|] eqn:E3; [|discriminate].
    destruct (UnsignedSubtract (PermutationItr.offset_ a)
                               (PermutationItr.offset_ b))
      as [o2|] eqn:E4; [|discriminate].
    destruct (fits_long (d1 + o1)); [|discriminate].
    destruct (fits_long (d2 + o2)); [|discriminate].
    intros [= <-] [= <-].
    rewrite (Anti _ _ _ _ E1 E3), (Anti _ _ _ _ E2 E4). lia.
  - intros Da Db Oa Ob. unfold PermutationItr.distance_to.
    rewrite !unsigned_subtract_small by (unfold size_max; lia).
    unfold fits_long.
    match goal with |- context [?u <=? ?v] =>
      destruct (Z.leb_spec u v); [|lia] end.
    match goal with |- context [?u <? ?v] =>
      destruct (Z.ltb_spec u v); [|lia] end.
    cbn [andb]. f_equal. lia.
Qed.

Lemma distance_to_antisymmetric_witness :
  PermutationItr.distance_to (PermutationItr.make [1; 2; 3] 1)
                                (PermutationItr.make [3; 1; 2] 0)
  = Some (PermutationItr.dx_ (PermutationItr.make [3; 1; 2] 0)
          + PermutationItr.offset_ (PermutationItr.make [3; 1; 2] 0)
          - (PermutationItr.dx_ (PermutationItr.make [1; 2; 3] 1)
             + PermutationItr.offset_ (PermutationItr.make [1; 2; 3] 1))).
Proof.
  apply (proj2 (distance_to_antisymmetric
                  (PermutationItr.make [1; 2; 3] 1)
                  (PermutationItr.make [3; 1; 2] 0)));
    vm_compute; split; congruence.
Defined.

(** ** Traversing all arrangements *)

(** X13.  For a sequence [s] of at most 20 distinct elements the
    range-based [for] over [Permutations(s)] ends; it yields as many
    sequences as [size()] says, the first being [s] itself; each is an
    arrangement of [s], every arrangement of [s] is among them, and none
    comes twice. *)
Theorem permutations_yield_each_arrangement_once (s : list Z) (extra : nat) :
  NoDup s -> (length s <= 20)%nat ->
  exists visited,
    RangeContainer.elements (S (Z.to_nat (n_permutations s)) + extra)
                            (PermutationItr.Permutations s) = Some visited /\
    Z.of_nat (length visited)
    = RangeContainer.size (PermutationItr.Permutations s) /\
    hd_error visited = Some s /\
    NoDup visited /\
    (forall p, In p visited <-> Permutation p s).
Proof.
  intros Nd L.
  exists (map (arrangement_after s) (seq 0 (Z.to_nat (n_permutations s)))).
  destruct (permutations_each_once s Nd L) as (N & F & G).
  split; [apply permutations_in_rank_order; assumption|].
  pose proof (zfact_pos (length s)) as P.
  split; [|split; [|split; [exact N | split; [apply F | apply G]]]].
  - rewrite length_map, length_seq.
    unfold RangeContainer.size, PermutationItr.Permutations.
    cbn [RangeContainer.size_].
    rewrite n_permutations_distinct by assumption. lia.
  - rewrite n_permutations_distinct by assumption.
    destruct (Z.to_nat (zfact (length s))) as [|k] eqn:E; [lia|].
    cbn [seq map hd_error]. f_equal.
    pose proof (arrangement_after_all s Nd L) as W.
    unfold arrangement_after in *. 
    rewrite Z2Nat.id in W by lia.
    rewrite <- Z.add_mod_idemp_r, Z.mod_same, Z.add_0_r in W by lia.
    cbn [Z.of_nat]. rewrite Z.add_0_r. exact W.
Qed.

Lemma permutations_yield_each_arrangement_once_witness :
  exists visited,
    RangeContainer.elements (S (Z.to_nat (n_permutations [2; 3; 1])) + 0)
                            (PermutationItr.Permutations [2; 3; 1])
    = Some visited /\
    Z.of_nat (length visited)
    = RangeContainer.size (PermutationItr.Permutations [2; 3; 1]) /\
    hd_error visited = Some [2; 3; 1] /\
    NoDup visited /\
    (forall p, In p visited <-> Permutation p [2; 3; 1]).
Proof.
  apply (permutations_yield_each_arrangement_once [2; 3; 1] 0).
  - repeat constructor; cbn; intuition lia.
  - cbn. lia.
Defined.

Section StepInverse.
Import PermutationItr.

Lemma size_t_round (o : Z) :
  0 <= o < size_max ->
  to_size_t (to_size_t (o + 1) - 1) = o /\
  to_size_t (to_size_t (o - 1) + 1) = o.
Proof.
  intros B. unfold to_size_t.
  rewrite Zminus_mod_idemp_l, Z.add_mod_idemp_l by (unfold size_max; lia).
  replace (o + 1 - 1) with o by lia. replace (o - 1 + 1) with o by lia.
  split; apply Z.mod_small; exact B.
Qed.

Lemma step_back_and_forth (p : list Z) :
  NoDup p ->
  fst (prev_permutation (fst (next_permutation p))) = p /\
  fst (next_permutation (fst (prev_permutation p))) = p.
Proof.
  intros Nd.
  assert (Nd' : NoDup (sort p))
    by (eapply Permutation_NoDup; [symmetry; apply sort_perm | exact Nd]).
  pose proof (sort_asc p Nd) as HA.
  pose proof (Permutation_sym (sort_perm p)) as P.
  pose proof (rank_bounds p (sort p) Nd' P) as Br.
  pose proof (nth_perm_rank p (sort p) Nd' P) as E.
  pose proof (zfact_pos (length p)) as Pos.
  pose proof (Permutation_length P) as Len.
  set (N := zfact (length p)) in *. set (r := rank p (sort p)) in *.
  split; rewrite <- E at 1.
  - rewrite (incr_rank (sort p) (length p) HA (eq_sym Len)) by exact Br.
    rewrite (decr_rank (sort p) (length p) HA (eq_sym Len))
      by (apply Z.mod_pos_bound; exact Pos).
    fold N. rewrite Zminus_mod_idemp_l.
    replace (r + 1 - 1) with r by lia.
    rewrite Z.mod_small by exact Br. exact E.
  - rewrite (decr_rank (sort p) (length p) HA (eq_sym Len)) by exact Br.
    rewrite (incr_rank (sort p) (length p) HA (eq_sym Len))
      by (apply Z.mod_pos_bound; exact Pos).
    fold N. rewrite Z.add_mod_idemp_l by lia.
    replace (r - 1 + 1) with r by lia.
    rewrite Z.mod_small by exact Br. exact E.
Qed.

End StepInverse.

(** X14.  On a [PermutationItr] whose current permutation has distinct
    elements, decrement undoes increment and increment undoes decrement,
    at every position, the wrap-around between the greatest and the
    least arrangement and the wrap-around of the offset included. *)
Theorem increment_and_decrement_are_inverse (a : PermutationItr.t Z) :
  NoDup (PermutationItr.set_ a) ->
  0 <= PermutationItr.offset_ a < size_max ->
  PermutationItr.decr (PermutationItr.incr a) = a /\
  PermutationItr.incr (PermutationItr.decr a) = a.
Proof.
  intros Nd B. destruct a as [o so p off dx].
  cbn [PermutationItr.set_ PermutationItr.offset_] in *.
  destruct (step_back_and_forth p Nd) as [E1 E2].
  destruct (size_t_round off B) as [O1 O2].
  unfold PermutationItr.decr, PermutationItr.incr.
  cbn [PermutationItr.set_ PermutationItr.offset_ PermutationItr.orig_set_
       PermutationItr.sorted_orig_ PermutationItr.dx_].
  rewrite E1, E2, O1, O2. split; reflexivity.
Qed.

Lemma increment_and_decrement_are_inverse_witness :
  PermutationItr.decr (PermutationItr.incr (PermutationItr.make [3; 2; 1] 0))
  = PermutationItr.make [3; 2; 1] 0 /\
  PermutationItr.incr (PermutationItr.decr (PermutationItr.make [3; 2; 1] 0))
  = PermutationItr.make [3; 2; 1] 0.
Proof.
  apply (increment_and_decrement_are_inverse (PermutationItr.make [3; 2; 1] 0)).
  - cbn [PermutationItr.make PermutationItr.set_].
    repeat constructor; cbn; intuition lia.
  - cbn [PermutationItr.make PermutationItr.offset_]. unfold size_max. lia.
Defined.

(** ** Random access on a [Range] *)

Section RandomAccessFacts.
Import Range.

Lemma advance_value (it : RangeItr) (adv : Z) :
  value_ (advance it adv) = value_ it + adv.
Proof.
  unfold advance. cbn [value_]. destruct (adv >? 0); lia.
Qed.

Lemma iter_increment_value (it : RangeItr) (n : nat) :
  let stepped := Nat.iter n (fun i => advance i (increment_ i)) it in
  value_ stepped = value_ it + Z.of_nat n * increment_ it /\
  increment_ stepped = increment_ it /\
  start_ stepped = start_ it /\ stop_ stepped = stop_ it.
Proof.
  cbv zeta. induction n as [|n (V & I & S1 & S2)].
  - simpl. repeat split. lia.
  - rewrite Nat.iter_succ.
    set (st := Nat.iter n (fun i => advance i (increment_ i)) it) in *.
    rewrite advance_value. unfold advance.
    cbn [increment_ start_ stop_]. rewrite V, I, S1, S2.
    repeat split. lia.
Qed.

(** A traversal that starts off the grid of [stop] never ends. *)
Lemma visit_off_grid (stop step : Z) :
  forall (fuel : nat) (s0 v : Z),
    (forall n : nat, v + Z.of_nat n * step <> stop) ->
    RangeContainer.visit fuel (Build s0 stop step v) (make stop stop step)
    = None.
Proof.
  induction fuel as [|fuel IH]; intros s0 v Off; [reflexivity|].
  rewrite visit_unfold.
  cbn [are_equal increment dereference iterator value_ make].
  destruct (Z.eqb_spec v stop) as [E|_].
  { exfalso. apply (Off O). cbn. lia. }
  unfold advance. cbn [start_ stop_ increment_ value_].
  rewrite IH; [reflexivity|].
  intros n. specialize (Off (S n)).
  destruct (step >? 0); lia.
Qed.

Lemma distance_formula (a b : RangeItr) :
  Range.distance_to a b = value_ b - value_ a.
Proof.
  unfold Range.distance_to. cbv zeta.
  destruct (Z.gtb_spec (value_ b) (value_ a)); lia.
Qed.

End RandomAccessFacts.

(** X15.  As long as the values fit an [int], [RangeItr::advance(n)]
    moves the value by [n], not by [n] steps: it agrees with [n]
    increments exactly when [n = 0] or the step is 1.
    [RangeContainer::operator[]] goes through [std::advance]: for every
    index [i] other than 1, [Range(start, stop, step)[i]] is [start + i]
    whatever the step, while the [i]-th value a traversal visits is
    [start + i * step]; at index 1 the result depends on the build, being
    [start + step] where [std::advance] sees the constant 1 and
    increments, and [start + 1] where it does not. *)
Theorem range_advance_ignores_the_step :
  (forall (it : Range.RangeItr) (n : nat),
     int_range (Range.value_ it) ->
     int_range (Range.value_ it + Z.of_nat n) ->
     int_range (Range.value_ it + Z.of_nat n * Range.increment_ it) ->
     let stepped :=
       Nat.iter n (fun i => Range.advance i (Range.increment_ i)) it in
     Range.value_ (Range.advance it (Z.of_nat n))
     = Range.value_ it + Z.of_nat n /\
     Range.value_ stepped
     = Range.value_ it + Z.of_nat n * Range.increment_ it /\
     (Range.advance it (Z.of_nat n) = stepped
      <-> n = O \/ Range.increment_ it = 1)) /\
  (forall (known : bool) (start stop step i : Z),
     int_range start -> int_range stop -> Z.abs (stop - start) < 2 ^ 31 ->
     step <> 0 -> 0 <= i -> i <> 1 -> int_range (start + i) ->
     Range.subscript known (Range.Range start stop step) i = start + i) /\
  (forall start stop step : Z,
     int_range start -> int_range stop -> Z.abs (stop - start) < 2 ^ 31 ->
     step <> 0 -> int_range (start + 1) -> int_range (start + step) ->
     Range.subscript true (Range.Range start stop step) 1 = start + step /\
     Range.subscript false (Range.Range start stop step) 1 = start + 1).
Proof.
  split; [|split].
  - intros it n _ _ _. cbv zeta.
    destruct (iter_increment_value it n) as (V & I & S1 & S2).
    rewrite advance_value. split; [reflexivity|]. split; [exact V|].
    split.
    + intros E. apply (f_equal Range.value_) in E.
      rewrite advance_value, V in E.
      destruct n as [|n]; [left; reflexivity | right; nia].
    + intros C.
      set (stepped := Nat.iter n _ it) in *.
      destruct stepped as [s1 s2 inc v] eqn:Es.
      cbn [Range.value_ Range.increment_ Range.start_ Range.stop_] in *.
      unfold Range.advance. subst s1 s2 inc v. f_equal.
      destruct C as [->| ->]; destruct (_ >? 0); lia.
  - intros known start stop step i Is _ _ _ B N1 Ii. unfold int_range in *.
    unfold Range.subscript, Range.std_advance, Range.Range, Range.RangeImpl.
    cbn [RangeContainer.start_ dereference Range.iterator].
    rewrite to_long_small by lia.
    destruct (Z.eqb_spec i 1) as [|_]; [contradiction|].
    destruct (Z.eqb_spec i (-1)) as [|_]; [lia|].
    rewrite !andb_false_r, advance_value. reflexivity.
  - intros start stop step Is _ _ _ I1 Ip. unfold int_range in *.
    unfold Range.subscript, Range.std_advance, Range.Range, Range.RangeImpl.
    cbn [RangeContainer.start_ dereference Range.iterator].
    rewrite to_long_small by lia. cbn [andb Z.eqb Pos.eqb].
    rewrite !advance_value. split; reflexivity.
Qed.

Lemma range_advance_ignores_the_step_witness :
  Range.subscript true (Range.Range 1 7 2) 2 = 1 + 2 /\
  Range.subscript true (Range.Range 1 7 2) 1 = 1 + 2 /\
  Range.subscript false (Range.Range 1 7 2) 1 = 1 + 1.
Proof.
  split.
  - apply (proj1 (proj2 range_advance_ignores_the_step) true 1 7 2 2);
      unfold int_range; lia.
  - apply (proj2 (proj2 range_advance_ignores_the_step) 1 7 2);
      unfold int_range; lia.
Defined.

(** X16.  On iterators whose values lie less than [2^31] apart,
    [RangeItr::distance_to] and the operators built on it go by the
    values, not by the positions in the traversal: [a.distance_to(b)] is
    [b.value_ - a.value_], so it is antisymmetric and inverts [advance];
    [a - b] is [a.distance_to(b)], so [(a + n) - a] is [-n]; and
    [a < b] compares the values, so for a range that counts down
    [begin() > end()]. *)
Theorem range_distance_and_order_go_by_value :
  (forall a b : Range.RangeItr,
     int_range (Range.value_ a) -> int_range (Range.value_ b) ->
     Z.abs (Range.value_ b - Range.value_ a) < 2 ^ 31 ->
     Range.distance_to a b = Range.value_ b - Range.value_ a /\
     Range.distance_to a b = - Range.distance_to b a /\
     Range.minus a b = Range.value_ b - Range.value_ a /\
     Range.lt a b = (Range.value_ a <? Range.value_ b) /\
     Range.le a b = (Range.value_ a <=? Range.value_ b) /\
     Range.gt a b = (Range.value_ b <? Range.value_ a) /\
     Range.ge a b = (Range.value_ b <=? Range.value_ a)) /\
  (forall (a : Range.RangeItr) (n : Z),
     int_range (Range.value_ a) -> int_range (Range.value_ a + n) ->
     Z.abs n < 2 ^ 31 ->
     Range.distance_to a (Range.advance a n) = n /\
     Range.minus (Range.advance a n) a = - n) /\
  (forall start stop step : Z,
     int_range start -> int_range stop -> Z.abs (stop - start) < 2 ^ 31 ->
     step <> 0 ->
     let c := Range.Range start stop step in
     Range.distance_to (RangeContainer.start_ c) (RangeContainer.end_ c)
     = stop - start /\
     Range.lt (RangeContainer.start_ c) (RangeContainer.end_ c)
     = (start <? stop) /\
     Range.gt (RangeContainer.start_ c) (RangeContainer.end_ c)
     = (stop <? start)).
Proof.
  pose proof distance_formula as D.
  assert (F : forall a b : Range.RangeItr,
            Range.lt a b = (Range.value_ a <? Range.value_ b)).
  { intros a b. unfold Range.lt. rewrite D.
    destruct (Z.gtb_spec (Range.value_ b - Range.value_ a) 0);
      destruct (Z.ltb_spec (Range.value_ a) (Range.value_ b));
      try reflexivity; lia. }
  assert (G : forall a b : Range.RangeItr,
            Range.le a b = (Range.value_ a <=? Range.value_ b)).
  { intros a b. unfold Range.le. rewrite F.
    cbn [are_equal Range.iterator].
    destruct (Z.ltb_spec (Range.value_ a) (Range.value_ b));
      destruct (Z.eqb_spec (Range.value_ a) (Range.value_ b));
      destruct (Z.leb_spec (Range.value_ a) (Range.value_ b));
      try reflexivity; lia. }
  split; [|split].
  - intros a b _ _ _.
    unfold Range.gt, Range.ge, Range.minus. rewrite !D, !F, !G.
    repeat split. lia.
  - intros a n _ _ _. unfold Range.minus.
    rewrite !D, advance_value. split; lia.
  - intros start stop step _ _ _ _. cbv zeta. unfold Range.gt.
    rewrite D, !F. repeat split.
Qed.

Lemma range_distance_and_order_go_by_value_witness :
  Range.gt (RangeContainer.start_ (Range.Range 8 2 (-2)))
              (RangeContainer.end_ (Range.Range 8 2 (-2)))
  = (2 <? 8).
Proof.
  apply (proj2 (proj2 range_distance_and_order_go_by_value) 8 2 (-2));
    unfold int_range; lia.
Defined.

(** X17.  A [Range] performs no bounds check: when no whole number of
    steps leads from [start] to [stop] (the step does not divide the
    distance, or points away from [stop]), the traversal steps over
    [stop] and does not reach [end()] for as long as the values fit an
    [int]. *)
Theorem range_off_grid_never_ends (start stop step : Z) (fuel : nat) :
  (forall n : nat, start + Z.of_nat n * step <> stop) ->
  int_range start -> int_range stop -> Z.abs (stop - start) < 2 ^ 31 ->
  step <> 0 -> int_range (start + Z.of_nat fuel * step) ->
  RangeContainer.elements fuel (Range.Range start stop step) = None.
Proof.
  intros Off _ _ _ _ _.
  unfold RangeContainer.elements, Range.Range, Range.RangeImpl.
  cbn [RangeContainer.start_ RangeContainer.end_].
  unfold Range.make at 1. apply visit_off_grid, Off.
Qed.

Lemma range_off_grid_never_ends_witness :
  RangeContainer.elements 50 (Range.Range 1 8 2) = None.
Proof.
  apply (range_off_grid_never_ends 1 8 2 50);
    [intros n; lia | unfold int_range; lia ..].
Defined.

(** ** Tuples and [Zip] *)

Section TupleFacts.
Context {X : Type}.

Lemma find_if_impl_first (run : nat -> X -> bool) (t : list X) :
  forall I,
  exists k,
    tuple_find_if_impl run I t = (I + k)%nat /\
    (k <= length t)%nat /\
    (forall j x, (j < k)%nat -> nth_error t j = Some x ->
                 run (I + j)%nat x = false) /\
    (forall x, nth_error t k = Some x -> run (I + k)%nat x = true).
Proof.
  induction t as [|y t IH]; intros I.
  - exists O. cbn [tuple_find_if_impl length]. rewrite Nat.add_0_r.
    split; [reflexivity|]. split; [lia|]. split.
    + intros j x L. lia.
    + intros x E. discriminate.
  - cbn [tuple_find_if_impl]. destruct (run I y) eqn:E.
    + exists O. rewrite Nat.add_0_r. split; [reflexivity|].
      split; [lia|]. split.
      * intros j x L. lia.
      * intros x [= <-]. exact E.
    + destruct (IH (S I)) as (k & Ek & L & F & T).
      exists (S k). split; [rewrite Ek; lia|]. split; [cbn; lia|]. split.
      * intros [|j] x Lj Ej; cbn in Ej.
        -- injection Ej as <-. rewrite Nat.add_0_r. exact E.
        -- replace (I + S j)%nat with (S I + j)%nat by lia.
           apply F; [lia | exact Ej].
      * intros x Ex. cbn in Ex.
        replace (I + S k)%nat with (S I + k)%nat by lia. auto.
Qed.

End TupleFacts.

(** X18.  [tuple_find_if] returns the index of the first element on which
    the functor returns true, and the size of the tuple when there is
    none: the result is at most the size, the functor is false on every
    element before it, and true on the element at it, if any. *)
Theorem tuple_find_if_finds_the_first {X : Type} (t : list X)
    (run : nat -> X -> bool) :
  let i := tuple_find_if t run in
  (i <= length t)%nat /\
  (forall j x, (j < i)%nat -> nth_error t j = Some x -> run j x = false) /\
  (forall x, nth_error t i = Some x -> run i x = true) /\
  (i = length t <-> forall j x, nth_error t j = Some x -> run j x = false).
Proof.
  cbv zeta. unfold tuple_find_if.
  destruct (find_if_impl_first run t O) as (k & E & L & F & T).
  rewrite E. cbn [Nat.add] in *. split; [exact L|]. split; [exact F|].
  split; [exact T|]. split.
  - intros -> j x Ej. apply F; [|exact Ej].
    apply nth_error_Some. congruence.
  - intros All. destruct (Nat.eq_dec k (length t)) as [|N]; [assumption|].
    destruct (nth_error t k) as [x|] eqn:Ex.
    + pose proof (T x eq_refl) as Tx. rewrite (All k x Ex) in Tx. discriminate.
    + apply nth_error_None in Ex. lia.
Qed.

Lemma tuple_find_if_finds_the_first_witness :
  Z.even 4
  = true /\
  tuple_find_if [3; 5; 4; 8] (fun (_ : nat) (x : Z) => Z.even x) = 2%nat.
Proof.
  split; [|reflexivity].
  apply (proj1 (proj2 (proj2 (tuple_find_if_finds_the_first
                                [3; 5; 4; 8]
                                (fun (_ : nat) (x : Z) => Z.even x)))) 4).
  reflexivity.
Defined.

Section ZipFacts.

Lemma zip_size_fold (cs : list (list Z)) :
  forall (I : nat) (acc : Z),
  let m := tuple_accumulate_impl Zip.size_run I cs acc in
  m <= acc /\
  Forall (fun c => m <= Z.of_nat (length c)) cs /\
  (m = acc \/ Exists (fun c => m = Z.of_nat (length c)) cs).
Proof.
  induction cs as [|c cs IH]; intros I acc; cbv zeta.
  - cbn. split; [lia|]. split; [constructor | left; reflexivity].
  - cbn [tuple_accumulate_impl].
    destruct (IH (S I) (Zip.size_run I acc c)) as (Le & F & E).
    unfold Zip.size_run in *.
    set (m := tuple_accumulate_impl _ _ _ _) in *.
    split; [lia|]. split.
    + constructor; [lia | exact F].
    + destruct E as [E|E]; [|right; right; exact E].
      destruct (Z.min_spec acc (Z.of_nat (length c))) as [[_ M]|[_ M]];
        rewrite M in E; [left; exact E | right; left; exact E].
Qed.

Lemma transform2_constant (k : nat) (lens : list nat) :
  forall I,
  tuple_transform2_impl Zip.Comparer I (map (fun _ => k) lens) lens
  = map (fun l => (k =? l)%nat) lens.
Proof.
  induction lens as [|l lens IH]; intros I; [reflexivity|].
  cbn [map tuple_transform2_impl]. rewrite IH. reflexivity.
Qed.

Lemma any_true_fold (bs : list bool) :
  forall I acc,
  tuple_accumulate_impl Zip.AnyTrue I bs acc = acc || existsb (fun b => b) bs.
Proof.
  induction bs as [|b bs IH]; intros I acc; cbn [tuple_accumulate_impl existsb].
  - rewrite orb_false_r. reflexivity.
  - rewrite IH. unfold Zip.AnyTrue. rewrite orb_assoc. reflexivity.
Qed.

Lemma existsb_of_map {T : Type} (f : T -> bool) (l : list T) :
  existsb (fun b => b) (map f l) = existsb f l.
Proof.
  induction l as [|x l IH]; [reflexivity|]. cbn. rewrite IH. reflexivity.
Qed.

(** One step from the common position [k]. *)
Lemma zip_run_step (start lens : list nat) (k : nat) :
  Zip.run start lens (map (fun _ => k) lens)
  = if existsb (fun l => (S k =? l)%nat) lens then lens
    else map (fun _ => S k) lens.
Proof.
  unfold Zip.run. cbv zeta. rewrite map_map.
  unfold tuple_transform2, tuple_accumulate.
  rewrite transform2_constant, any_true_fold. cbn [orb].
  rewrite existsb_of_map. reflexivity.
Qed.

End ZipFacts.

(** X19.  The size reduction of [Zip] yields the size of the shortest
    container: no container is shorter and one is exactly that long. *)
Theorem zip_size_is_the_shortest (cs : list (list Z)) :
  cs <> [] -> Forall (fun c => Z.of_nat (length c) < size_max) cs ->
  let m := tuple_accumulate cs Zip.size_run Zip.initial_value in
  Forall (fun c => m <= Z.of_nat (length c)) cs /\
  Exists (fun c => m = Z.of_nat (length c)) cs.
Proof.
  intros NE B. cbv zeta. unfold tuple_accumulate.
  destruct (zip_size_fold cs O Zip.initial_value) as (Le & F & E).
  split; [exact F|]. destruct E as [E|E]; [|exact E].
  destruct cs as [|c cs]; [congruence|]. left.
  inversion F as [|? ? Fc _]; subst. inversion B as [|? ? Bc _]; subst.
  cbv beta in *. unfold Zip.initial_value in *. lia.
Qed.

Lemma zip_size_is_the_shortest_witness :
  let m := tuple_accumulate [[1; 2; 3]; [4; 5]] Zip.size_run Zip.initial_value in
  Forall (fun c => m <= Z.of_nat (length c)) [[1; 2; 3]; [4; 5]] /\
  Exists (fun c => m = Z.of_nat (length c)) [[1; 2; 3]; [4; 5]].
Proof.
  apply (zip_size_is_the_shortest [[1; 2; 3]; [4; 5]]).
  - discriminate.
  - repeat constructor.
Defined.

(** X20.  [ZipIncrementFunctor::run] moves all component iterators in
    lock-step and ends with the shortest container: for containers of
    sizes [lens], the smallest size [m] being positive, [k <= m] calls
    from the tuple of [begin()]s leave every iterator at position [k]
    while [k < m], and leave exactly the tuple of [end()]s once
    [k = m], also when the containers differ in size. *)
Theorem zip_steps_in_lockstep (lens : list nat) (m k : nat) :
  In m lens -> Forall (fun l => (m <= l)%nat) lens ->
  (0 < m)%nat -> (k <= m)%nat ->
  let begins := map (fun _ => O) lens in
  Nat.iter k (Zip.run begins lens) begins
  = if (k <? m)%nat then map (fun _ => k) lens else lens.
Proof.
  intros M F Pos. cbv zeta. induction k as [|k IH]; intros L.
  - destruct (Nat.ltb_spec 0 m); [reflexivity | lia].
  - rewrite Nat.iter_succ, IH by lia.
    destruct (Nat.ltb_spec k m); [|lia].
    rewrite zip_run_step.
    destruct (Nat.ltb_spec (S k) m) as [Lt|Ge].
    + destruct (existsb _ lens) eqn:E; [|reflexivity].
      apply existsb_exists in E as (l & Ml & El).
      rewrite Forall_forall in F. specialize (F l Ml).
      apply Nat.eqb_eq in El. lia.
    + assert (E : existsb (fun l => (S k =? l)%nat) lens = true).
      { apply existsb_exists. exists m. split; [exact M|].
        apply Nat.eqb_eq. lia. }
      rewrite E. reflexivity.
Qed.

Lemma zip_steps_in_lockstep_witness :
  Nat.iter 1 (Zip.run (map (fun _ => O) [3; 2]%nat) [3; 2]%nat)
           (map (fun _ => O) [3; 2]%nat) = [1; 1]%nat /\
  Nat.iter 2 (Zip.run (map (fun _ => O) [3; 2]%nat) [3; 2]%nat)
           (map (fun _ => O) [3; 2]%nat) = [3; 2]%nat.
Proof.
  split.
  - apply (zip_steps_in_lockstep [3; 2]%nat 2 1);
      [right; left; reflexivity | repeat constructor | lia | lia].
  - apply (zip_steps_in_lockstep [3; 2]%nat 2 2);
      [right; left; reflexivity | repeat constructor | lia | lia].
Defined.

(** ** The odometer over any number of containers *)

Section OdometerFacts.
Import CartesianProduct.

Lemma incrementer_past (l : list nat) :
  forall I t, (t < I)%nat -> tuple_transform_impl (Incrementer t) I l = l.
Proof.
  induction l as [|x l IH]; intros I t L; [reflexivity|].
  cbn [tuple_transform_impl]. unfold Incrementer at 1.
  destruct (Nat.eqb_spec I t); [lia|]. rewrite IH by lia. reflexivity.
Qed.

Lemma incrementer_at (l1 : list nat) (x : nat) (l2 : list nat) :
  forall I,
  tuple_transform_impl (Incrementer (I + length l1)) I (l1 ++ x :: l2)
  = l1 ++ S x :: l2.
Proof.
  induction l1 as [|e l1 IH]; intros I; cbn [app length tuple_transform_impl].
  - unfold Incrementer at 1. rewrite Nat.add_0_r, Nat.eqb_refl.
    rewrite incrementer_past by lia. reflexivity.
  - unfold Incrementer at 1. destruct (Nat.eqb_spec I (I + S (length l1)));
      [lia|].
    replace (I + S (length l1))%nat with (S I + length l1)%nat by lia.
    rewrite IH. reflexivity.
Qed.

Lemma reseter_from (start l2 : list nat) :
  (forall I, nth I start O = O) ->
  forall I t, (t <= I)%nat ->
  tuple_transform_impl (Reseter start t) I l2 = map (fun _ => O) l2.
Proof.
  intros Z0. induction l2 as [|x l2 IH]; intros I t L; [reflexivity|].
  cbn [tuple_transform_impl map]. unfold Reseter at 1.
  destruct (Nat.leb_spec t I); [|lia]. rewrite Z0, IH by lia. reflexivity.
Qed.

Lemma reseter_at (start l1 l2 : list nat) :
  (forall I, nth I start O = O) ->
  forall I,
  tuple_transform_impl (Reseter start (I + length l1)) I (l1 ++ l2)
  = l1 ++ map (fun _ => O) l2.
Proof.
  intros Z0. induction l1 as [|e l1 IH]; intros I;
    cbn [app length tuple_transform_impl].
  - apply reseter_from; [exact Z0 | lia].
  - unfold Reseter at 1. destruct (Nat.leb_spec (I + S (length l1)) I); [lia|].
    replace (I + S (length l1))%nat with (S I + length l1)%nat by lia.
    rewrite IH. reflexivity.
Qed.

(** Iterators that are not at their ends are passed over by the search
    for the first one that is. *)
Lemma find_at_end_skip (v l : list nat) :
  Forall2 (fun p q => p <> q) v l ->
  forall skip rest vrest,
  tuple_find_if_impl (AtEnd (skip ++ l ++ rest)) (length skip) (v ++ vrest)
  = tuple_find_if_impl (AtEnd (skip ++ l ++ rest)) (length skip + length v)
                       vrest.
Proof.
  induction 1 as [|p q v l Ne F IH]; intros skip rest vrest.
  - cbn [app length]. rewrite Nat.add_0_r. reflexivity.
  - cbn [app length tuple_find_if_impl]. unfold AtEnd at 1.
    rewrite app_nth2, Nat.sub_diag by lia. cbn [nth].
    destruct (Nat.eqb_spec p q); [contradiction|].
    specialize (IH (skip ++ [q]) rest vrest).
    rewrite length_app in IH. cbn [length] in IH.
    rewrite <- app_assoc in IH. cbn [app] in IH.
    replace (length skip + 1)%nat with (S (length skip)) in IH by lia.
    rewrite IH. f_equal. lia.
Qed.

Lemma find_at_end_hit (skip : list nat) (q : nat) (rest vrest : list nat) :
  tuple_find_if_impl (AtEnd (skip ++ q :: rest)) (length skip) (q :: vrest)
  = length skip.
Proof.
  cbn [tuple_find_if_impl]. unfold AtEnd.
  rewrite app_nth2, Nat.sub_diag by lia. cbn [nth].
  rewrite Nat.eqb_refl. reflexivity.
Qed.

(** A turn of the loop on an iterator at its last position: it is moved
    to its end and the loop goes on to its left neighbour. *)
Lemma run_loop_turn (start front lfront : list nat) (p : nat)
    (tail : list nat) (fuel : nat) :
  Forall2 (fun p q => p <> q) front lfront ->
  run_loop (S fuel) start (lfront ++ S p :: tail) (front ++ p :: tail)
           (length front + 1)
  = run_loop fuel start (lfront ++ S p :: tail) (front ++ S p :: tail)
             (length front).
Proof.
  intros Ff. cbn [run_loop].
  destruct (Nat.eqb_spec (length front + 1) 0); [lia|].
  replace (length front + 1 - 1)%nat with (0 + length front)%nat by lia.
  unfold tuple_transform. rewrite !incrementer_at.
  unfold tuple_find_if.
  pose proof (find_at_end_skip _ _ Ff [] (S p :: tail) (S p :: tail)) as Sk.
  cbn [app length Nat.add] in Sk. rewrite Sk.
  pose proof (find_at_end_hit lfront (S p) tail tail) as Hit.
  rewrite <- (Forall2_length Ff) in Hit. rewrite Hit.
  destruct (Nat.eqb_spec (length front) (length front + 1)); [lia|].
  reflexivity.
Qed.

(** The carries: iterators at their last positions, from the right, are
    moved to their ends one turn of the loop each. *)
Lemma run_loop_carry (start : list nat) (suf : list nat) :
  forall lsuf front lfront tail fuel,
  Forall2 (fun p l => S p = l) suf lsuf ->
  Forall2 (fun p q => p <> q) front lfront ->
  (length suf <= fuel)%nat ->
  run_loop fuel start (lfront ++ lsuf ++ tail) (front ++ suf ++ tail)
           (length front + length suf)
  = run_loop (fuel - length suf) start (lfront ++ lsuf ++ tail)
             (front ++ lsuf ++ tail) (length front).
Proof.
  induction suf as [|p s' IH] using rev_ind;
    intros lsuf front lfront tail fuel Fs Ff L.
  - inversion Fs; subst. cbn [length app]. rewrite Nat.add_0_r, Nat.sub_0_r.
    reflexivity.
  - apply Forall2_app_inv_l in Fs as (l' & l2 & Fs' & Fp & ->).
    inversion Fp as [|? l ? ? Ep Fn]; subst. inversion Fn; subst.
    assert (Fa : Forall2 (fun p q => p <> q) (front ++ s') (lfront ++ l')).
    { apply Forall2_app; [exact Ff|].
      eapply Forall2_impl; [|exact Fs']. cbn. intros a b E. lia. }
    rewrite length_app in L. cbn [length] in L.
    destruct fuel as [|fuel]; [lia|].
    replace (front ++ (s' ++ [p]) ++ tail) with ((front ++ s') ++ p :: tail)
      by (rewrite <- !app_assoc; reflexivity).
    replace (lfront ++ (l' ++ [S p]) ++ tail)
      with ((lfront ++ l') ++ S p :: tail)
      by (rewrite <- !app_assoc; reflexivity).
    replace (length front + length (s' ++ [p]))%nat
      with (length (front ++ s') + 1)%nat
      by (rewrite !length_app; cbn [length]; lia).
    rewrite (run_loop_turn start _ _ p tail fuel Fa).
    rewrite length_app.
    replace ((front ++ s') ++ S p :: tail) with (front ++ s' ++ S p :: tail)
      by (rewrite <- app_assoc; reflexivity).
    replace ((lfront ++ l') ++ S p :: tail) with (lfront ++ l' ++ S p :: tail)
      by (rewrite <- app_assoc; reflexivity).
    rewrite (IH l' front lfront (S p :: tail) fuel Fs' Ff ltac:(lia)).
    replace (S fuel - length (s' ++ [p]))%nat with (fuel - length s')%nat
      by (rewrite length_app; cbn [length]; lia).
    rewrite <- !app_assoc. reflexivity.
Qed.

(** The turn of the loop that finds an iterator it can move. *)
Lemma run_loop_move (start pre lpre : list nat) (d ld : nat)
    (ends : list nat) (fuel : nat) :
  (forall I, nth I start O = O) ->
  Forall2 (fun p q => p <> q) pre lpre -> S d <> ld ->
  run_loop (S fuel) start (lpre ++ ld :: ends) (pre ++ d :: ends)
           (length pre + 1)
  = Some (pre ++ S d :: map (fun _ => O) ends).
Proof.
  intros Z0 Fp Nd. cbn [run_loop].
  destruct (Nat.eqb_spec (length pre + 1) 0); [lia|].
  replace (length pre + 1 - 1)%nat with (0 + length pre)%nat by lia.
  unfold tuple_transform. rewrite !incrementer_at.
  unfold tuple_find_if.
  assert (Fa : Forall2 (fun p q => p <> q) (pre ++ [S d]) (lpre ++ [ld])).
  { apply Forall2_app; [exact Fp|]. constructor; [exact Nd | constructor]. }
  pose proof (find_at_end_skip _ _ Fa [] ends ends) as Sk.
  cbn [app length Nat.add] in Sk.
  rewrite <- !app_assoc in Sk. cbn [app] in Sk. rewrite Sk.
  rewrite length_app. cbn [length].
  assert (Hit : tuple_find_if_impl (AtEnd (lpre ++ ld :: ends))
                                   (length pre + 1) ends
                = (length pre + 1)%nat).
  { destruct ends as [|e ends]; [reflexivity|].
    pose proof (find_at_end_hit (lpre ++ [ld]) e ends ends) as H.
    rewrite length_app, <- app_assoc in H. cbn [length app] in H.
    rewrite <- (Forall2_length Fp) in H. exact H. }
  rewrite Hit, Nat.eqb_refl.
  replace (pre ++ S d :: ends) with ((pre ++ [S d]) ++ ends)
    by (rewrite <- app_assoc; reflexivity).
  replace (length pre + 1)%nat with (0 + length (pre ++ [S d]))%nat
    by (rewrite length_app; cbn; lia).
  rewrite (reseter_at start _ _ Z0). rewrite <- app_assoc. reflexivity.
Qed.

Lemma nth_begins (lens : list nat) (I : nat) :
  nth I (map (fun _ => O) lens) O = O.
Proof.
  revert I. induction lens as [|l lens IH]; intros [|I]; cbn; auto.
Qed.

End OdometerFacts.

(** X21.  [CartIncrementFunctor::run] is the increment of an odometer
    over any number of containers: the rightmost iterator that is not at
    its last element moves one on and every iterator right of it goes
    back to [begin()]; when all are at their last elements, all become
    [end()]. *)
Theorem cartesian_increment_is_an_odometer (lens : list nat) :
  let begins := map (fun _ => O) lens in
  (forall pre d suf lpre ld lsuf,
     lens = lpre ++ ld :: lsuf ->
     Forall2 (fun p l => (p < l)%nat) pre lpre -> (S d < ld)%nat ->
     Forall2 (fun p l => S p = l) suf lsuf ->
     CartesianProduct.run begins lens (pre ++ d :: suf)
     = Some (pre ++ S d :: map (fun _ => O) suf)) /\
  (forall value,
     Forall2 (fun p l => S p = l) value lens ->
     CartesianProduct.run begins lens value = Some lens).
Proof.
  cbv zeta. split.
  - intros pre d suf lpre ld lsuf -> Fp Ld Fs.
    unfold CartesianProduct.run.
    assert (Ff : Forall2 (fun p q => p <> q) (pre ++ [d]) (lpre ++ [ld])).
    { apply Forall2_app.
      - eapply Forall2_impl; [|exact Fp]. cbn. intros a b L. lia.
      - constructor; [lia | constructor]. }
    pose proof (run_loop_carry (map (fun _ => O) (lpre ++ ld :: lsuf))
                  suf lsuf (pre ++ [d]) (lpre ++ [ld]) []
                  (S (length (pre ++ d :: suf))) Fs Ff) as Carry.
    rewrite !app_nil_r, <- !app_assoc in Carry. cbn [app] in Carry.
    rewrite !length_app in *. cbn [length] in *.
    replace (length pre + S (length suf))%nat
      with (length pre + 1 + length suf)%nat in * by lia.
    rewrite Carry by lia.
    replace (S (length pre + 1 + length suf) - length suf)%nat
      with (S (length pre + 1)) by lia.
    rewrite run_loop_move.
    + f_equal. f_equal. f_equal.
      clear - Fs. induction Fs as [|x y suf lsuf _ _ IH]; [reflexivity|].
      cbn [map]. f_equal. exact IH.
    + apply nth_begins.
    + eapply Forall2_impl; [|exact Fp]. cbn. intros a b L. lia.
    + lia.
  - intros value F. unfold CartesianProduct.run.
    pose proof (run_loop_carry (map (fun _ => O) lens) value lens [] [] []
                  (S (length value)) F ltac:(constructor) ltac:(lia))
      as Carry.
    rewrite !app_nil_r in Carry. cbn [app length Nat.add] in Carry.
    rewrite Carry.
    replace (S (length value) - length value)%nat with 1%nat by lia.
    reflexivity.
Qed.

Lemma cartesian_increment_is_an_odometer_witness :
  CartesianProduct.run (map (fun _ => O) [3; 2; 2]%nat) [3; 2; 2]%nat
                       ([] ++ O :: [1; 1]%nat)
  = Some ([] ++ 1%nat :: map (fun _ => O) [1; 1]%nat) /\
  CartesianProduct.run (map (fun _ => O) [3; 2; 2]%nat) [3; 2; 2]%nat
                       [2; 1; 1]%nat
  = Some [3; 2; 2]%nat.
Proof.
  destruct (cartesian_increment_is_an_odometer [3; 2; 2]%nat) as [Move Wrap].
  split.
  - apply (Move [] O [1; 1]%nat [] 3%nat [2; 2]%nat);
      [reflexivity | constructor | lia | repeat constructor].
  - apply (Wrap [2; 1; 1]%nat). repeat constructor.
Defined.

(** ** Masks of combinations *)

Section StepPermutes.
Context {A : Type}.
Variable before : A -> A -> bool.

Lemma swap_pivot_perm (i : A) (r : list A) :
  Permutation (fst (swap_pivot before i r) :: snd (swap_pivot before i r))
              (i :: r).
Proof.
  induction r as [|x t IH]; cbn [swap_pivot]; [reflexivity|].
  destruct (before i x).
  - cbn [fst snd]. apply perm_swap.
  - destruct (swap_pivot before i t) as [j t']. cbn [fst snd] in *.
    rewrite perm_swap, IH. apply perm_swap.
Qed.

Lemma scan_perm (rpre : list A) :
  forall suf,
  Permutation (fst (permutation_scan before rpre suf)) (rev rpre ++ suf).
Proof.
  induction rpre as [|i rpre IH]; intros suf; cbn [permutation_scan].
  - cbn [fst rev app]. symmetry. apply Permutation_rev.
  - destruct suf as [|ii suf'].
    + cbn [fst]. rewrite app_nil_r. apply Permutation_rev.
    + destruct (before i ii).
      * pose proof (swap_pivot_perm i (rev (ii :: suf'))) as P.
        destruct (swap_pivot before i (rev (ii :: suf'))) as [j tl].
        cbn [fst snd] in *. cbn [rev]. rewrite <- app_assoc. cbn [app].
        apply Permutation_app_head. rewrite P. constructor.
        symmetry. apply Permutation_rev.
      * rewrite IH. cbn [rev]. rewrite <- app_assoc. reflexivity.
Qed.

(** [std::next_permutation] and [std::prev_permutation] rearrange: what
    they leave is a permutation of what they found. *)
Lemma step_perm (l : list A) :
  Permutation (fst (permutation_step before l)) l.
Proof.
  unfold permutation_step. destruct (rev l) as [|x rpre] eqn:E;
    [reflexivity|].
  destruct rpre as [|y rpre]; [reflexivity|].
  rewrite scan_perm.
  change (rev (y :: rpre) ++ [x]) with (rev (x :: y :: rpre)).
  rewrite <- E, rev_involutive. reflexivity.
Qed.

End StepPermutes.

Section MaskCounting.

Lemma count_bool_perm (v : bool) (l l' : list bool) :
  Permutation l l' -> count v l = count v l'.
Proof.
  induction 1 as [|x l l' _ IH|x y l|l l' l'' _ IH1 _ IH2];
    cbn [count]; try congruence.
  - destruct (eqb x v); congruence.
  - destruct (eqb x v), (eqb y v); reflexivity.
Qed.

Lemma count_false_mask (k m : nat) :
  count false (List.repeat false k ++ List.repeat true m) = k.
Proof.
  induction k as [|k IH]; cbn [List.repeat app count eqb Elem_bool Bool.eqb].
  - induction m as [|m IH]; [reflexivity|]. exact IH.
  - rewrite IH. reflexivity.
Qed.

Lemma count_true_mask (k m : nat) :
  count true (List.repeat false k ++ List.repeat true m) = m.
Proof.
  induction k as [|k IH]; cbn [List.repeat app count eqb Elem_bool Bool.eqb].
  - induction m as [|m IH]; [reflexivity|]. cbn [List.repeat count eqb Elem_bool Bool.eqb].
    rewrite IH. reflexivity.
  - exact IH.
Qed.

Lemma chosen_none (mask : list bool) :
  count false mask = O -> forall set, chosen set mask = [].
Proof.
  induction mask as [|b mask IH]; intros C set; [destruct set; reflexivity|].
  destruct set as [|x set]; [reflexivity|].
  destruct b; cbn [count eqb Elem_bool Bool.eqb] in C; [|discriminate].
  cbn [chosen]. apply IH, C.
Qed.

Lemma multichosen_none (mask : list bool) :
  count false mask = O -> forall set, multichosen set mask = [].
Proof.
  induction mask as [|b mask IH]; intros C set; [reflexivity|].
  destruct b; cbn [count eqb Elem_bool Bool.eqb] in C; [|discriminate].
  cbn [multichosen]. apply IH, C.
Qed.

End MaskCounting.

Section UpdateComb.

Lemma skipn_nth (l : list Z) :
  forall i v, nth_error l i = Some v -> skipn i l = v :: skipn (S i) l.
Proof.
  induction l as [|x l IH]; intros [|i] v E; cbn in E; try discriminate.
  - injection E as ->. reflexivity.
  - cbn [skipn]. rewrite (IH i v E). reflexivity.
Qed.

Lemma store_at (comb : list Z) :
  forall counter v, (counter < length comb)%nat ->
  CombinationItr.store counter v comb
  = Some (firstn counter comb ++ v :: skipn (S counter) comb).
Proof.
  induction comb as [|x comb IH]; intros counter v L; [cbn in L; lia|].
  destruct counter as [|counter]; [reflexivity|].
  cbn [CombinationItr.store]. rewrite IH by (cbn in L; lia). reflexivity.
Qed.

Lemma stored_prefix (comb : list Z) (counter : nat) (v : Z) :
  (counter < length comb)%nat ->
  let comb' := firstn counter comb ++ v :: skipn (S counter) comb in
  length comb' = length comb /\
  firstn (S counter) comb' = firstn counter comb ++ [v].
Proof.
  intros L. cbv zeta. split.
  - rewrite length_app, length_firstn. cbn [length]. rewrite length_skipn. lia.
  - replace (S counter) with (length (firstn counter comb ++ [v]))
      at 1 by (rewrite length_app, length_firstn; cbn [length]; lia).
    replace (firstn counter comb ++ v :: skipn (S counter) comb)
      with ((firstn counter comb ++ [v]) ++ skipn (S counter) comb)
      by (rewrite <- app_assoc; reflexivity).
    rewrite firstn_app, Nat.sub_diag, firstn_all. cbn [firstn].
    apply app_nil_r.
Qed.

(** Without repeats [update_comb] writes, from [counter] on, the elements
    of the set under the [false] entries of the mask. *)
Lemma update_loop_chosen (set : list Z) (p : list bool) :
  forall i counter bar comb,
  (length p + i = length set)%nat ->
  (count false p + counter = length comb)%nat ->
  CombinationItr.update_loop (repeat := false) set p i counter bar comb
  = Some (firstn counter comb ++ chosen (skipn i set) p).
Proof.
  induction p as [|b p IH]; intros i counter bar comb L C.
  - cbn [count Nat.add] in C. subst counter. cbn [CombinationItr.update_loop].
    rewrite firstn_all. destruct (skipn i set); cbn [chosen];
      rewrite app_nil_r; reflexivity.
  - cbn [length] in L.
    destruct (nth_error set i) as [v|] eqn:Ev;
      [|apply nth_error_None in Ev; lia].
    assert (Es : skipn i set = v :: skipn (S i) set).
    { apply skipn_nth, Ev. }
    rewrite Es. cbn [CombinationItr.update_loop chosen].
    destruct b; cbn [negb count eqb Elem_bool Bool.eqb] in *.
    + destruct (Nat.eqb_spec counter (length comb)) as [E|N].
      * rewrite chosen_none by lia. subst counter.
        rewrite firstn_all, app_nil_r. reflexivity.
      * apply IH; lia.
    + rewrite Ev. rewrite store_at by lia.
      destruct (stored_prefix comb counter v ltac:(lia)) as [Len Pre].
      cbv zeta in Len, Pre.
      destruct (Nat.eqb_spec (S counter) (length comb)) as [E|N].
      * rewrite chosen_none by lia.
        rewrite skipn_all2 by lia. reflexivity.
      * rewrite IH by lia. rewrite Pre, <- app_assoc. reflexivity.
Qed.

(** With repeats the element taken under a [false] is the one with as
    many [true]s before it as its index. *)
Lemma update_loop_multichosen (set : list Z) (p : list bool) :
  forall i counter bar comb,
  (count true p + bar < length set)%nat ->
  (count false p + counter = length comb)%nat ->
  CombinationItr.update_loop (repeat := true) set p i counter bar comb
  = Some (firstn counter comb ++ multichosen (skipn bar set) p).
Proof.
  induction p as [|b p IH]; intros i counter bar comb L C.
  - cbn [count Nat.add] in C. subst counter. cbn [CombinationItr.update_loop].
    rewrite firstn_all. cbn [multichosen]. rewrite app_nil_r. reflexivity.
  - destruct (nth_error set bar) as [v|] eqn:Ev;
      [|apply nth_error_None in Ev; lia].
    assert (Es : skipn bar set = v :: skipn (S bar) set).
    { apply skipn_nth, Ev. }
    cbn [CombinationItr.update_loop multichosen].
    destruct b; cbn [negb count eqb Elem_bool Bool.eqb] in *.
    + rewrite Es. cbn [tl].
      destruct (Nat.eqb_spec counter (length comb)) as [E|N].
      * rewrite multichosen_none by lia. subst counter.
        rewrite firstn_all, app_nil_r. reflexivity.
      * apply IH; lia.
    + rewrite Ev, Es. rewrite store_at by lia.
      destruct (stored_prefix comb counter v ltac:(lia)) as [Len Pre].
      cbv zeta in Len, Pre.
      destruct (Nat.eqb_spec (S counter) (length comb)) as [E|N].
      * rewrite multichosen_none by lia.
        rewrite skipn_all2 by lia. reflexivity.
      * rewrite IH by lia. rewrite Pre, <- app_assoc, <- Es. reflexivity.
Qed.

End UpdateComb.

(** ** Combinations *)

Section CombinationFacts.

Lemma chosen_length (mask : list bool) :
  forall set, length mask = length set ->
  length (chosen set mask) = count false mask.
Proof.
  induction mask as [|b mask IH]; intros [|x set] L; cbn in L;
    try discriminate; [reflexivity|].
  cbn [chosen count eqb Elem_bool Bool.eqb].
  destruct b; cbn [length]; rewrite IH by lia; reflexivity.
Qed.

Lemma multichosen_length (mask : list bool) :
  forall set, (count true mask < length set)%nat ->
  length (multichosen set mask) = count false mask.
Proof.
  induction mask as [|b mask IH]; intros set L; [reflexivity|].
  destruct b; cbn [multichosen count eqb Elem_bool Bool.eqb] in *.
  - apply IH. destruct set; cbn [tl length] in *; lia.
  - destruct set as [|x set]; [cbn in L; lia|].
    cbn [length]. rewrite IH by exact L. reflexivity.
Qed.

Lemma chosen_first (set : list Z) :
  forall k, (k <= length set)%nat ->
  chosen set (List.repeat false k ++ List.repeat true (length set - k))
  = firstn k set.
Proof.
  induction set as [|x set IH]; intros k L.
  - destruct k; [reflexivity | cbn in L; lia].
  - destruct k as [|k]; cbn [length Nat.sub List.repeat app chosen firstn].
    + apply chosen_none. clear. induction (length set); [reflexivity|].
      assumption.
    + f_equal. apply IH. cbn in L. lia.
Qed.

Lemma multichosen_first (x : Z) (set : list Z) (k m : nat) :
  multichosen (x :: set) (List.repeat false k ++ List.repeat true m)
  = List.repeat x k.
Proof.
  induction k as [|k IH]; cbn [List.repeat app multichosen].
  - apply multichosen_none. clear. induction m; [reflexivity | assumption].
  - f_equal. exact IH.
Qed.

Lemma selection_update (s : list Z) (k : nat) (comb : list Z)
    (perm : PermutationItr.t bool) :
  length comb = k ->
  length (PermutationItr.set_ perm) = length s ->
  count false (PermutationItr.set_ perm) = k ->
  exists c,
    CombinationItr.update_comb (repeat := false)
      (CombinationItr.Build s comb perm) = Some c /\
    selection s k c.
Proof.
  intros Lc Lm Cm. unfold CombinationItr.update_comb.
  cbn [CombinationItr.set_ CombinationItr.comb_ CombinationItr.current_perm_].
  unfold PermutationItr.deref.
  rewrite update_loop_chosen by lia. cbn [firstn skipn app option_map].
  eexists. split; [reflexivity|]. unfold selection.
  cbn [CombinationItr.set_ CombinationItr.comb_ CombinationItr.current_perm_].
  auto.
Qed.

Lemma selection_incr (s : list Z) (k : nat) (c : CombinationItr.t Z false) :
  selection s k c ->
  exists c', CombinationItr.incr c = Some c' /\ selection s k c'.
Proof.
  intros (Es & Lm & Cm & Ec). unfold CombinationItr.incr. rewrite Es.
  pose proof (step_perm ltb (PermutationItr.set_
                               (CombinationItr.current_perm_ c))) as P.
  apply selection_update.
  - rewrite Ec, chosen_length by exact Lm. exact Cm.
  - unfold PermutationItr.incr. cbn [PermutationItr.set_].
    unfold next_permutation. rewrite (Permutation_length P). exact Lm.
  - unfold PermutationItr.incr. cbn [PermutationItr.set_].
    unfold next_permutation. rewrite (count_bool_perm _ _ _ P). exact Cm.
Qed.

Lemma selection_increments (s : list Z) (k j : nat) :
  forall c, selection s k c ->
  exists c', increments j c = Some c' /\ selection s k c'.
Proof.
  induction j as [|j IH]; intros c Sel; [exists c; auto|].
  destruct (selection_incr s k c Sel) as (c1 & E1 & S1).
  cbn [increments]. rewrite E1. apply IH, S1.
Qed.

Lemma make_selection (s : list Z) (k : nat) (at_end : bool) :
  (k <= length s)%nat ->
  exists b, CombinationItr.make (repeat := false) s k at_end = Some b /\
            selection s k b /\
            CombinationItr.comb_ b = firstn k s.
Proof.
  intros L. unfold CombinationItr.make. cbn [negb].
  unfold CombinationItr.mask.
  destruct (Nat.leb_spec k (length s)); [|lia].
  set (temp := List.repeat false k ++ List.repeat true (length s - k)).
  assert (Lt : length temp = length s)
    by (subst temp; rewrite length_app, !repeat_length; lia).
  assert (Ct : count false temp = k) by apply count_false_mask.
  assert (Lp : forall off,
            PermutationItr.set_ (PermutationItr.make temp off) = temp)
    by reflexivity.
  destruct (selection_update s k (List.repeat value_init k)
              (if at_end
               then RangeContainer.end_ (PermutationItr.Permutations temp)
               else RangeContainer.start_ (PermutationItr.Permutations temp)))
    as (b & Eb & Sb).
  - apply repeat_length.
  - destruct at_end; cbn [PermutationItr.Permutations RangeContainer.end_
                            RangeContainer.start_]; rewrite Lp; exact Lt.
  - destruct at_end; cbn [PermutationItr.Permutations RangeContainer.end_
                            RangeContainer.start_]; rewrite Lp; exact Ct.
  - exists b. split; [exact Eb|]. split; [exact Sb|].
    destruct Sb as (_ & _ & _ & Ec). rewrite Ec.
    unfold CombinationItr.update_comb in Eb.
    destruct (CombinationItr.update_loop _ _ _ _ _ _) as [comb|];
      [|discriminate].
    injection Eb as <-. cbn [CombinationItr.current_perm_].
    destruct at_end; cbn [PermutationItr.Permutations RangeContainer.end_
                            RangeContainer.start_]; rewrite Lp;
      apply chosen_first, L.
Qed.

Lemma multiselection_update (s : list Z) (k : nat) (comb : list Z)
    (perm : PermutationItr.t bool) :
  length comb = k ->
  (count true (PermutationItr.set_ perm) < length s)%nat ->
  count false (PermutationItr.set_ perm) = k ->
  exists c,
    CombinationItr.update_comb (repeat := true)
      (CombinationItr.Build s comb perm) = Some c /\
    multiselection s k c.
Proof.
  intros Lc Lm Cm. unfold CombinationItr.update_comb.
  cbn [CombinationItr.set_ CombinationItr.comb_ CombinationItr.current_perm_].
  unfold PermutationItr.deref.
  rewrite update_loop_multichosen by lia. cbn [firstn skipn app option_map].
  eexists. split; [reflexivity|]. unfold multiselection.
  cbn [CombinationItr.set_ CombinationItr.comb_ CombinationItr.current_perm_].
  auto.
Qed.

Lemma multiselection_incr (s : list Z) (k : nat)
    (c : CombinationItr.t Z true) :
  multiselection s k c ->
  exists c', CombinationItr.incr c = Some c' /\ multiselection s k c'.
Proof.
  intros (Es & Lm & Cm & Ec). unfold CombinationItr.incr. rewrite Es.
  pose proof (step_perm ltb (PermutationItr.set_
                               (CombinationItr.current_perm_ c))) as P.
  apply multiselection_update.
  - rewrite Ec, multichosen_length by exact Lm. exact Cm.
  - unfold PermutationItr.incr. cbn [PermutationItr.set_].
    unfold next_permutation. rewrite (count_bool_perm _ _ _ P). exact Lm.
  - unfold PermutationItr.incr. cbn [PermutationItr.set_].
    unfold next_permutation. rewrite (count_bool_perm _ _ _ P). exact Cm.
Qed.

Lemma multiselection_increments (s : list Z) (k j : nat) :
  forall c, multiselection s k c ->
  exists c', increments j c = Some c' /\ multiselection s k c'.
Proof.
  induction j as [|j IH]; intros c Sel; [exists c; auto|].
  destruct (multiselection_incr s k c Sel) as (c1 & E1 & S1).
  cbn [increments]. rewrite E1. apply IH, S1.
Qed.

Lemma make_multiselection (x : Z) (s : list Z) (k : nat) (at_end : bool) :
  Z.of_nat (length (x :: s) + k) <= size_max ->
  exists b, CombinationItr.make (repeat := true) (x :: s) k at_end = Some b /\
            multiselection (x :: s) k b /\
            CombinationItr.comb_ b = List.repeat x k.
Proof.
  intros B. unfold CombinationItr.make. cbn [negb].
  cbn [length Nat.eqb negb orb] in *.
  rewrite to_size_t_small by lia.
  replace (Z.to_nat (Z.of_nat (S (length s)) + Z.of_nat k - 1))
    with (length s + k)%nat by lia.
  unfold CombinationItr.mask.
  destruct (Nat.leb_spec k (length s + k)); [|lia].
  replace (length s + k - k)%nat with (length s) by lia.
  set (temp := List.repeat false k ++ List.repeat true (length s)).
  assert (Lt : (count true temp < length (x :: s))%nat)
    by (subst temp; rewrite count_true_mask; cbn; lia).
  assert (Ct : count false temp = k) by apply count_false_mask.
  assert (Lp : forall off,
            PermutationItr.set_ (PermutationItr.make temp off) = temp)
    by reflexivity.
  destruct (multiselection_update (x :: s) k (List.repeat value_init k)
              (if at_end
               then RangeContainer.end_ (PermutationItr.Permutations temp)
               else RangeContainer.start_ (PermutationItr.Permutations temp)))
    as (b & Eb & Sb).
  - apply repeat_length.
  - destruct at_end; cbn [PermutationItr.Permutations RangeContainer.end_
                            RangeContainer.start_]; rewrite Lp; exact Lt.
  - destruct at_end; cbn [PermutationItr.Permutations RangeContainer.end_
                            RangeContainer.start_]; rewrite Lp; exact Ct.
  - exists b. split; [exact Eb|]. split; [exact Sb|].
    destruct Sb as (_ & _ & _ & Ec). rewrite Ec.
    unfold CombinationItr.update_comb in Eb.
    destruct (CombinationItr.update_loop _ _ _ _ _ _) as [comb|];
      [|discriminate].
    injection Eb as <-. cbn [CombinationItr.current_perm_].
    destruct at_end; cbn [PermutationItr.Permutations RangeContainer.end_
                            RangeContainer.start_]; rewrite Lp;
      apply multichosen_first.
Qed.

(** The mask of an iterator is stepped by [incr] and left alone by
    [update_comb]. *)
Lemma update_comb_perm {repeat : bool} (c c' : CombinationItr.t Z repeat) :
  CombinationItr.update_comb c = Some c' ->
  CombinationItr.current_perm_ c' = CombinationItr.current_perm_ c.
Proof.
  unfold CombinationItr.update_comb.
  destruct (CombinationItr.update_loop _ _ _ _ _ _) as [comb|];
    [|discriminate].
  intros [= <-]. reflexivity.
Qed.

Lemma increments_perm {repeat : bool} (j : nat) :
  forall c c' : CombinationItr.t Z repeat,
  increments j c = Some c' ->
  CombinationItr.current_perm_ c'
  = Nat.iter j PermutationItr.incr (CombinationItr.current_perm_ c).
Proof.
  induction j as [|j IH]; intros c c' E.
  - injection E as <-. reflexivity.
  - cbn [increments] in E.
    destruct (CombinationItr.incr c) as [c1|] eqn:E1; [|discriminate].
    rewrite (IH c1 c' E). unfold CombinationItr.incr in E1.
    rewrite (update_comb_perm _ _ E1). cbn [CombinationItr.current_perm_].
    symmetry. apply Nat.iter_succ_r.
Qed.

Lemma make_perm {repeat : bool} (s : list Z) (k : nat)
    (b : CombinationItr.t Z repeat) (temp : list bool) :
  CombinationItr.make s k false = Some b ->
  CombinationItr.mask
    (if negb repeat then length s
     else if negb (length s =? 0)%nat || negb (k =? 0)%nat
          then Z.to_nat (to_size_t (Z.of_nat (length s) + Z.of_nat k - 1))
          else O) k = Some temp ->
  CombinationItr.current_perm_ b = PermutationItr.make temp 0.
Proof.
  unfold CombinationItr.make. intros E M. cbv zeta in E. rewrite M in E.
  rewrite (update_comb_perm _ _ E). reflexivity.
Qed.

End CombinationFacts.

(** X22.  Without repeats, for [k <= size] the constructor of a
    [CombinationItr] succeeds and its first combination is the first [k]
    elements.  Every increment, however many, succeeds, and the iterator
    reached by [j] of them holds as its mask the constructor's mask ([k]
    times [false], then [true]s) stepped [j] times by the permutation
    iterator, and as its combination the elements of the sequence at the
    positions where that mask is [false]: exactly [k] elements, in their
    original order; [update_comb] never indexes out of range. *)
Theorem combinations_select_by_mask (s : list Z) (k j : nat) :
  (k <= length s)%nat ->
  exists b c,
    CombinationItr.make (repeat := false) s k false = Some b /\
    dereference b = firstn k s /\
    increments j b = Some c /\
    CombinationItr.current_perm_ c
    = Nat.iter j PermutationItr.incr
        (PermutationItr.make
           (List.repeat false k ++ List.repeat true (length s - k)) 0) /\
    length (PermutationItr.deref (CombinationItr.current_perm_ c))
    = length s /\
    count false (PermutationItr.deref (CombinationItr.current_perm_ c)) = k /\
    dereference c
    = chosen s (PermutationItr.deref (CombinationItr.current_perm_ c)) /\
    length (dereference c) = k.
Proof.
  intros L.
  destruct (make_selection s k false L) as (b & Eb & Sb & Fb).
  destruct (selection_increments s k j b Sb) as (c & Ec & (Es & Lm & Cm & Ch)).
  exists b, c.
  cbn [dereference CombinationItr.iterator]. unfold PermutationItr.deref.
  split; [exact Eb|]. split; [exact Fb|]. split; [exact Ec|]. split.
  { rewrite (increments_perm j b c Ec). f_equal.
    apply (make_perm s k b _ Eb). cbn [negb].
    unfold CombinationItr.mask.
    destruct (Nat.leb_spec k (length s)); [reflexivity | lia]. }
  repeat (split; [assumption|]).
  rewrite Ch, chosen_length by exact Lm. exact Cm.
Qed.

Lemma combinations_select_by_mask_witness :
  exists b c,
    CombinationItr.make (repeat := false) [5; 6; 7] 2 false = Some b /\
    dereference b = firstn 2 [5; 6; 7] /\
    increments 1 b = Some c /\
    CombinationItr.current_perm_ c
    = Nat.iter 1 PermutationItr.incr
        (PermutationItr.make
           (List.repeat false 2 ++ List.repeat true (length [5; 6; 7] - 2))
           0) /\
    length (PermutationItr.deref (CombinationItr.current_perm_ c))
    = length [5; 6; 7] /\
    count false (PermutationItr.deref (CombinationItr.current_perm_ c))
    = 2%nat /\
    dereference c
    = chosen [5; 6; 7] (PermutationItr.deref (CombinationItr.current_perm_ c)) /\
    length (dereference c) = 2%nat.
Proof. apply (combinations_select_by_mask [5; 6; 7] 2 1). cbn. lia. Defined.

(** X23.  With repeats, over a non-empty sequence the constructor of a
    [CombinationItr] succeeds and its first combination is [k] copies of
    the first element.  Every increment, however many, succeeds, and the
    iterator reached by [j] of them holds as its mask the constructor's
    stars-and-bars mask ([k] times [false], then [size - 1] times
    [true]) stepped [j] times by the permutation iterator, and as its
    combination what that mask reads off the sequence (a [false] takes
    the current element, a [true] moves on to the next): exactly [k]
    elements, so an element may repeat and the positions taken never
    decrease; [update_comb] never indexes out of range. *)
Theorem combinations_with_repeat_read_stars_and_bars
    (x : Z) (s : list Z) (k j : nat) :
  Z.of_nat (length (x :: s) + k) <= size_max ->
  exists b c,
    CombinationItr.make (repeat := true) (x :: s) k false = Some b /\
    dereference b = List.repeat x k /\
    increments j b = Some c /\
    CombinationItr.current_perm_ c
    = Nat.iter j PermutationItr.incr
        (PermutationItr.make
           (List.repeat false k ++ List.repeat true (length s)) 0) /\
    (count true (PermutationItr.deref (CombinationItr.current_perm_ c))
     < length (x :: s))%nat /\
    count false (PermutationItr.deref (CombinationItr.current_perm_ c)) = k /\
    dereference c
    = multichosen (x :: s)
        (PermutationItr.deref (CombinationItr.current_perm_ c)) /\
    length (dereference c) = k.
Proof.
  intros B.
  destruct (make_multiselection x s k false B) as (b & Eb & Sb & Fb).
  destruct (multiselection_increments (x :: s) k j b Sb)
    as (c & Ec & (Es & Lm & Cm & Ch)).
  exists b, c.
  cbn [dereference CombinationItr.iterator]. unfold PermutationItr.deref.
  split; [exact Eb|]. split; [exact Fb|]. split; [exact Ec|]. split.
  { rewrite (increments_perm j b c Ec). f_equal.
    apply (make_perm (x :: s) k b _ Eb). cbn [negb].
    cbn [length Nat.eqb negb orb] in *.
    rewrite to_size_t_small by lia.
    replace (Z.to_nat (Z.of_nat (S (length s)) + Z.of_nat k - 1))
      with (length s + k)%nat by lia.
    unfold CombinationItr.mask.
    destruct (Nat.leb_spec k (length s + k)); [|lia].
    replace (length s + k - k)%nat with (length s) by lia. reflexivity. }
  repeat (split; [assumption|]).
  rewrite Ch, multichosen_length by exact Lm. exact Cm.
Qed.

Lemma combinations_with_repeat_read_stars_and_bars_witness :
  exists b c,
    CombinationItr.make (repeat := true) (1 :: [2]) 2 false = Some b /\
    dereference b = List.repeat 1 2 /\
    increments 1 b = Some c /\
    CombinationItr.current_perm_ c
    = Nat.iter 1 PermutationItr.incr
        (PermutationItr.make
           (List.repeat false 2 ++ List.repeat true (length [2])) 0) /\
    (count true (PermutationItr.deref (CombinationItr.current_perm_ c))
     < length (1 :: [2]))%nat /\
    count false (PermutationItr.deref (CombinationItr.current_perm_ c))
    = 2%nat /\
    dereference c
    = multichosen (1 :: [2])
        (PermutationItr.deref (CombinationItr.current_perm_ c)) /\
    length (dereference c) = 2%nat.
Proof.
  apply (combinations_with_repeat_read_stars_and_bars 1 [2] 2 1).
  unfold size_max. cbn. lia.
Defined.

(** X24.  What [Combinations(container, k)] does for every [k] and size
    [n]: for [k <= n < 64] it builds the container and [size()] is the
    exact binomial coefficient, [size() * k! * (n-k)! = n!]; for
    [n >= 64] and [0 < k <= n] it throws the overflow error; for [k > n]
    the constructor of the iterator writes past the end of its mask. *)
Theorem combinations_construction (s : list Z) (k : nat) :
  ((k <= length s)%nat -> (length s < 64)%nat ->
   exists c, Combinations s k = Built c /\
             RangeContainer.size c * zfact k * zfact (length s - k)
             = zfact (length s)) /\
  ((64 <= length s)%nat -> (0 < k <= length s)%nat ->
   Combinations s k = Thrown) /\
  ((length s < k)%nat -> Combinations s k = Undefined).
Proof.
  unfold Combinations, container. split; [|split].
  - intros L N.
    destruct (make_selection s k false L) as (b & -> & _).
    destruct (make_selection s k true L) as (e & -> & _).
    unfold binomial_coefficient. rewrite eval_pascal by exact N.
    eexists. split; [reflexivity|].
    cbn [RangeContainer.size RangeContainer.size_].
    apply pascal_fact, L.
  - intros N L.
    destruct (make_selection s k false ltac:(lia)) as (b & -> & _).
    destruct (make_selection s k true ltac:(lia)) as (e & -> & _).
    unfold binomial_coefficient. rewrite eval_large by lia. reflexivity.
  - intros L. unfold CombinationItr.make, CombinationItr.mask. cbn [negb].
    destruct (Nat.leb_spec k (length s)); [lia|]. reflexivity.
Qed.

Lemma combinations_construction_witness :
  (exists c, Combinations [1; 2; 3; 4] 2 = Built c /\
             RangeContainer.size c * zfact 2 * zfact (length [1; 2; 3; 4] - 2)
             = zfact (length [1; 2; 3; 4])) /\
  Combinations [1; 2] 3 = Undefined.
Proof.
  split.
  - apply (proj1 (combinations_construction [1; 2; 3; 4] 2)); cbn; lia.
  - apply (proj2 (proj2 (combinations_construction [1; 2] 3))). cbn. lia.
Defined.

(** ** Static strings and smart enums *)

Section StringFacts.
Import StaticString.

Lemma at_small (a : list Z) (sa i : nat) :
  indexable a -> (i < length a)%nat -> at_ (Build a sa) i = nth i a 0.
Proof.
  unfold indexable, at_, to_unsigned. intros I L. cbn [begin_].
  rewrite Z.mod_small by lia. rewrite Nat2Z.id. reflexivity.
Qed.

Lemma skipn_nth_default (l : list Z) :
  forall i, (i < length l)%nat -> skipn i l = nth i l 0 :: skipn (S i) l.
Proof.
  induction l as [|x l IH]; intros [|i] L; cbn in L; try lia.
  - reflexivity.
  - cbn [nth]. change (skipn (S i) (x :: l)) with (skipn i l).
    change (skipn (S (S i)) (x :: l)) with (skipn (S i) l).
    apply IH. lia.
Qed.

Lemma eq_loop_suffixes (turns : nat) :
  forall i a b sa sb,
  indexable a -> indexable b ->
  (turns + i = length a)%nat -> (turns + i = length b)%nat ->
  (eq_loop turns i (Build a sa) (Build b sb) = true
   <-> skipn i a = skipn i b).
Proof.
  induction turns as [|turns IH]; intros i a b sa sb Ia Ib La Lb.
  - cbn [eq_loop]. rewrite !skipn_all2 by lia. split; reflexivity.
  - cbn [eq_loop]. rewrite !at_small by (assumption || lia).
    rewrite (skipn_nth_default a i), (skipn_nth_default b i) by lia.
    destruct (Z.eqb_spec (nth i a 0) (nth i b 0)) as [E|N]; cbn [negb].
    + rewrite IH by (assumption || lia).
      rewrite E. split; [intros H; f_equal; exact H|].
      intros [= H]. exact H.
    + split; [discriminate|]. intros [= E _]. contradiction.
Qed.

Lemma eq_iff (a b : list Z) :
  indexable a -> indexable b ->
  (eq (make a) (make b) = true <-> a = b).
Proof.
  intros Ia Ib. unfold eq, make, size. cbn [size_].
  destruct (Nat.eqb_spec (length a) (length b)) as [E|N]; cbn [negb].
  - rewrite (eq_loop_suffixes (length a) 0 a b) by (assumption || lia).
    reflexivity.
  - split; [discriminate|]. intros ->. contradiction.
Qed.

Lemma eq_differ (a b : list Z) :
  indexable a -> indexable b -> a <> b -> eq (make a) (make b) = false.
Proof.
  intros Ia Ib N. destruct (eq (make a) (make b)) eqn:E; [|reflexivity].
  apply eq_iff in E; [contradiction | assumption | assumption].
Qed.

Lemma lt_loop_suffixes (turns : nat) :
  forall i a b sa sb,
  indexable a -> indexable b ->
  (i <= length a)%nat -> (i <= length b)%nat ->
  turns = Nat.min (length a - i) (length b - i) ->
  lt_loop turns i (Build a sa) (Build b sb) (length a <? length b)%nat
  = negb (lex_leb (skipn i b) (skipn i a)).
Proof.
  induction turns as [|turns IH]; intros i a b sa sb Ia Ib La Lb T.
  - cbn [lt_loop].
    destruct (Nat.ltb_spec (length a) (length b)) as [Lt|Ge].
    + rewrite (skipn_all2 a) by lia.
      destruct (skipn i b) as [|y t] eqn:E; [|reflexivity].
      apply (f_equal (@length Z)) in E. rewrite length_skipn in E.
      cbn in E. lia.
    + rewrite (skipn_all2 b) by lia. reflexivity.
  - cbn [lt_loop]. cbv zeta. rewrite !at_small by (assumption || lia).
    rewrite (skipn_nth_default a i), (skipn_nth_default b i) by lia.
    cbn [lex_leb].
    destruct (Z.ltb_spec (nth i a 0) (nth i b 0)) as [L|G].
    + destruct (Z.ltb_spec (nth i b 0) (nth i a 0)); [lia|].
      destruct (Z.eqb_spec (nth i b 0) (nth i a 0)); [lia|]. reflexivity.
    + destruct (Z.gtb_spec (nth i a 0) (nth i b 0)) as [G'|L'].
      * destruct (Z.ltb_spec (nth i b 0) (nth i a 0)); [reflexivity | lia].
      * destruct (Z.ltb_spec (nth i b 0) (nth i a 0)); [lia|].
        destruct (Z.eqb_spec (nth i b 0) (nth i a 0)); [|lia].
        cbn [orb andb]. apply IH; assumption || lia.
Qed.

Lemma lt_lex (a b : list Z) :
  indexable a -> indexable b ->
  lt (make a) (make b) = negb (lex_leb b a).
Proof.
  intros Ia Ib. unfold lt, make, size. cbn [size_].
  rewrite (lt_loop_suffixes _ 0 a b);
    [reflexivity | assumption | assumption | lia | lia |].
  destruct (Nat.ltb_spec (length a) (length b)); lia.
Qed.

Lemma lex_leb_refl (a : list Z) : lex_leb a a = true.
Proof.
  induction a as [|x a IH]; [reflexivity|]. rewrite lex_leb_cons. exact IH.
Qed.

Lemma lex_leb_total (a b : list Z) : lex_leb a b = true \/ lex_leb b a = true.
Proof.
  revert b. induction a as [|x a IH]; intros [|y b]; cbn; auto.
  destruct (Z.ltb_spec x y), (Z.ltb_spec y x); cbn; auto; try lia.
  assert (x = y) by lia. subst y. rewrite Z.eqb_refl. cbn. apply IH.
Qed.

Lemma lex_leb_trans (a b c : list Z) :
  lex_leb a b = true -> lex_leb b c = true -> lex_leb a c = true.
Proof.
  revert b c. induction a as [|x a IH]; intros [|y b] [|z c]; cbn;
    try discriminate; auto.
  rewrite !orb_true_iff, !andb_true_iff, !Z.ltb_lt, !Z.eqb_eq.
  intros [L1|[E1 R1]] [L2|[E2 R2]];
    [left; lia | left; lia | left; lia |].
  right. split; [lia|]. eapply IH; eassumption.
Qed.

End StringFacts.

Lemma indexable_tail (x : Z) (a : list Z) : indexable (x :: a) -> indexable a.
Proof. unfold indexable. cbn [length]. lia. Qed.

Lemma indexable_nil : indexable [].
Proof. unfold indexable. cbn. lia. Qed.

(** X25.  On literals whose indices fit an [unsigned], two
    [StaticString]s compare equal exactly when the literals hold the
    same characters, and [operator<] is the lexicographic order of the
    characters: it compares the first characters and, on a tie, the
    rest, and a proper prefix is smaller.  It is a strict total order
    (irreflexive, transitive, and two strings neither of which is below
    the other are equal); [!=], [>], [<=] and [>=] agree with them. *)
Theorem static_string_comparisons :
  let str := StaticString.make in
  (forall a b, indexable a -> indexable b ->
     (StaticString.eq (str a) (str b) = true <-> a = b)) /\
  (forall b, indexable b -> StaticString.lt (str b) (str []) = false) /\
  (forall y b, indexable (y :: b) ->
     StaticString.lt (str []) (str (y :: b)) = true) /\
  (forall x a y b, indexable (x :: a) -> indexable (y :: b) ->
     StaticString.lt (str (x :: a)) (str (y :: b))
     = (x <? y) || ((x =? y) && StaticString.lt (str a) (str b))) /\
  (forall a, indexable a -> StaticString.lt (str a) (str a) = false) /\
  (forall a b c, indexable a -> indexable b -> indexable c ->
     StaticString.lt (str a) (str b) = true ->
     StaticString.lt (str b) (str c) = true ->
     StaticString.lt (str a) (str c) = true) /\
  (forall a b, indexable a -> indexable b ->
     StaticString.lt (str a) (str b) = false ->
     StaticString.lt (str b) (str a) = false -> a = b) /\
  (forall a b, indexable a -> indexable b ->
     StaticString.ne (str a) (str b) = negb (StaticString.eq (str a) (str b)) /\
     StaticString.gt (str a) (str b) = StaticString.lt (str b) (str a) /\
     StaticString.le (str a) (str b) = negb (StaticString.lt (str b) (str a)) /\
     StaticString.ge (str a) (str b) = negb (StaticString.lt (str a) (str b))).
Proof.
  cbv zeta.
  assert (Le : forall a b, indexable a -> indexable b ->
            StaticString.le (StaticString.make a) (StaticString.make b)
            = lex_leb a b).
  { intros a b Ia Ib. unfold StaticString.le. rewrite lt_lex by assumption.
    destruct (lex_leb a b) eqn:E1, (lex_leb b a) eqn:E2; cbn [negb orb].
    - apply eq_iff; [assumption | assumption |].
      apply lex_leb_antisym; assumption.
    - reflexivity.
    - apply eq_differ; [assumption | assumption |].
      intros ->. congruence.
    - destruct (lex_leb_total a b); congruence. }
  split; [|split; [|split; [|split; [|split; [|split; [|split]]]]]].
  - intros a b Ia Ib. apply eq_iff; assumption.
  - intros b Ib. rewrite lt_lex by (assumption || apply indexable_nil).
    reflexivity.
  - intros y b Ib. rewrite lt_lex by (assumption || apply indexable_nil).
    reflexivity.
  - intros x a y b Ia Ib.
    pose proof (indexable_tail x a Ia). pose proof (indexable_tail y b Ib).
    rewrite !lt_lex by assumption. cbn [lex_leb].
    destruct (Z.ltb_spec y x), (Z.ltb_spec x y), (Z.eqb_spec y x),
      (Z.eqb_spec x y); cbn; try reflexivity; lia.
  - intros a Ia. rewrite lt_lex, lex_leb_refl by assumption. reflexivity.
  - intros a b c Ia Ib Ic. rewrite !lt_lex by assumption. intros E1 E2.
    destruct (lex_leb c a) eqn:E; [|reflexivity].
    destruct (lex_leb_total a b) as [Lab|Lba];
      [|rewrite Lba in E1; discriminate].
    rewrite (lex_leb_trans c a b E Lab) in E2. discriminate.
  - intros a b Ia Ib. rewrite !lt_lex by assumption. intros E1 E2.
    apply lex_leb_antisym.
    + destruct (lex_leb a b); [reflexivity | discriminate].
    + destruct (lex_leb b a); [reflexivity | discriminate].
  - intros a b Ia Ib. split; [reflexivity|]. split; [reflexivity|]. split.
    + rewrite Le, lt_lex, negb_involutive by assumption. reflexivity.
    + unfold StaticString.ge.
      rewrite Le, lt_lex, negb_involutive by assumption. reflexivity.
Qed.

Lemma static_string_comparisons_witness :
  StaticString.lt (StaticString.make [104; 105]) (StaticString.make [122])
  = true.
Proof.
  apply (proj1 (proj2 (proj2 (proj2 (proj2 (proj2 static_string_comparisons)))))
           [104; 105] [104; 111] [122]);
    try reflexivity; unfold indexable; cbn; lia.
Defined.

(** X26.  A [SmartEnum] compares as the name it was declared with:
    enumerators are equal exactly when their names are, and exactly one
    of [a < b], [a == b], [a > b] holds for any two of them. *)
Theorem smart_enum_compares_names (a b : list Z) :
  indexable a -> indexable b ->
  (SmartEnum.eq (SmartEnum.make a) (SmartEnum.make b) = true <-> a = b) /\
  SmartEnum.ne (SmartEnum.make a) (SmartEnum.make b)
  = negb (SmartEnum.eq (SmartEnum.make a) (SmartEnum.make b)) /\
  (SmartEnum.lt (SmartEnum.make a) (SmartEnum.make b) = true /\
   SmartEnum.eq (SmartEnum.make a) (SmartEnum.make b) = false /\
   SmartEnum.gt (SmartEnum.make a) (SmartEnum.make b) = false
   \/
   SmartEnum.lt (SmartEnum.make a) (SmartEnum.make b) = false /\
   SmartEnum.eq (SmartEnum.make a) (SmartEnum.make b) = true /\
   SmartEnum.gt (SmartEnum.make a) (SmartEnum.make b) = false
   \/
   SmartEnum.lt (SmartEnum.make a) (SmartEnum.make b) = false /\
   SmartEnum.eq (SmartEnum.make a) (SmartEnum.make b) = false /\
   SmartEnum.gt (SmartEnum.make a) (SmartEnum.make b) = true) /\
  SmartEnum.le (SmartEnum.make a) (SmartEnum.make b)
  = negb (SmartEnum.gt (SmartEnum.make a) (SmartEnum.make b)) /\
  SmartEnum.ge (SmartEnum.make a) (SmartEnum.make b)
  = negb (SmartEnum.lt (SmartEnum.make a) (SmartEnum.make b)).
Proof.
  intros Ia Ib.
  unfold SmartEnum.eq, SmartEnum.ne, SmartEnum.lt, SmartEnum.gt,
         SmartEnum.le, SmartEnum.ge, SmartEnum.make.
  cbn [SmartEnum.value_].
  split; [apply eq_iff; assumption|]. split; [reflexivity|].
  unfold StaticString.ge, StaticString.le, StaticString.gt.
  rewrite !lt_lex by assumption.
  destruct (lex_leb a b) eqn:E1, (lex_leb b a) eqn:E2; cbn [negb orb].
  - assert (a = b) by (apply lex_leb_antisym; assumption). subst b.
    rewrite (proj2 (eq_iff a a Ia Ia) eq_refl). split; [|split; reflexivity].
    right. left. repeat split.
  - assert (N : a <> b) by (intros ->; congruence).
    rewrite ?(eq_differ a b Ia Ib N), ?(eq_differ b a Ib Ia (not_eq_sym N)).
    split; [|split; reflexivity]. left. repeat split.
  - assert (N : a <> b) by (intros ->; congruence).
    rewrite ?(eq_differ a b Ia Ib N), ?(eq_differ b a Ib Ia (not_eq_sym N)).
    split; [|split; reflexivity]. right. right. repeat split.
  - destruct (lex_leb_total a b); congruence.
Qed.

Lemma smart_enum_compares_names_witness :
  SmartEnum.eq (SmartEnum.make [97; 112]) (SmartEnum.make [97; 112]) = true.
Proof.
  apply (proj2 (proj1 (smart_enum_compares_names [97; 112] [97; 112]
                         ltac:(unfold indexable; cbn; lia)
                         ltac:(unfold indexable; cbn; lia)))).
  reflexivity.
Defined.

(** ** Case-insensitive comparison *)

Section CaseFacts.
Import CaseInsensitive.

Lemma less_lex (a b : list Z) :
  CaseInsensitiveLess a b = negb (lex_leb (map tolower b) (map tolower a)).
Proof.
  unfold CaseInsensitiveLess. revert b.
  induction a as [|x a IH]; intros [|y b];
    cbn [lexicographical_compare map lex_leb negb]; try reflexivity.
  unfold LetterComparer at 1 2.
  destruct (Z.ltb_spec (tolower x) (tolower y)),
           (Z.ltb_spec (tolower y) (tolower x)); try lia; cbn [orb negb].
  destruct (Z.eqb_spec (tolower y) (tolower x)); [|lia]. cbn [andb].
  apply IH.
Qed.

End CaseFacts.

(** X27.  [CaseInsensitiveLess_] is a strict weak order on strings, as
    [std::map] requires of its comparison: it is irreflexive and
    transitive, and two strings are equivalent (neither is less than the
    other) exactly when they are equal once every letter is lowered, so
    keys that differ in case only are one key. *)
Theorem case_insensitive_less_is_a_strict_weak_order :
  (forall s, CaseInsensitive.CaseInsensitiveLess s s = false) /\
  (forall a b c,
     CaseInsensitive.CaseInsensitiveLess a b = true ->
     CaseInsensitive.CaseInsensitiveLess b c = true ->
     CaseInsensitive.CaseInsensitiveLess a c = true) /\
  (forall a b,
     CaseInsensitive.CaseInsensitiveLess a b = false /\
     CaseInsensitive.CaseInsensitiveLess b a = false
     <-> map CaseInsensitive.tolower a = map CaseInsensitive.tolower b).
Proof.
  split; [|split].
  - intros s. rewrite less_lex, lex_leb_refl. reflexivity.
  - intros a b c. rewrite !less_lex. intros E1 E2.
    destruct (lex_leb _ (map CaseInsensitive.tolower a)) eqn:E at 1;
      [|reflexivity].
    destruct (lex_leb_total (map CaseInsensitive.tolower a)
                            (map CaseInsensitive.tolower b)) as [Lab|Lba];
      [|rewrite Lba in E1; discriminate].
    rewrite (lex_leb_trans _ _ _ E Lab) in E2. discriminate.
  - intros a b. rewrite !less_lex. split.
    + intros [E1 E2]. apply lex_leb_antisym.
      * destruct (lex_leb (map _ a) (map _ b)); [reflexivity | discriminate].
      * destruct (lex_leb (map _ b) (map _ a)); [reflexivity | discriminate].
    + intros ->. rewrite lex_leb_refl. split; reflexivity.
Qed.

Lemma case_insensitive_less_is_a_strict_weak_order_witness :
  CaseInsensitive.CaseInsensitiveLess [97; 66; 99] [65; 98; 67] = false /\
  CaseInsensitive.CaseInsensitiveLess [65; 98; 67] [97; 66; 99] = false.
Proof.
  apply (proj2 (proj2 (proj2 case_insensitive_less_is_a_strict_weak_order)
                  [97; 66; 99] [65; 98; 67])).
  reflexivity.
Defined.

(** ** Sets *)

Section SetFacts.
Import MathSet.

Lemma count_in (x : Z) (s : t) : count x s = true <-> In x (elements_ s).
Proof.
  unfold count. rewrite existsb_exists. split.
  - intros (y & M & E). apply Z.eqb_eq in E. subst y. exact M.
  - intros M. exists x. split; [exact M | apply Z.eqb_refl].
Qed.

Lemma bool_same (b c : bool) : (b = true <-> c = true) -> b = c.
Proof. destruct b, c; intuition congruence. Qed.

Lemma set_insert_in (x : Z) (l : list Z) :
  forall z, In z (set_insert x l) <-> z = x \/ In z l.
Proof.
  induction l as [|y l IH]; intros z; cbn [set_insert].
  - cbn. intuition.
  - destruct (Z.ltb_spec x y); [cbn; intuition|].
    destruct (Z.ltb_spec y x).
    + cbn [In]. rewrite IH. intuition.
    + assert (x = y) by lia. subst y. cbn. intuition.
Qed.

Lemma set_insert_asc (x : Z) (l : list Z) : asc l -> asc (set_insert x l).
Proof.
  induction l as [|y l IH]; intros HA; cbn [set_insert].
  - repeat constructor.
  - pose proof HA as HA0. apply asc_cons_iff in HA as [HA F].
    destruct (Z.ltb_spec x y).
    + apply asc_cons_iff. split; [exact HA0|].
      intros z [<-|M]; [lia|]. specialize (F z M). lia.
    + destruct (Z.ltb_spec y x); [|exact HA0].
      apply asc_cons_iff. split; [auto|].
      intros z M. apply set_insert_in in M as [->|M]; auto.
Qed.

Lemma fold_insert (range : list Z) :
  forall acc, asc acc ->
  asc (fold_left (fun acc x => set_insert x acc) range acc) /\
  forall z, In z (fold_left (fun acc x => set_insert x acc) range acc)
            <-> In z acc \/ In z range.
Proof.
  induction range as [|x range IH]; intros acc HA; cbn [fold_left].
  - split; [exact HA|]. intros z. cbn. intuition.
  - destruct (IH (set_insert x acc) (set_insert_asc x acc HA)) as [S1 M1].
    split; [exact S1|]. intros z. rewrite M1, set_insert_in. cbn. intuition.
Qed.

Lemma set_insert_last (x : Z) (l : list Z) :
  (forall y, In y l -> y < x) -> set_insert x l = l ++ [x].
Proof.
  induction l as [|y l IH]; intros F; [reflexivity|].
  cbn [set_insert app]. pose proof (F y (or_introl eq_refl)).
  destruct (Z.ltb_spec x y); [lia|]. destruct (Z.ltb_spec y x); [|lia].
  rewrite IH; [reflexivity|]. intros z M. apply F. right. exact M.
Qed.

(** Writing a strictly ascending range into an empty set keeps it. *)
Lemma collect_asc (range : list Z) : asc range -> collect range = range.
Proof.
  unfold collect. intros HA.
  assert (G : forall acc, asc (acc ++ range) ->
              fold_left (fun acc x => set_insert x acc) range acc
              = acc ++ range).
  { clear HA. induction range as [|x range IH]; intros acc HA;
      cbn [fold_left]; [rewrite app_nil_r; reflexivity|].
    rewrite set_insert_last.
    - rewrite IH; rewrite <- app_assoc; [reflexivity | exact HA].
    - intros y M. apply asc_app_iff in HA as (_ & _ & C).
      apply C; [exact M | left; reflexivity]. }
  apply (G []). exact HA.
Qed.

Ltac saturate :=
  repeat match goal with
  | M : In ?z ?t, F : (forall y, In y ?t -> ?x < y) |- _ =>
      lazymatch goal with
      | _ : x < z |- _ => fail
      | _ => pose proof (F z M)
      end
  end.

Ltac solve_in := intuition (subst; saturate; try lia; try tauto).

Lemma intersection_spec (l1 : list Z) :
  forall l2, asc l1 -> asc l2 ->
  asc (set_intersection l1 l2) /\
  forall z, In z (set_intersection l1 l2) <-> In z l1 /\ In z l2.
Proof.
  induction l1 as [|x t1 IH1]; intros l2 H1 H2.
  - cbn. split; [constructor | intuition].
  - pose proof H1 as H10. apply asc_cons_iff in H1 as [H1 F1].
    induction l2 as [|y t2 IH2].
    + cbn. split; [constructor | intuition].
    + pose proof H2 as H20. apply asc_cons_iff in H2 as [H2 F2].
      cbn [set_intersection].
      destruct (Z.ltb_spec x y) as [L|G].
      * destruct (IH1 (y :: t2) H1 H20) as [S M]. split; [exact S|].
        intros z. rewrite M. cbn [In]. solve_in.
      * destruct (Z.ltb_spec y x) as [L'|G'].
        -- destruct (IH2 H2) as [S M]. split; [exact S|].
           intros z. rewrite M. cbn [In]. solve_in.
        -- assert (x = y) by lia. subst y.
           destruct (IH1 t2 H1 H2) as [S M]. split.
           ++ apply asc_cons_iff. split; [exact S|].
              intros z Mz. apply M in Mz as [Mz _]. auto.
           ++ intros z. cbn [In]. rewrite M. solve_in.
Qed.

Lemma difference_spec (l1 : list Z) :
  forall l2, asc l1 -> asc l2 ->
  asc (set_difference l1 l2) /\
  forall z, In z (set_difference l1 l2) <-> In z l1 /\ ~ In z l2.
Proof.
  induction l1 as [|x t1 IH1]; intros l2 H1 H2.
  - cbn. split; [constructor | intuition].
  - pose proof H1 as H10. apply asc_cons_iff in H1 as [H1 F1].
    induction l2 as [|y t2 IH2].
    + cbn [set_difference]. split; [exact H10|]. intros z. cbn. intuition.
    + pose proof H2 as H20. apply asc_cons_iff in H2 as [H2 F2].
      cbn [set_difference].
      destruct (Z.ltb_spec x y) as [L|G].
      * destruct (IH1 (y :: t2) H1 H20) as [S M]. split.
        -- apply asc_cons_iff. split; [exact S|].
           intros z Mz. apply M in Mz as [Mz _]. auto.
        -- intros z. cbn [In]. rewrite M. cbn [In]. solve_in.
      * destruct (Z.ltb_spec y x) as [L'|G'].
        -- destruct (IH2 H2) as [S M]. split; [exact S|].
           intros z. rewrite M. cbn [In]. solve_in.
        -- assert (x = y) by lia. subst y.
           destruct (IH1 t2 H1 H2) as [S M]. split; [exact S|].
           intros z. rewrite M. cbn [In]. solve_in.
Qed.

Lemma symmetric_difference_spec (l1 : list Z) :
  forall l2, asc l1 -> asc l2 ->
  asc (set_symmetric_difference l1 l2) /\
  forall z, In z (set_symmetric_difference l1 l2)
            <-> (In z l1 /\ ~ In z l2) \/ (In z l2 /\ ~ In z l1).
Proof.
  induction l1 as [|x t1 IH1]; intros l2 H1 H2.
  - cbn. split; [exact H2 | intuition].
  - pose proof H1 as H10. apply asc_cons_iff in H1 as [H1 F1].
    induction l2 as [|y t2 IH2].
    + cbn [set_symmetric_difference]. split; [exact H10|].
      intros z. cbn. intuition.
    + pose proof H2 as H20. apply asc_cons_iff in H2 as [H2 F2].
      cbn [set_symmetric_difference].
      destruct (Z.ltb_spec x y) as [L|G].
      * destruct (IH1 (y :: t2) H1 H20) as [S M]. split.
        -- apply asc_cons_iff. split; [exact S|].
           intros z Mz. apply M in Mz. cbn [In] in Mz. solve_in.
        -- intros z. cbn [In]. rewrite M. cbn [In]. solve_in.
      * destruct (Z.ltb_spec y x) as [L'|G'].
        -- destruct (IH2 H2) as [S M]. split.
           ++ apply asc_cons_iff. split; [exact S|].
              intros z Mz. apply M in Mz. cbn [In] in Mz. solve_in.
           ++ intros z. cbn [In]. rewrite M. cbn [In]. solve_in.
        -- assert (x = y) by lia. subst y.
           destruct (IH1 t2 H1 H2) as [S M]. split; [exact S|].
           intros z. rewrite M. cbn [In]. solve_in.
Qed.

End SetFacts.

(** ** Comparisons of sets *)

Section SetOrderFacts.
Import MathSet.

Lemma count_member (x : Z) (l : list Z) :
  existsb (Z.eqb x) l = true <-> In x l.
Proof. apply (count_in x (Build l)). Qed.

Lemma insert_length (x : Z) (l : list Z) :
  asc l ->
  length (set_insert x l)
  = if existsb (Z.eqb x) l then length l else S (length l).
Proof.
  induction l as [|y l IH]; intros HA; [reflexivity|].
  apply asc_cons_iff in HA as [HA F]. cbn [set_insert existsb].
  destruct (Z.ltb_spec x y) as [L|G].
  - destruct (Z.eqb_spec x y); [lia|]. cbn [orb].
    destruct (existsb (Z.eqb x) l) eqn:E; [|reflexivity].
    apply count_member in E. specialize (F x E). lia.
  - destruct (Z.ltb_spec y x) as [L'|G'].
    + destruct (Z.eqb_spec x y); [lia|]. cbn [orb length].
      rewrite IH by exact HA. destruct (existsb (Z.eqb x) l); reflexivity.
    + destruct (Z.eqb_spec x y); [|lia]. reflexivity.
Qed.

Lemma subset_forallb (a b : t) :
  forallb (fun x => count x b) (elements_ a) = true
  <-> forall x, count x a = true -> count x b = true.
Proof.
  rewrite forallb_forall. split.
  - intros F x M. apply F, count_in, M.
  - intros F x M. apply F, count_in, M.
Qed.

Lemma subset_size (a b : t) :
  well_formed a ->
  (forall x, count x a = true -> count x b = true) -> size a <= size b.
Proof.
  intros Wa Sub. unfold size. apply inj_le.
  apply NoDup_incl_length; [apply asc_NoDup, Wa|].
  intros x M. apply count_in, Sub, count_in, M.
Qed.

Lemma le_subset (a b : t) :
  well_formed a ->
  (le a b = true <-> forall x, count x a = true -> count x b = true).
Proof.
  intros Wa. unfold le.
  destruct (Z.gtb_spec (size a) (size b)) as [G|L].
  - split; [discriminate|]. intros Sub.
    pose proof (subset_size a b Wa Sub). lia.
  - apply subset_forallb.
Qed.

Lemma proper_subset_size (a b : t) :
  well_formed a -> well_formed b ->
  (forall x, count x a = true -> count x b = true) ->
  (size a < size b
   <-> exists x, count x b = true /\ count x a = false).
Proof.
  intros Wa Wb Sub. unfold size. split.
  - intros L.
    destruct (existsb (fun x => negb (count x a)) (elements_ b)) eqn:E.
    + apply existsb_exists in E as (x & M & N).
      exists x. split; [apply count_in, M|].
      destruct (count x a); [discriminate | reflexivity].
    + exfalso.
      assert (Inc : incl (elements_ b) (elements_ a)).
      { intros x M. apply count_in.
        destruct (count x a) eqn:C; [reflexivity|].
        assert (existsb (fun x => negb (count x a)) (elements_ b) = true).
        { apply existsb_exists. exists x. rewrite C. auto. }
        congruence. }
      pose proof (NoDup_incl_length (asc_NoDup _ Wb) Inc). lia.
  - intros (x & Mb & Na).
    assert (Nd : NoDup (x :: elements_ a)).
    { constructor; [|apply asc_NoDup, Wa].
      intros M. apply count_in in M. congruence. }
    assert (Inc : incl (x :: elements_ a) (elements_ b)).
    { intros z [<-|M]; [apply count_in, Mb|].
      apply count_in, Sub, count_in, M. }
    pose proof (NoDup_incl_length Nd Inc) as L. cbn [length] in L. lia.
Qed.

Lemma seq_eqb_eq (l1 l2 : list Z) : seq_eqb l1 l2 = true <-> l1 = l2.
Proof.
  revert l2. induction l1 as [|x l1 IH]; intros [|y l2];
    cbn [seq_eqb eqb Elem_Z]; try (split; [discriminate | discriminate]).
  - split; reflexivity.
  - rewrite andb_true_iff, Z.eqb_eq, IH. split.
    + intros [-> ->]. reflexivity.
    + intros [= -> ->]. auto.
Qed.

Lemma same_elements (a b : t) :
  well_formed a -> well_formed b ->
  (eq a b = true <-> forall x, count x a = count x b).
Proof.
  intros Wa Wb. unfold eq. rewrite seq_eqb_eq. split.
  - intros E x. unfold count. rewrite E. reflexivity.
  - intros Same. apply ascending_unique; try (apply asc_ascending; assumption).
    apply NoDup_Permutation; try (apply asc_NoDup; assumption).
    intros x. rewrite <- !count_in, Same. reflexivity.
Qed.

End SetOrderFacts.

(** X28.  Building a [MathSet]: the set built from an initializer list
    holds exactly the elements of the list, each once and in ascending
    order, whatever the order and the repetitions in the list; after
    [insert(x)] the set holds [x] and what it held before, and its size
    has grown by one exactly when [x] was not in it; the default set is
    empty. *)
Theorem math_set_insert_and_count :
  (forall x, MathSet.count x MathSet.empty_set = false) /\
  MathSet.empty MathSet.empty_set = true /\
  (forall il,
     well_formed (MathSet.of_list il) /\
     forall x, MathSet.count x (MathSet.of_list il) = existsb (Z.eqb x) il) /\
  (forall s x,
     well_formed s ->
     well_formed (MathSet.insert x s) /\
     (forall y, MathSet.count y (MathSet.insert x s)
                = (y =? x) || MathSet.count y s) /\
     MathSet.size (MathSet.insert x s)
     = MathSet.size s + (if MathSet.count x s then 0 else 1)).
Proof.
  split; [reflexivity|]. split; [reflexivity|]. split.
  - intros il. unfold MathSet.of_list, MathSet.collect.
    destruct (fold_insert il [] ltac:(constructor)) as [S M].
    split; [exact S|]. intros x. apply bool_same.
    rewrite count_in, count_member. cbn [MathSet.elements_].
    rewrite M. cbn. tauto.
  - intros s x W. split; [apply set_insert_asc, W|]. split.
    + intros y. apply bool_same.
      rewrite count_in, orb_true_iff, Z.eqb_eq, count_in.
      cbn [MathSet.insert MathSet.elements_]. apply set_insert_in.
    + unfold MathSet.size, MathSet.insert, MathSet.count.
      cbn [MathSet.elements_]. rewrite insert_length by exact W.
      destruct (existsb (Z.eqb x) (MathSet.elements_ s)); lia.
Qed.

Lemma math_set_insert_and_count_witness :
  well_formed (MathSet.insert 2 (MathSet.of_list [3; 1; 3])) /\
  MathSet.size (MathSet.insert 2 (MathSet.of_list [3; 1; 3]))
  = MathSet.size (MathSet.of_list [3; 1; 3])
    + (if MathSet.count 2 (MathSet.of_list [3; 1; 3]) then 0 else 1).
Proof.
  destruct (proj2 (proj2 (proj2 math_set_insert_and_count))
              (MathSet.of_list [3; 1; 3]) 2) as (W & _ & S).
  - apply (proj1 (proj2 (proj2 math_set_insert_and_count)) [3; 1; 3]).
  - split; [exact W | exact S].
Defined.

(** X29.  The set algebra of [MathSet]: an element is in the union when
    it is in either set, in the intersection when it is in both, in the
    difference when it is in the first and not in the second, and in the
    symmetric difference when it is in exactly one; every result is
    again a set (ascending, without repetitions). *)
Theorem math_set_algebra (a b : MathSet.t) :
  well_formed a -> well_formed b ->
  (well_formed (MathSet.take_union a b) /\
   forall x, MathSet.count x (MathSet.take_union a b)
             = MathSet.count x a || MathSet.count x b) /\
  (well_formed (MathSet.intersection a b) /\
   forall x, MathSet.count x (MathSet.intersection a b)
             = MathSet.count x a && MathSet.count x b) /\
  (well_formed (MathSet.difference a b) /\
   forall x, MathSet.count x (MathSet.difference a b)
             = MathSet.count x a && negb (MathSet.count x b)) /\
  (well_formed (MathSet.symmetric_difference a b) /\
   forall x, MathSet.count x (MathSet.symmetric_difference a b)
             = xorb (MathSet.count x a) (MathSet.count x b)).
Proof.
  intros Wa Wb. unfold well_formed in *.
  split; [|split; [|split]].
  - unfold MathSet.take_union, MathSet.union_assign.
    destruct (fold_insert (MathSet.elements_ b) (MathSet.elements_ a) Wa)
      as [S M].
    split; [exact S|]. intros x. apply bool_same.
    rewrite orb_true_iff, !count_in. cbn [MathSet.elements_]. apply M.
  - unfold MathSet.intersection, MathSet.intersection_assign.
    destruct (intersection_spec _ _ Wa Wb) as [S M].
    cbn [MathSet.elements_]. rewrite collect_asc by exact S.
    split; [exact S|]. intros x. apply bool_same.
    rewrite andb_true_iff, !count_in. cbn [MathSet.elements_]. apply M.
  - unfold MathSet.difference, MathSet.difference_assign.
    destruct (difference_spec _ _ Wa Wb) as [S M].
    cbn [MathSet.elements_]. rewrite collect_asc by exact S.
    split; [exact S|]. intros x. apply bool_same.
    rewrite andb_true_iff, negb_true_iff, count_in.
    cbn [MathSet.elements_]. rewrite M, <- !count_in.
    destruct (MathSet.count x b); intuition congruence.
  - unfold MathSet.symmetric_difference, MathSet.symmetric_difference_assign.
    destruct (symmetric_difference_spec _ _ Wa Wb) as [S M].
    cbn [MathSet.elements_]. rewrite collect_asc by exact S.
    split; [exact S|]. intros x. apply bool_same.
    rewrite count_in. cbn [MathSet.elements_]. rewrite M, <- !count_in.
    destruct (MathSet.count x a), (MathSet.count x b); cbn;
      intuition congruence.
Qed.

Lemma math_set_algebra_witness :
  well_formed (MathSet.symmetric_difference (MathSet.of_list [1; 2; 3])
                                            (MathSet.of_list [2; 3; 4])) /\
  MathSet.count 4 (MathSet.symmetric_difference (MathSet.of_list [1; 2; 3])
                                                (MathSet.of_list [2; 3; 4]))
  = xorb (MathSet.count 4 (MathSet.of_list [1; 2; 3]))
         (MathSet.count 4 (MathSet.of_list [2; 3; 4])).
Proof.
  destruct (math_set_algebra (MathSet.of_list [1; 2; 3])
                             (MathSet.of_list [2; 3; 4]))
    as (_ & _ & _ & W & C).
  - repeat constructor.
  - repeat constructor.
  - split; [exact W | apply C].
Defined.

(** X30.  The comparisons of [MathSet]: [a <= b] holds exactly when every
    element of [a] is in [b], [a < b] when moreover some element of [b]
    is not in [a], [a == b] when both hold the same elements; [>=], [>]
    and [!=] are the mirrored and the negated ones.  The size tests that
    [<=] and [<] start with never change the answer. *)
Theorem math_set_comparisons (a b : MathSet.t) :
  well_formed a -> well_formed b ->
  (MathSet.le a b = true
   <-> forall x, MathSet.count x a = true -> MathSet.count x b = true) /\
  (MathSet.lt a b = true
   <-> (forall x, MathSet.count x a = true -> MathSet.count x b = true) /\
       exists x, MathSet.count x b = true /\ MathSet.count x a = false) /\
  (MathSet.eq a b = true
   <-> forall x, MathSet.count x a = MathSet.count x b) /\
  MathSet.ge a b = MathSet.le b a /\
  MathSet.gt a b = MathSet.lt b a /\
  MathSet.ne a b = negb (MathSet.eq a b) /\
  (MathSet.eq a b = MathSet.le a b && MathSet.le b a).
Proof.
  intros Wa Wb.
  pose proof (le_subset a b Wa) as Lab.
  pose proof (le_subset b a Wb) as Lba.
  pose proof (same_elements a b Wa Wb) as Eab.
  split; [exact Lab|]. split.
  - unfold MathSet.lt.
    destruct (Z.geb_spec (MathSet.size a) (MathSet.size b)) as [G|L].
    + split; [discriminate|]. intros [Sub Ex].
      apply (proper_subset_size a b Wa Wb Sub) in Ex. lia.
    + rewrite Lab. split.
      * intros Sub. split; [exact Sub|].
        apply (proper_subset_size a b Wa Wb Sub). exact L.
      * intros [Sub _]. exact Sub.
  - split; [exact Eab|]. repeat (split; [reflexivity|]).
    apply bool_same. rewrite andb_true_iff, Eab, Lab, Lba. split.
    + intros Same. split; intros x; rewrite Same; auto.
    + intros [S1 S2] x. apply bool_same. split; auto.
Qed.

Lemma math_set_comparisons_witness :
  MathSet.lt (MathSet.of_list [2; 1]) (MathSet.of_list [1; 2; 5]) = true.
Proof.
  apply (proj2 (proj1 (proj2 (math_set_comparisons
                                (MathSet.of_list [2; 1])
                                (MathSet.of_list [1; 2; 5])
                                ltac:(repeat constructor)
                                ltac:(repeat constructor))))).
  split.
  - intros x. cbn. destruct (Z.eqb_spec x 1), (Z.eqb_spec x 2); cbn;
      auto; discriminate.
  - exists 5. split; reflexivity.
Defined.
